(** * The splittable Threefry PRNG of [jax/random.py]

    A shallow embedding of the counter-based random number generator:
    the Threefry-2x32 hash, key management ([PRNGKey], [split],
    [fold_in]), bit extraction ([_random_bits]) and the samplers built on
    them ([_uniform], [_randint], [_shuffle], [_gamma_one]).

    Unsigned and signed machine integers are [Z] with the wrap-around
    written out.  Python exceptions are the [Raise] outcome of a small
    monad, which also counts the invocations of the hash so that
    "fails before hashing" can be stated. *)

From Stdlib Require Import ZArith NArith List Bool Lia Permutation Sorted.
From Stdlib Require Import QArith Qminmax Qpower Qabs.
Import ListNotations.
Open Scope Z_scope.

(** ** Exceptions and the monad of fallible, hash-counting computations *)

Inductive exn : Type :=
| TypeError
| ValueError
| OverflowError.

Inductive result (A : Type) : Type :=
| Ok (a : A)
| Raise (e : exn).
Arguments Ok {A} a.
Arguments Raise {A} e.

(** A computation yields the number of times [threefry_2x32] ran and
    either a value or the exception that stopped it. *)
Definition M (A : Type) : Type := (nat * result A)%type.

Definition ret {A : Type} (a : A) : M A := (0%nat, Ok a).

Definition raise {A : Type} (e : exn) : M A := (0%nat, Raise e).

Definition bind {A B : Type} (m : M A) (f : A -> M B) : M B :=
  match m with
  | (n, Ok a) => let (k, r) := f a in ((n + k)%nat, r)
  | (n, Raise e) => (n, Raise e)
  end.

Definition tick_hash : M unit := (1%nat, Ok tt).

Definition hashes {A : Type} (m : M A) : nat := fst m.

Definition outcome {A : Type} (m : M A) : result A := snd m.

Notation "x <- m ;; k" := (bind m (fun x => k))
  (at level 61, m at next level, right associativity).
Notation "m ;;; k" := (bind m (fun _ => k))
  (at level 61, right associativity).

(** ** Element types and arrays *)

Inductive dtype : Type :=
| uint32 | uint64 | int16 | int32 | int64
| float16 | float32 | float64.

Definition dtype_eqb (a b : dtype) : bool :=
  match a, b with
  | uint32, uint32 | uint64, uint64 | int16, int16 | int32, int32
  | int64, int64 | float16, float16 | float32, float32
  | float64, float64 => true
  | _, _ => false
  end.

(** [onp.issubdtype(dtype, onp.integer)] *)
Definition is_integer (dt : dtype) : bool :=
  match dt with
  | uint32 | uint64 | int16 | int32 | int64 => true
  | _ => false
  end.

(** [onp.issubdtype(dtype, onp.floating)] *)
Definition is_floating (dt : dtype) : bool := negb (is_integer dt).

Definition is_signed (dt : dtype) : bool :=
  match dt with
  | int16 | int32 | int64 => true
  | _ => false
  end.

(** [onp.iinfo(dtype).bits] and [onp.finfo(dtype).bits] *)
Definition dtype_bits (dt : dtype) : Z :=
  match dt with
  | int16 | float16 => 16
  | uint32 | int32 | float32 => 32
  | uint64 | int64 | float64 => 64
  end.

(** [onp.finfo(dtype).nmant]; integer types have no mantissa. *)
Definition finfo_nmant (dt : dtype) : Z :=
  match dt with
  | float16 => 10
  | float32 => 23
  | float64 => 52
  | _ => 0
  end.

(** An array: element type, shape, and the elements in row-major order. *)
Record ndarray (A : Type) : Type := mkarray {
  dtype_of : dtype;
  shape : list N;
  data : list A
}.
Arguments mkarray {A} _ _ _.
Arguments dtype_of {A} _.
Arguments shape {A} _.
Arguments data {A} _.

Definition shape_size (s : list N) : N := fold_right N.mul 1%N s.

(** [a.size] *)
Definition size {A : Type} (a : ndarray A) : N := shape_size (shape a).

(** The elements fill the shape exactly. *)
Definition well_formed {A : Type} (a : ndarray A) : Prop :=
  N.of_nat (length (data a)) = size a.

Definition shape_eqb (s t : list N) : bool :=
  if list_eq_dec N.eq_dec s t then true else false.

(** A Python value given where a key is expected: an array, or an object
    with no [shape] or [dtype] attribute. *)
Inductive pyval : Type :=
| PyArray (a : ndarray Z)
| PyObject.

(** ** Fixed-width integer arithmetic *)

Definition wrap_unsigned (nbits x : Z) : Z := x mod 2 ^ nbits.

Definition wrap_signed (nbits x : Z) : Z :=
  (x + 2 ^ (nbits - 1)) mod 2 ^ nbits - 2 ^ (nbits - 1).

(** Reduction of an integer into the value range of an integer dtype. *)
Definition wrap (dt : dtype) (x : Z) : Z :=
  if is_signed dt then wrap_signed (dtype_bits dt) x
  else wrap_unsigned (dtype_bits dt) x.

Definition uint32_max : Z := 4294967295.

(** Modelled from the spec: the elementwise integer operations of the
    array library ([lax.add], [lax.sub], [lax.mul], [lax.rem], [lax.max],
    the bitwise operations and shifts, [lax.convert_element_type]), which
    the spec lists as consumed from outside; all arithmetic is modulo
    [2 ^ bits] of the dtype. *)
Definition lax_add (dt : dtype) (x y : Z) : Z := wrap dt (x + y).

Definition lax_sub (dt : dtype) (x y : Z) : Z := wrap dt (x - y).

Definition lax_mul (dt : dtype) (x y : Z) : Z := wrap dt (x * y).

(** Remainder with the sign of the dividend; a zero divisor leaves the
    dividend unchanged. *)
Definition lax_rem (x y : Z) : Z := Z.rem x y.

Definition lax_max (x y : Z) : Z := Z.max x y.

Definition lax_xor (x y : Z) : Z := Z.lxor x y.

Definition lax_or (x y : Z) : Z := Z.lor x y.

Definition lax_shift_left (dt : dtype) (x d : Z) : Z := wrap dt (Z.shiftl x d).

Definition lax_shift_right_logical (dt : dtype) (x d : Z) : Z :=
  wrap dt (Z.shiftr (wrap_unsigned (dtype_bits dt) x) d).

Definition lax_convert_element_type (dt : dtype) (x : Z) : Z := wrap dt x.

Definition zip_with {A B C : Type} (f : A -> B -> C)
  (xs : list A) (ys : list B) : list C :=
  map (fun p => f (fst p) (snd p)) (combine xs ys).

(** Modelled from the spec: [lax.reshape], which keeps the elements and
    fails when the new shape has another element count. *)
Definition lax_reshape {A : Type} (a : ndarray A) (new_shape : list N)
  : M (ndarray A) :=
  if N.eqb (N.of_nat (length (data a))) (shape_size new_shape)
  then ret (mkarray (dtype_of a) new_shape (data a))
  else raise TypeError.

(** Modelled from the spec: [lax.iota(dtype, n)], the counter stream
    [0 .. n-1] in the given dtype; a negative length is an error. *)
Definition lax_iota (dt : dtype) (n : Z) : M (ndarray Z) :=
  if n <? 0 then raise TypeError
  else ret (mkarray dt [Z.to_N n]
              (map (fun i => wrap dt (Z.of_nat i)) (seq 0 (Z.to_nat n)))).

(** [np.split(a, 2)] on a flat array: two equal halves, or an error. *)
Definition np_split2 {A : Type} (l : list A) : M (list A * list A) :=
  if Nat.even (length l)
  then let h := Nat.div2 (length l) in ret (firstn h l, skipn h l)
  else raise ValueError.

(** ** Keys *)

(** [PRNGKey(seed)] for an integer seed: the high and the low 32-bit
    word.  The test on [onp.shape(seed)] never fires for an integer. *)
Definition PRNGKey (seed : Z) : ndarray Z :=
  let k1 := lax_convert_element_type uint32
              (Z.land (Z.shiftr seed 32) 4294967295) in
  let k2 := lax_convert_element_type uint32 (Z.land seed 4294967295) in
  mkarray uint32 [2%N] [k1; k2].

Definition _is_prng_key (key : pyval) : bool :=
  match key with
  | PyArray a => shape_eqb (shape a) [2%N] && dtype_eqb (dtype_of a) uint32
  | PyObject => false
  end.

(** ** The hash *)

Definition _make_rotate_left (dt : dtype) : M (Z -> Z -> Z) :=
  if negb (is_integer dt) then raise TypeError
  else
    let nbits := dtype_bits dt in
    ret (fun x d =>
           lax_or (lax_shift_left dt x d)
                  (lax_shift_right_logical dt x (lax_sub dt nbits d))).

Definition apply_round (rotate_left : Z -> Z -> Z)
  (v : list Z * list Z) (rot : Z) : list Z * list Z :=
  let v0 := zip_with (lax_add uint32) (fst v) (snd v) in
  let v1 := map (fun x => rotate_left x rot) (snd v) in
  (v0, zip_with lax_xor v0 v1).

Definition rotations : list Z := [13; 15; 26; 6; 17; 29; 16; 24].

(** [x + k] for an array [x] and a scalar [k] of dtype uint32 *)
Definition add_scalar (x : list Z) (k : Z) : list Z :=
  map (fun a => lax_add uint32 a k) x.

(** The body of [threefry_2x32] between the split of the counter and the
    concatenation of the two halves. *)
Definition threefry_rounds (rotate_left : Z -> Z -> Z) (key1 key2 : Z)
  (x : list Z * list Z) : list Z * list Z :=
  let ks0 := key1 in
  let ks1 := key2 in
  let ks2 := lax_xor (lax_xor key1 key2) 466688986 in
  let x := (add_scalar (fst x) ks0, add_scalar (snd x) ks1) in
  let x := fold_left (apply_round rotate_left) (firstn 4 rotations) x in
  let x := (add_scalar (fst x) ks1, add_scalar (add_scalar (snd x) ks2) 1) in
  let x := fold_left (apply_round rotate_left) (skipn 4 rotations) x in
  let x := (add_scalar (fst x) ks2, add_scalar (add_scalar (snd x) ks0) 2) in
  let x := fold_left (apply_round rotate_left) (firstn 4 rotations) x in
  let x := (add_scalar (fst x) ks0, add_scalar (add_scalar (snd x) ks1) 3) in
  let x := fold_left (apply_round rotate_left) (skipn 4 rotations) x in
  let x := (add_scalar (fst x) ks1, add_scalar (add_scalar (snd x) ks2) 4) in
  let x := fold_left (apply_round rotate_left) (firstn 4 rotations) x in
  (add_scalar (fst x) ks2, add_scalar (add_scalar (snd x) ks0) 5).

(** [threefry_2x32(keypair, count)]: [keypair] unpacks into two scalars. *)
Definition threefry_2x32 (keypair count : ndarray Z) : M (ndarray Z) :=
  match data keypair with
  | [key1; key2] =>
      if negb (dtype_eqb (dtype_of keypair) uint32
               && dtype_eqb (dtype_of count) uint32)
      then raise TypeError
      else
        rotate_left <- _make_rotate_left (dtype_of count) ;;
        tick_hash ;;;
        let odd_size := N.odd (size count) in
        x <- np_split2 (if odd_size then data count ++ [0] else data count) ;;
        let x := threefry_rounds rotate_left key1 key2 x in
        let out := fst x ++ snd x in
        lax_reshape
          (mkarray uint32 [N.of_nat (length out)]
             (if odd_size then removelast out else out))
          (shape count)
  | _ => raise ValueError
  end.

(** ** Splitting and folding in *)

(** [_split(key, num)]; [lax.tie_in] returns its second argument. *)
Definition _split (key : ndarray Z) (num : N) : M (ndarray Z) :=
  counts <- lax_iota uint32 (Z.of_N num * 2) ;;
  h <- threefry_2x32 key counts ;;
  lax_reshape h [num; 2%N].

Definition split (key : ndarray Z) (num : N) : M (ndarray Z) := _split key num.

Definition _fold_in (key : ndarray Z) (d : Z) : M (ndarray Z) :=
  let key2 := PRNGKey d in
  threefry_2x32 key key2.

Definition fold_in (key : ndarray Z) (d : Z) : M (ndarray Z) := _fold_in key d.

(** The rows of an [(n, 2)] array of keys. *)
Fixpoint key_rows (l : list Z) : list (ndarray Z) :=
  match l with
  | a :: b :: r => mkarray uint32 [2%N] [a; b] :: key_rows r
  | _ => []
  end.

(** [k1, k2 = split(key)] *)
Definition split_pair (key : ndarray Z) : M (ndarray Z * ndarray Z) :=
  ks <- split key 2 ;;
  match key_rows (data ks) with
  | [k1; k2] => ret (k1, k2)
  | _ => raise ValueError
  end.

(** [k1, k2, k3 = split(key, 3)] *)
Definition split_triple (key : ndarray Z)
  : M (ndarray Z * ndarray Z * ndarray Z) :=
  ks <- split key 3 ;;
  match key_rows (data ks) with
  | [k1; k2; k3] => ret (k1, k2, k3)
  | _ => raise ValueError
  end.

(** ** Bit extraction *)

(** [onp.prod(shape)]: numpy multiplies in int64. *)
Definition onp_prod (s : list N) : Z := wrap int64 (Z.of_N (shape_size s)).

(** The two halves of the hash output combined into 64-bit words. *)
Definition combine_halves (hi lo : Z) : Z :=
  lax_or (lax_shift_left uint64 (lax_convert_element_type uint64 hi) 32)
         (lax_convert_element_type uint64 lo).

Definition _random_bits (key : pyval) (bit_width : Z) (shp : list N)
  : M (ndarray Z) :=
  if negb (_is_prng_key key) then raise TypeError
  else if negb ((bit_width =? 32) || (bit_width =? 64)) then raise TypeError
  else
    let max_count := wrap int64 ((bit_width / 32) * onp_prod shp) in
    if max_count >=? uint32_max then raise TypeError
    else
      match key with
      | PyObject => raise TypeError
      | PyArray k =>
          counts <- lax_iota uint32 max_count ;;
          bits <- threefry_2x32 k counts ;;
          bits <- (if bit_width =? 64
                   then
                     halves <- np_split2 (data bits) ;;
                     ret (mkarray uint64 [N.of_nat (length (fst halves))]
                            (zip_with combine_halves
                               (fst halves) (snd halves)))
                   else ret bits) ;;
          lax_reshape bits shp
      end.

(** ** Floating point as an interface

    The samplers are written over a type of floats with the operations
    they use; each operation takes the dtype in which it rounds. *)
Class FloatOps (F : Type) : Type := {
  (** a Python float literal, which is a binary64 number *)
  f_literal : Q -> F;
  (** [lax.convert_element_type(x, dtype)] *)
  f_convert : dtype -> F -> F;
  (** [lax.bitcast_convert_type(w, dtype)] of an unsigned word *)
  f_bitcast : dtype -> Z -> F;
  f_add : dtype -> F -> F -> F;
  f_sub : dtype -> F -> F -> F;
  f_mul : dtype -> F -> F -> F;
  f_max : F -> F -> F
}.

(** The transcendental operations and comparisons of the gamma sampler. *)
Class FloatMath (F : Type) `{FloatOps F} : Type := {
  f_div : dtype -> F -> F -> F;
  f_pow : dtype -> F -> F -> F;
  f_log : dtype -> F -> F;
  f_erf_inv : dtype -> F -> F;
  (** [onp.array(onp.sqrt(2), dtype)] *)
  f_sqrt2 : dtype -> F;
  (** [onp.nextafter(onp.array(-1., dtype), 0., dtype=dtype)] *)
  f_above_minus_one : dtype -> F;
  (** [onp.finfo(dtype).tiny] *)
  f_tiny : dtype -> F;
  f_ge : F -> F -> bool;
  f_le : F -> F -> bool;
  f_eq : F -> F -> bool
}.

(** [xla_bridge.canonicalize_dtype]: without 64-bit mode the 64-bit types
    become their 32-bit counterparts. *)
Definition canonicalize_dtype (x64 : bool) (dt : dtype) : dtype :=
  if x64 then dt
  else match dt with
       | float64 => float32
       | int64 => int32
       | uint64 => uint32
       | _ => dt
       end.

(** [_check_shape]: a tuple of naturals is a concrete tuple of integers. *)
Definition _check_shape (shp : list N) : M unit := ret tt.

(** The exponent bias of a binary float format. *)
Definition float_bias (dt : dtype) : Z :=
  2 ^ (dtype_bits dt - finfo_nmant dt - 2) - 1.

(** [onp.array(1., dtype).view(unsigned)]: the bit pattern of 1.0. *)
Definition view_one (dt : dtype) : Z :=
  Z.shiftl (float_bias dt) (finfo_nmant dt).

(** ** The uniform sampler *)

Definition uniform_float_bits (dt : dtype) (udt : dtype) (raw : Z) : Z :=
  lax_or (lax_shift_right_logical udt raw (dtype_bits dt - finfo_nmant dt))
         (view_one dt).

Definition _uniform {F : Type} `{FloatOps F}
  (key : pyval) (shp : list N) (dt : dtype) (minval maxval : F)
  : M (ndarray F) :=
  _check_shape shp ;;;
  if negb (is_floating dt) then raise TypeError
  else
    let minval := f_convert dt minval in
    let maxval := f_convert dt maxval in
    let nbits := dtype_bits dt in
    if negb ((nbits =? 32) || (nbits =? 64)) then raise TypeError
    else
      bits <- _random_bits key nbits shp ;;
      let float_bits :=
        map (uniform_float_bits dt (dtype_of bits)) (data bits) in
      let floats :=
        map (fun w => f_sub dt (f_bitcast dt w) (f_convert dt (f_literal 1)))
            float_bits in
      scaled <- lax_reshape
                  (mkarray dt (shape bits)
                     (map (fun v => f_add dt
                                      (f_mul dt v (f_sub dt maxval minval))
                                      minval)
                          floats))
                  shp ;;
      ret (mkarray dt shp (map (f_max minval) (data scaled))).

Definition uniform {F : Type} `{FloatOps F} (x64 : bool)
  (key : pyval) (shp : list N) (dt : dtype) (minval maxval : F)
  : M (ndarray F) :=
  _uniform key shp (canonicalize_dtype x64 dt) minval maxval.

(** ** Floats as rationals

    A finite float is the rational it denotes; [rnd dt] rounds a rational
    into the format [dt]. *)

(** The value of a bit pattern of a binary format: sign, biased exponent
    and mantissa (subnormal when the exponent field is zero). *)
Definition decode_float (dt : dtype) (w : Z) : Q :=
  let nmant := finfo_nmant dt in
  let nexp := dtype_bits dt - nmant - 1 in
  let m := w mod 2 ^ nmant in
  let e := (w / 2 ^ nmant) mod 2 ^ nexp in
  let s := (w / 2 ^ (nmant + nexp)) mod 2 in
  let mag :=
    if e =? 0
    then (inject_Z m * Qpower 2 (1 - float_bias dt - nmant))%Q
    else (inject_Z (2 ^ nmant + m) * Qpower 2 (e - float_bias dt - nmant))%Q in
  if s =? 0 then mag else (- mag)%Q.

Definition QFloat (rnd : dtype -> Q -> Q) : FloatOps Q := {|
  f_literal := rnd float64;
  f_convert := rnd;
  f_bitcast := decode_float;
  f_add := fun dt x y => rnd dt (x + y)%Q;
  f_sub := fun dt x y => rnd dt (x - y)%Q;
  f_mul := fun dt x y => rnd dt (x * y)%Q;
  f_max := Qmax
|}.

(** The rationals a format holds exactly: an integer mantissa below
    [2 ^ (nmant + 1)] scaled by a power of two no smaller than that of
    the least subnormal. *)
Definition representable (dt : dtype) (x : Q) : Prop :=
  exists m e : Z,
    Z.abs m < 2 ^ (finfo_nmant dt + 1)
    /\ 1 - float_bias dt - finfo_nmant dt <= e <= float_bias dt - finfo_nmant dt
    /\ (x == inject_Z m * Qpower 2 e)%Q.

(** ** The bounded integer sampler *)

Definition unsigned_of_bits (nbits : Z) : dtype :=
  if nbits =? 32 then uint32 else uint64.

(** [maxval = lax.max(lax.add(minval, 1), maxval)] on values of [dt] *)
Definition randint_maxval (dt : dtype) (minval maxval : Z) : Z :=
  lax_max (lax_add dt minval 1) maxval.

(** [span = lax.convert_element_type(maxval - minval, unsigned_dtype)] *)
Definition randint_span (dt : dtype) (minval maxval : Z) : Z :=
  lax_convert_element_type (unsigned_of_bits (dtype_bits dt))
    (lax_sub dt maxval minval).

(** The multiplier, meant to be [2 ** nbits % span]. *)
Definition randint_multiplier (nbits span : Z) : Z :=
  let unsigned_dtype := unsigned_of_bits nbits in
  let multiplier :=
    lax_rem (lax_convert_element_type unsigned_dtype (2 ^ 16)) span in
  let multiplier :=
    lax_rem (lax_mul unsigned_dtype multiplier multiplier) span in
  if nbits =? 64
  then lax_rem (lax_mul unsigned_dtype multiplier multiplier) span
  else multiplier.

Definition randint_offset (nbits span multiplier hi lo : Z) : Z :=
  let unsigned_dtype := unsigned_of_bits nbits in
  lax_rem
    (lax_add unsigned_dtype
       (lax_mul unsigned_dtype (lax_rem hi span) multiplier)
       (lax_rem lo span))
    span.

Definition _randint (key : ndarray Z) (shp : list N) (minval maxval : Z)
  (dt : dtype) : M (ndarray Z) :=
  _check_shape shp ;;;
  if negb (is_integer dt) then raise TypeError
  else
    let minval := lax_convert_element_type dt minval in
    let maxval := lax_convert_element_type dt maxval in
    let nbits := dtype_bits dt in
    if negb ((nbits =? 32) || (nbits =? 64)) then raise TypeError
    else
      let maxval := randint_maxval dt minval maxval in
      ks <- split_pair key ;;
      higher_bits <- _random_bits (PyArray (fst ks)) nbits shp ;;
      lower_bits <- _random_bits (PyArray (snd ks)) nbits shp ;;
      let span := randint_span dt minval maxval in
      let multiplier := randint_multiplier nbits span in
      let random_offset :=
        zip_with (randint_offset nbits span multiplier)
          (data higher_bits) (data lower_bits) in
      ret (mkarray dt shp
             (map (fun o => lax_add dt minval (lax_convert_element_type dt o))
                  random_offset)).

(** ** Shuffling by repeated keyed sorts *)

Definition insert_by_key {A : Type} (kv : Z * A)
  : list (Z * A) -> list (Z * A) :=
  fix ins (l : list (Z * A)) : list (Z * A) :=
    match l with
    | [] => [kv]
    | h :: t => if fst kv <=? fst h then kv :: l else h :: ins t
    end.

(** Insertion sort from the right: an element goes before the later
    elements with the same key, so equal keys keep their order. *)
Definition stable_sort {A : Type} (l : list (Z * A)) : list (Z * A) :=
  fold_right insert_by_key [] l.

(** Cut a list into consecutive pieces of [k] elements. *)
Fixpoint chunks {A : Type} (fuel k : nat) (l : list A) : list (list A) :=
  match fuel with
  | O => []
  | S f =>
      match l with
      | [] => []
      | _ => firstn k l :: chunks f k (skipn k l)
      end
  end.

(** The columns of a list of rows of width [w]. *)
Definition transpose {A : Type} (w : nat) (rows : list (list A))
  : list (list A) :=
  fold_right (zip_with cons) (repeat [] w) rows.

(** Sort every lane along an axis of length [n] with [inner] elements
    between neighbours of a lane. *)
Definition sort_block {A : Type} (n inner : nat) (block : list (Z * A))
  : list (Z * A) :=
  let rows := chunks (length block) inner block in
  let lanes := transpose inner rows in
  concat (transpose n (map stable_sort lanes)).

Definition sort_lanes {A : Type} (n inner : nat) (l : list (Z * A))
  : list (Z * A) :=
  concat (map (sort_block n inner) (chunks (length l) (n * inner) l)).

(** Modelled from the spec: [lax.sort_key_val(keys, values, dimension)],
    the stable sort-by-key primitive of the array library; every lane
    along the dimension is sorted by its own keys. *)
Definition lax_sort_key_val {A : Type} (keys : ndarray Z)
  (values : ndarray A) (axis : nat) : M (ndarray Z * ndarray A) :=
  if negb (shape_eqb (shape keys) (shape values)) then raise TypeError
  else
    match nth_error (shape values) axis with
    | None => raise TypeError
    | Some n =>
        let inner := shape_size (skipn (S axis) (shape values)) in
        let sorted := sort_lanes (N.to_nat n) (N.to_nat inner)
                        (combine (data keys) (data values)) in
        ret (mkarray (dtype_of keys) (shape keys) (map fst sorted),
             mkarray (dtype_of values) (shape values) (map snd sorted))
    end.

Fixpoint least_power (fuel : nat) (r : nat) (n3 p : Z) : nat :=
  match fuel with
  | O => r
  | S f => if n3 <=? p then r else least_power f (S r) n3 (p * uint32_max)
  end.

(** [int(onp.ceil(exponent * onp.log(n) / onp.log(uint32max)))] with
    [exponent = 3]: the least [r] with [n ^ 3 <= uint32max ^ r].  For
    [n = 0] the logarithm is minus infinity, which [int] refuses. *)
Definition num_rounds (n : N) : M nat :=
  if N.eqb n 0 then raise OverflowError
  else ret (least_power (S (Z.to_nat (Z.log2 (Z.of_N n ^ 3)))) 0
              (Z.of_N n ^ 3) 1).

Fixpoint shuffle_rounds {A : Type} (rounds : nat) (key : ndarray Z)
  (x : ndarray A) (axis : nat) : M (ndarray A) :=
  match rounds with
  | O => ret x
  | S r =>
      ks <- split_pair key ;;
      sort_keys <- _random_bits (PyArray (snd ks)) 32 (shape x) ;;
      kv <- lax_sort_key_val sort_keys x axis ;;
      shuffle_rounds r (fst ks) (snd kv) axis
  end.

Definition _shuffle {A : Type} (key : ndarray Z) (x : ndarray A)
  (axis : nat) : M (ndarray A) :=
  rounds <- num_rounds (size x) ;;
  shuffle_rounds rounds key x axis.

Definition shuffle {A : Type} (key : ndarray Z) (x : ndarray A)
  (axis : nat) : M (ndarray A) := _shuffle key x axis.

(** ** Normal and gamma samplers *)

(** The only element of a scalar array. *)
Definition item {A : Type} (a : ndarray A) : M A :=
  match data a with
  | [v] => ret v
  | _ => raise ValueError
  end.

(** [_constant_like(x, c)] for a Python float [c] and [x] of dtype [dt] *)
Definition _constant_like {F : Type} `{FloatOps F} (dt : dtype) (c : Q) : F :=
  f_convert dt (f_literal c).

Definition _normal {F : Type} `{FloatMath F} (x64 : bool)
  (key : pyval) (shp : list N) (dt : dtype) : M (ndarray F) :=
  _check_shape shp ;;;
  let lo := f_above_minus_one dt in
  let hi := f_convert dt (f_literal 1) in
  u <- uniform x64 key shp dt lo hi ;;
  ret (mkarray (dtype_of u) (shape u)
         (map (fun v => f_mul dt (f_sqrt2 dt) (f_erf_inv dt v)) (data u))).

Definition normal {F : Type} `{FloatMath F} (x64 : bool)
  (key : pyval) (shp : list N) (dt : dtype) : M (ndarray F) :=
  _normal x64 key shp (canonicalize_dtype x64 dt).

(** [lax.while_loop] with a bound on the number of iterations; [None]
    when the bound is reached with the condition still true. *)
Fixpoint while_loop {S : Type} (fuel : nat) (cond_fn : S -> bool)
  (body_fn : S -> M S) (s : S) : M (option S) :=
  if cond_fn s
  then match fuel with
       | O => ret None
       | Datatypes.S f => s' <- body_fn s ;; while_loop f cond_fn body_fn s'
       end
  else ret (Some s).

Section GammaOne.
Context {F : Type} `{FloatMath F}.
Variable x64 : bool.
Variable dt : dtype.

Definition gamma_state : Type := (ndarray Z * F * F * F)%type.

Definition _cond_fn (d : F) (kXVU : gamma_state) : bool :=
  let '(_, X, V, U) := kXVU in
  let zero := _constant_like dt 0 in
  let one := _constant_like dt 1 in
  let one_over_two := _constant_like dt (1 # 2) in
  let squeeze_const := _constant_like dt (331 # 10000) in
  let cond :=
    f_ge U (f_sub dt one (f_mul dt squeeze_const (f_mul dt X X)))
    && f_ge (f_log dt U)
            (f_add dt (f_mul dt X one_over_two)
               (f_mul dt d (f_add dt (f_sub dt one V) (f_log dt V)))) in
  f_le V zero || cond.

Definition _body_fn (c : F) (kXVU : gamma_state) : M gamma_state :=
  let '(key, _, _, _) := kXVU in
  let one := _constant_like dt 1 in
  ks <- split_triple key ;;
  let '(key, x_key, U_key) := ks in
  xa <- normal x64 (PyArray x_key) [] dt ;;
  x <- item xa ;;
  let v := f_add dt one (f_mul dt x c) in
  let X := f_mul dt x x in
  let V := f_mul dt (f_mul dt v v) v in
  Ua <- uniform x64 (PyArray U_key) [] dt (f_literal 0) (f_literal 1) ;;
  U <- item Ua ;;
  ret (key, X, V, U).

(** The initial state of the loop. *)
Definition gamma_init (key : ndarray Z) : gamma_state :=
  (key, _constant_like dt 0, _constant_like dt (-1), _constant_like dt 0).

(** The value returned for a final loop state. *)
Definition gamma_result (d boost : F) (kXVU : gamma_state) : F :=
  let '(_, _, V, _) := kXVU in
  let zero := _constant_like dt 0 in
  let z := f_mul dt (f_mul dt d V) boost in
  if f_eq z zero then f_tiny dt else z.

Definition _gamma_one (fuel : nat) (key : ndarray Z) (alpha : F)
  : M (option F) :=
  let one := _constant_like dt 1 in
  let one_over_two := _constant_like dt (1 # 2) in
  let one_over_three := _constant_like dt (1 # 3) in
  ks <- split_pair key ;;
  let '(key, subkey) := ks in
  ua <- uniform x64 (PyArray subkey) [] dt (f_literal 0) (f_literal 1) ;;
  u <- item ua ;;
  let boost :=
    if f_ge alpha one then one else f_pow dt u (f_div dt one alpha) in
  let alpha := if f_ge alpha one then alpha else f_add dt alpha one in
  let d := f_sub dt alpha one_over_three in
  let c := f_div dt one_over_three (f_pow dt d one_over_two) in
  final <- while_loop fuel (_cond_fn d) (_body_fn c) (gamma_init key) ;;
  ret (option_map (gamma_result d boost) final).

(** The shape parameter and the constants the loop runs with. *)
Definition gamma_d (alpha : F) : F :=
  let one := _constant_like dt 1 in
  let alpha := if f_ge alpha one then alpha else f_add dt alpha one in
  f_sub dt alpha (_constant_like dt (1 # 3)).

Definition gamma_c (alpha : F) : F :=
  f_div dt (_constant_like dt (1 # 3))
    (f_pow dt (gamma_d alpha) (_constant_like dt (1 # 2))).

Definition gamma_boost (u alpha : F) : F :=
  let one := _constant_like dt 1 in
  if f_ge alpha one then one else f_pow dt u (f_div dt one alpha).
End GammaOne.

(** The state after [n] runs of the loop body. *)
Fixpoint iterate_body {S : Type} (body_fn : S -> M S) (n : nat) (s : S)
  : M S :=
  match n with
  | O => ret s
  | Datatypes.S k => s' <- body_fn s ;; iterate_body body_fn k s'
  end.

(** A rational instance of the float interface that computes: exact
    arithmetic, and rational stand-ins for the transcendental functions.
    It serves to run the gamma sampler on concrete inputs. *)
Definition exact_rnd (dt : dtype) (q : Q) : Q := Qred q.

Definition RunFloat : FloatOps Q := QFloat exact_rnd.

Definition RunFloatMath : @FloatMath Q RunFloat := {|
  f_div := fun _ x y => Qred (x / y);
  f_pow := fun _ x _ => x;
  f_log := fun _ x => Qred (x - 1);
  f_erf_inv := fun _ x => x;
  f_sqrt2 := fun _ => (1414 # 1000)%Q;
  f_above_minus_one := fun dt =>
    Qred (- (1 - Qpower 2 (- (finfo_nmant dt + 1))))%Q;
  f_tiny := fun dt => Qpower 2 (1 - float_bias dt);
  f_ge := fun x y => Qle_bool y x;
  f_le := fun x y => Qle_bool x y;
  f_eq := fun x y => Qeq_bool x y
|}.

(** ** The hash as section 4.1 of the specification words it

    One block of two words at a time: key injection, then five groups
    of four mixing rounds, each group followed by the injection of the
    next round keys. *)
Module ThreefrySpec.

Definition rotate_left (x d : Z) : Z :=
  Z.lor (Z.shiftl x d mod 2 ^ 32) (Z.shiftr x (32 - d)).

(** [x0 = x0 + x1 (mod 2^32); x1 = rotate_left(x1, r) XOR x0] *)
Definition mix (r : Z) (p : Z * Z) : Z * Z :=
  let x0 := (fst p + snd p) mod 2 ^ 32 in
  (x0, Z.lxor (rotate_left (snd p) r) x0).

Definition rotation_group (g : nat) : list Z :=
  if Nat.even g then [13; 15; 26; 6] else [17; 29; 16; 24].

(** [ks0 = k0], [ks1 = k1], [ks2 = k0 XOR k1 XOR 0x1BD11BDA], taken in
    round-robin order. *)
Definition round_key (k0 k1 : Z) (i : nat) : Z :=
  nth (i mod 3) [k0; k1; Z.lxor (Z.lxor k0 k1) 466688986] 0.

(** After group [g] (counted from 0): the next key into [x0], the one
    after it plus the counter [g + 1] into [x1]. *)
Definition inject (k0 k1 : Z) (g : nat) (p : Z * Z) : Z * Z :=
  ((fst p + round_key k0 k1 (g + 1)) mod 2 ^ 32,
   (snd p + (round_key k0 k1 (g + 2) + Z.of_nat (g + 1)) mod 2 ^ 32)
     mod 2 ^ 32).

Definition group (k0 k1 : Z) (p : Z * Z) (g : nat) : Z * Z :=
  inject k0 k1 g (fold_left (fun q r => mix r q) (rotation_group g) p).

Definition block (k0 k1 : Z) (c : Z * Z) : Z * Z :=
  fold_left (group k0 k1) (seq 0 5)
    ((fst c + round_key k0 k1 0) mod 2 ^ 32,
     (snd c + round_key k0 k1 1) mod 2 ^ 32).

(** The counter is split into two halves, padded with a zero word when
    its length is odd; the padding word is dropped from the output. *)
Definition hash (k0 k1 : Z) (counter : list Z) : list Z :=
  let n := length counter in
  let padded := if Nat.odd n then counter ++ [0] else counter in
  let h := Nat.div2 (length padded) in
  let blocks := map (block k0 k1)
                  (combine (firstn h padded) (skipn h padded)) in
  firstn n (map fst blocks ++ map snd blocks).

End ThreefrySpec.

(** ** Elementwise views of the vectorised hash *)

Definition unzip {A B : Type} (l : list (A * B)) : list A * list B :=
  (map fst l, map snd l).

Definition apply_round1 (rotate_left : Z -> Z -> Z) (p : Z * Z) (rot : Z)
  : Z * Z :=
  let v0 := lax_add uint32 (fst p) (snd p) in
  (v0, lax_xor v0 (rotate_left (snd p) rot)).

Definition inject1 (ka kb c : Z) (p : Z * Z) : Z * Z :=
  (lax_add uint32 (fst p) ka, lax_add uint32 (lax_add uint32 (snd p) kb) c).

Definition threefry_rounds1 (rotate_left : Z -> Z -> Z) (key1 key2 : Z)
  (p : Z * Z) : Z * Z :=
  let ks0 := key1 in
  let ks1 := key2 in
  let ks2 := lax_xor (lax_xor key1 key2) 466688986 in
  let p := (lax_add uint32 (fst p) ks0, lax_add uint32 (snd p) ks1) in
  let p := fold_left (apply_round1 rotate_left) (firstn 4 rotations) p in
  let p := inject1 ks1 ks2 1 p in
  let p := fold_left (apply_round1 rotate_left) (skipn 4 rotations) p in
  let p := inject1 ks2 ks0 2 p in
  let p := fold_left (apply_round1 rotate_left) (firstn 4 rotations) p in
  let p := inject1 ks0 ks1 3 p in
  let p := fold_left (apply_round1 rotate_left) (skipn 4 rotations) p in
  let p := inject1 ks1 ks2 4 p in
  let p := fold_left (apply_round1 rotate_left) (firstn 4 rotations) p in
  inject1 ks2 ks0 5 p.

(** The rotation [_make_rotate_left] returns for uint32. *)
Definition rotate_left32 (x d : Z) : Z :=
  lax_or (lax_shift_left uint32 x d)
         (lax_shift_right_logical uint32 x (lax_sub uint32 32 d)).

Definition in_u32 (x : Z) : Prop := 0 <= x < 2 ^ 32.

(** The input of the hash with the padding word of an odd-sized counter. *)
Definition padded_count (count : ndarray Z) : list Z :=
  if N.odd (size count) then data count ++ [0] else data count.

(** ** A key of well-formed shape and dtype *)

Definition key_of (k0 k1 : Z) : ndarray Z := mkarray uint32 [2%N] [k0; k1].

Definition zero_key : ndarray Z := key_of 0 0.

Definition in_pair (p : Z * Z) : Prop := in_u32 (fst p) /\ in_u32 (snd p).

(** Padding a counter to an even length with one zero word. *)
Definition pad_even (l : list Z) : list Z :=
  if Nat.odd (length l) then l ++ [0] else l.

Definition halves (l : list Z) : list Z * list Z :=
  (firstn (Nat.div2 (length l)) l, skipn (Nat.div2 (length l)) l).

(** The words [threefry_2x32] returns for a flat uint32 counter: the
    rounds on the halves of the padded counter, cut back to its length. *)
Definition hash_words (k0 k1 : Z) (l : list Z) : list Z :=
  let x := threefry_rounds rotate_left32 k0 k1 (halves (pad_even l)) in
  firstn (length l) (fst x ++ snd x).

(** ** Vocabulary of the statements *)

(** The uint32 counter stream [0 .. n-1]. *)
Definition counter_words (n : Z) : list Z :=
  map (fun i => wrap uint32 (Z.of_nat i)) (seq 0 (Z.to_nat n)).

(** An array of shape [(2,)] and dtype uint32. *)
Definition valid_key (key : pyval) : Prop :=
  exists a, key = PyArray a /\ shape a = [2%N] /\ dtype_of a = uint32.

(** [max_count = (bit_width / 32) * product(shape)], as an integer. *)
Definition max_count_of (bit_width : Z) (shp : list N) : Z :=
  (bit_width / 32) * Z.of_N (shape_size shp).

(** [high << 32 | low] *)
Definition pair_words (hi lo : Z) : Z := Z.lor (Z.shiftl hi 32) lo.

(** Pairing each word with the one that follows it. *)
Fixpoint pair_consecutive (l : list Z) : list Z :=
  match l with
  | hi :: lo :: r => pair_words hi lo :: pair_consecutive r
  | _ => []
  end.

(** The raw bits [_random_bits] builds from the hash output. *)
Definition bits_of_words (bit_width : Z) (words : list Z) : list Z :=
  if bit_width =? 64
  then zip_with pair_words (fst (halves words)) (snd (halves words))
  else words.

Definition bits_dtype (bit_width : Z) : dtype :=
  if bit_width =? 64 then uint64 else uint32.

(** ** Vocabulary of the uniform sampler *)

(** The mantissa [_uniform] gives a raw word: its high [nmant] bits. *)
Definition mantissa_of (dt : dtype) (raw : Z) : Z :=
  Z.shiftr raw (dtype_bits dt - finfo_nmant dt).

(** The value in [0, 1) built from a raw word. *)
Definition unit_value (dt : dtype) (raw : Z) : Q :=
  (inject_Z (mantissa_of dt raw) / inject_Z (2 ^ finfo_nmant dt))%Q.

(** Rounding leaves the numbers of the format unchanged. *)
Definition rounds_exactly (rnd : dtype -> Q -> Q) : Prop :=
  forall dt x, representable dt x -> (rnd dt x == x)%Q.

(** The element [_uniform] computes from a raw word. *)
Definition uniform_element {F : Type} `{FloatOps F} (dt udt : dtype)
  (minval maxval : F) (raw : Z) : F :=
  let mn := f_convert dt minval in
  let mx := f_convert dt maxval in
  let one := f_convert dt (f_literal 1) in
  let v := f_sub dt (f_bitcast dt (uniform_float_bits dt udt raw)) one in
  f_max mn (f_add dt (f_mul dt v (f_sub dt mx mn)) mn).

(** The float bits as the specification words them: the low mantissa
    bits of the raw word, kept by masking. *)
Module UniformAsStated.

Definition float_bits (dt : dtype) (raw : Z) : Z :=
  Z.lor (Z.land raw (2 ^ finfo_nmant dt - 1)) (view_one dt).

Definition unit_value (dt : dtype) (raw : Z) : Q :=
  (decode_float dt (float_bits dt raw) - 1)%Q.

End UniformAsStated.

(** ** The shuffle with one tag per position along the axis

    The specification words the random tags as shaped like the shuffled
    axis: one tag per position, shared by every lane, so that whole
    slices move together. *)
Module ShuffleAsStated.

Definition broadcast_tags (shp : list N) (axis : nat) (tags : list Z)
  : list Z :=
  let outer := N.to_nat (shape_size (firstn axis shp)) in
  let inner := N.to_nat (shape_size (skipn (S axis) shp)) in
  concat (repeat (flat_map (fun t => repeat t inner) tags) outer).

Fixpoint shuffle_rounds {A : Type} (rounds : nat) (key : ndarray Z)
  (x : ndarray A) (axis : nat) : M (ndarray A) :=
  match rounds with
  | O => ret x
  | S r =>
      ks <- split_pair key ;;
      tags <- _random_bits (PyArray (snd ks)) 32 [nth axis (shape x) 0%N] ;;
      kv <- lax_sort_key_val
              (mkarray uint32 (shape x)
                 (broadcast_tags (shape x) axis (data tags)))
              x axis ;;
      shuffle_rounds r (fst ks) (snd kv) axis
  end.

Definition _shuffle {A : Type} (key : ndarray Z) (x : ndarray A)
  (axis : nat) : M (ndarray A) :=
  rounds <- num_rounds (size x) ;;
  shuffle_rounds rounds key x axis.

End ShuffleAsStated.

(** The elements with a given sort key, in their order. *)
Definition with_key {A : Type} (k : Z) (l : list (Z * A)) : list (Z * A) :=
  filter (fun kv => fst kv =? k) l.

Definition key_le {A : Type} (a b : Z * A) : Prop := fst a <= fst b.

(** The lanes of a flat array along an axis of length [n] with [inner]
    elements between neighbours of a lane. *)
Definition block_lanes {A : Type} (inner : nat) (block : list A)
  : list (list A) :=
  transpose inner (chunks (length block) inner block).

Definition lanes {A : Type} (n inner : nat) (l : list A) : list (list A) :=
  concat (map (block_lanes inner) (chunks (length l) (n * inner) l)).

Definition lanes_along {A : Type} (axis : nat) (x : ndarray A)
  : list (list A) :=
  lanes (N.to_nat (nth axis (shape x) 0%N))
        (N.to_nat (shape_size (skipn (S axis) (shape x))))
        (data x).

(** A lane sorted by its tags: the values in the order of the stable
    sort of the (tag, value) pairs. *)
Definition sort_lane {A : Type} (tags : list Z) (lane : list A) : list A :=
  map snd (stable_sort (combine tags lane)).

(** [shuffled axis r key x out]: [out] comes from [x] by [r] rounds.  A
    round splits the key, draws under the subkey one 32-bit tag per
    element of the array, and sorts every lane along the axis by the
    tags at the positions of that lane; the next round runs under the
    other key of the split. *)
Inductive shuffled {A : Type} (axis : nat)
  : nat -> ndarray Z -> ndarray A -> ndarray A -> Prop :=
| shuffled_done (key : ndarray Z) (x : ndarray A) : shuffled axis 0 key x x
| shuffled_round (r : nat) (key key' subkey tags : ndarray Z)
    (x y out : ndarray A) :
    split_pair key = (1%nat, Ok (key', subkey)) ->
    _random_bits (PyArray subkey) 32 (shape x) = (1%nat, Ok tags) ->
    shape tags = shape x -> well_formed tags ->
    dtype_of y = dtype_of x -> shape y = shape x -> well_formed y ->
    lanes_along axis y
    = zip_with sort_lane (lanes_along axis tags) (lanes_along axis x) ->
    shuffled axis r key' y out ->
    shuffled axis (S r) key x out.

(** The flat array with the given lanes: the inverse of [lanes]. *)
Definition unlanes {A : Type} (n inner : nat) (ll : list (list A)) : list A :=
  concat (map (fun g => concat (transpose n g))
            (chunks (length ll) inner ll)).

(** ** Samplers built on the uniform sampler *)

(** Negation and the strict comparison [lax.lt] of floats. *)
Class FloatSign (F : Type) : Type := {
  f_neg : F -> F;
  f_lt : F -> F -> bool
}.

(** [_bernoulli(key, p, shape)] for a scalar [p] of dtype [p_dt]: [p] is
    broadcast to [shape], so every uniform draw is compared with it.
    The boolean array is given by its shape and its elements. *)
Definition _bernoulli {F : Type} `{FloatOps F} `{FloatSign F} (x64 : bool)
  (key : pyval) (p_dt : dtype) (p : F) (shp : list N)
  : M (list N * list bool) :=
  _check_shape shp ;;;
  u <- uniform x64 key shp p_dt (f_literal 0) (f_literal 1) ;;
  ret (shape u, map (fun v => f_lt v p) (data u)).

Definition bernoulli {F : Type} `{FloatOps F} `{FloatSign F} (x64 : bool)
  (key : pyval) (p_dt : dtype) (p : F) (shp : list N)
  : M (list N * list bool) :=
  let dt := canonicalize_dtype x64 p_dt in
  if negb (is_floating dt) then raise TypeError
  else _bernoulli x64 key dt (f_convert dt p) shp.

(** [-log(1 - u)] on uniform draws [u]. *)
Definition _exponential {F : Type} `{FloatMath F} `{FloatSign F} (x64 : bool)
  (key : pyval) (shp : list N) (dt : dtype) : M (ndarray F) :=
  _check_shape shp ;;;
  u <- uniform x64 key shp dt (f_literal 0) (f_literal 1) ;;
  let udt := dtype_of u in
  ret (mkarray udt (shape u)
         (map (fun v => f_neg (f_log udt (f_sub udt (_constant_like udt 1) v)))
              (data u))).

Definition exponential {F : Type} `{FloatMath F} `{FloatSign F} (x64 : bool)
  (key : pyval) (shp : list N) (dt : dtype) : M (ndarray F) :=
  _exponential x64 key shp (canonicalize_dtype x64 dt).

(** [-log(-log(u))] on uniform draws [u]. *)
Definition _gumbel {F : Type} `{FloatMath F} `{FloatSign F} (x64 : bool)
  (key : pyval) (shp : list N) (dt : dtype) : M (ndarray F) :=
  _check_shape shp ;;;
  u <- uniform x64 key shp dt (f_literal 0) (f_literal 1) ;;
  let udt := dtype_of u in
  ret (mkarray udt (shape u)
         (map (fun v => f_neg (f_log udt (f_neg (f_log udt v)))) (data u))).

Definition gumbel {F : Type} `{FloatMath F} `{FloatSign F} (x64 : bool)
  (key : pyval) (shp : list N) (dt : dtype) : M (ndarray F) :=
  _gumbel x64 key shp (canonicalize_dtype x64 dt).

(** Negation and comparison on the rationals. *)
Definition QSign : FloatSign Q := {|
  f_neg := Qopp;
  f_lt := fun x y => negb (Qle_bool y x)
|}.

(** The raw words one call draws for a float dtype. *)
Definition raw_words (k0 k1 : Z) (dt : dtype) (shp : list N) : list Z :=
  bits_of_words (dtype_bits dt)
    (hash_words k0 k1 (counter_words (max_count_of (dtype_bits dt) shp))).

(** The number of sorting rounds as a table of array sizes. *)
Definition rounds_table (n : N) : nat :=
  if (n =? 1)%N then 0%nat
  else if (n <=? 1625)%N then 1%nat
  else if (n <=? 2642245)%N then 2%nat
  else 3%nat.

(** Rounding keeps the order of the numbers. *)
Definition rounds_monotonically (rnd : dtype -> Q -> Q) : Prop :=
  forall dt x y, (x <= y)%Q -> (rnd dt x <= rnd dt y)%Q.

(** [nextafter(-1, 0)]: the float next to -1 on the side of 0. *)
Definition above_minus_one (dt : dtype) : Q :=
  (- (1 - Qpower 2 (- (finfo_nmant dt + 1))))%Q.

(** The largest value [_uniform] builds in [0, 1). *)
Definition below_one (dt : dtype) : Q :=
  (1 - Qpower 2 (- finfo_nmant dt))%Q.

(** * Properties *)

(** ** The monad *)

Lemma bind_ret {A B : Type} (a : A) (f : A -> M B) : bind (ret a) f = f a.
Proof. unfold bind, ret. destruct (f a) as [k r]. reflexivity. Qed.

Lemma bind_raise {A B : Type} (e : exn) (f : A -> M B) :
  bind (raise e) f = raise e.
Proof. reflexivity. Qed.

Lemma bind_ok {A B : Type} (n : nat) (a : A) (f : A -> M B) :
  bind (n, Ok a) f = ((n + hashes (f a))%nat, outcome (f a)).
Proof. unfold bind, hashes, outcome. destruct (f a). reflexivity. Qed.

Lemma outcome_bind_ok {A B : Type} (m : M A) (f : A -> M B) (b : B) :
  outcome (bind m f) = Ok b ->
  exists a, outcome m = Ok a /\ outcome (f a) = Ok b.
Proof.
  destruct m as [n [a | e]]; unfold bind, outcome; simpl.
  - destruct (f a) as [k r] eqn:E. simpl. intros ->. exists a.
    rewrite E. auto.
  - discriminate.
Qed.

(** ** Known-answer vectors of Threefry-2x32 with 20 rounds *)

Example threefry_kat_zero :
  outcome (threefry_2x32 (key_of 0 0) (mkarray uint32 [2%N] [0; 0]))
  = Ok (mkarray uint32 [2%N] [1797259609; 2579123966]).
Proof. vm_compute. reflexivity. Qed.

Example threefry_kat_ones :
  outcome (threefry_2x32 (key_of 4294967295 4294967295)
             (mkarray uint32 [2%N] [4294967295; 4294967295]))
  = Ok (mkarray uint32 [2%N] [481924860; 3137350631]).
Proof. vm_compute. reflexivity. Qed.

Example threefry_kat_pi :
  outcome (threefry_2x32 (key_of 320440878 57701188)
             (mkarray uint32 [2%N] [608135816; 2242054355]))
  = Ok (mkarray uint32 [2%N] [3297917596; 1212020640]).
Proof. vm_compute. reflexivity. Qed.

(** ** Lists and words *)

Lemma zip_with_map {A B C D : Type} (f : B -> C -> D) (g : A -> B)
  (h : A -> C) (l : list A) :
  zip_with f (map g l) (map h l) = map (fun a => f (g a) (h a)) l.
Proof.
  unfold zip_with. induction l as [| a l IH]; simpl; [reflexivity |].
  now rewrite IH.
Qed.

Lemma zip_with_length {A B C : Type} (f : A -> B -> C) xs ys :
  length (zip_with f xs ys) = Nat.min (length xs) (length ys).
Proof. unfold zip_with. now rewrite length_map, length_combine. Qed.

Lemma unzip_combine {A B : Type} (xs : list A) (ys : list B) :
  length xs = length ys -> unzip (combine xs ys) = (xs, ys).
Proof.
  unfold unzip. revert ys.
  induction xs as [| x xs IH]; intros [| y ys] Hl; simpl in *;
    try discriminate; [reflexivity |].
  injection Hl as Hl. specialize (IH ys Hl).
  injection IH as -> ->. reflexivity.
Qed.

Lemma wrap_uint32 (x : Z) : wrap uint32 x = x mod 2 ^ 32.
Proof. reflexivity. Qed.

Lemma in_u32_mod (x : Z) : in_u32 (x mod 2 ^ 32).
Proof. unfold in_u32. apply Z.mod_pos_bound. reflexivity. Qed.

Lemma log2_below (a n : Z) : 0 <= n -> 0 <= a < 2 ^ n -> Z.log2 a < n \/ a = 0.
Proof.
  intros Hn Ha. destruct (Z.eq_dec a 0) as [-> | Na]; [now right | left].
  apply (proj1 (Z.log2_lt_pow2 a n ltac:(lia))). lia.
Qed.

Lemma below_of_log2 (a n : Z) : 0 <= n -> 0 <= a -> Z.log2 a < n -> a < 2 ^ n.
Proof.
  intros Hn Ha Hl. destruct (Z.eq_dec a 0) as [-> | Na].
  - apply Z.pow_pos_nonneg; lia.
  - apply (proj2 (Z.log2_lt_pow2 a n ltac:(lia))). exact Hl.
Qed.

Lemma lor_below_pow2 (a b n : Z) :
  0 < n -> 0 <= a < 2 ^ n -> 0 <= b < 2 ^ n -> 0 <= Z.lor a b < 2 ^ n.
Proof.
  intros Hn Ha Hb.
  assert (H0 : 0 <= Z.lor a b) by (apply Z.lor_nonneg; lia).
  split; [exact H0 |]. apply below_of_log2; try assumption; [lia |].
  rewrite Z.log2_lor by lia.
  destruct (log2_below a n ltac:(lia) Ha) as [La | ->];
    destruct (log2_below b n ltac:(lia) Hb) as [Lb | ->]; simpl; lia.
Qed.

Lemma lxor_below_pow2 (a b n : Z) :
  0 < n -> 0 <= a < 2 ^ n -> 0 <= b < 2 ^ n -> 0 <= Z.lxor a b < 2 ^ n.
Proof.
  intros Hn Ha Hb.
  assert (H0 : 0 <= Z.lxor a b) by (apply Z.lxor_nonneg; lia).
  split; [exact H0 |]. apply below_of_log2; try assumption; [lia |].
  eapply Z.le_lt_trans; [apply Z.log2_lxor; lia |].
  destruct (log2_below a n ltac:(lia) Ha) as [La | ->];
    destruct (log2_below b n ltac:(lia) Hb) as [Lb | ->]; simpl; lia.
Qed.

Lemma shiftr_below (x d : Z) : 0 <= x -> 0 <= d -> 0 <= Z.shiftr x d <= x.
Proof.
  intros Hx Hd. rewrite Z.shiftr_div_pow2 by assumption.
  assert (0 < 2 ^ d) by (apply Z.pow_pos_nonneg; lia).
  split; [apply Z.div_pos; lia |].
  apply Z.div_le_upper_bound; nia.
Qed.

(** On words and rotation amounts of the schedule, the rotation built
    by [_make_rotate_left] is the one of the specification. *)
Lemma rotate_left32_spec (x d : Z) :
  in_u32 x -> 0 < d < 32 ->
  rotate_left32 x d = ThreefrySpec.rotate_left x d
  /\ in_u32 (rotate_left32 x d).
Proof.
  unfold in_u32. intros Hx Hd.
  assert (E : rotate_left32 x d = ThreefrySpec.rotate_left x d).
  { unfold rotate_left32, ThreefrySpec.rotate_left, lax_or, lax_shift_left,
      lax_shift_right_logical, lax_sub.
    rewrite !wrap_uint32. unfold wrap_unsigned. simpl dtype_bits.
    rewrite (Z.mod_small (32 - d)) by (change (2 ^ 32) with 4294967296; lia).
    rewrite (Z.mod_small x) by lia.
    rewrite (Z.mod_small (Z.shiftr x (32 - d))); [reflexivity |].
    pose proof (shiftr_below x (32 - d)). lia. }
  split; [exact E |]. rewrite E. unfold ThreefrySpec.rotate_left.
  apply lor_below_pow2; [lia | apply Z.mod_pos_bound; reflexivity |].
  pose proof (shiftr_below x (32 - d)). lia.
Qed.

(** ** The hash: vectorised rounds, block by block *)

Lemma apply_round_unzip rl (l : list (Z * Z)) rot :
  apply_round rl (unzip l) rot
  = unzip (map (fun p => apply_round1 rl p rot) l).
Proof.
  unfold apply_round, unzip, apply_round1. cbn [fst snd].
  rewrite zip_with_map, !map_map. f_equal.
  apply (zip_with_map lax_xor
           (fun p => lax_add uint32 (fst p) (snd p))
           (fun p => rl (snd p) rot)).
Qed.

Lemma fold_apply_round_unzip rl rots (l : list (Z * Z)) :
  fold_left (apply_round rl) rots (unzip l)
  = unzip (map (fun p => fold_left (apply_round1 rl) rots p) l).
Proof.
  revert l. induction rots as [| r rots IH]; intros l; simpl.
  - now rewrite map_id.
  - rewrite apply_round_unzip, IH, map_map. reflexivity.
Qed.

Lemma inject_unzip ka kb c (l : list (Z * Z)) :
  (add_scalar (fst (unzip l)) ka,
   add_scalar (add_scalar (snd (unzip l)) kb) c)
  = unzip (map (inject1 ka kb c) l).
Proof.
  unfold unzip, add_scalar, inject1. cbn [fst snd].
  now rewrite !map_map.
Qed.

Lemma threefry_rounds_unzip rl k1 k2 (l : list (Z * Z)) :
  threefry_rounds rl k1 k2 (unzip l)
  = unzip (map (threefry_rounds1 rl k1 k2) l).
Proof.
  unfold threefry_rounds. cbv zeta.
  assert (E0 : (add_scalar (fst (unzip l)) k1, add_scalar (snd (unzip l)) k2)
               = unzip (map (fun p => (lax_add uint32 (fst p) k1,
                                       lax_add uint32 (snd p) k2)) l)).
  { unfold unzip, add_scalar. cbn [fst snd]. now rewrite !map_map. }
  rewrite E0.
  repeat (rewrite fold_apply_round_unzip; rewrite inject_unzip).
  rewrite !map_map. reflexivity.
Qed.

Lemma apply_round1_spec (p : Z * Z) (r : Z) :
  in_pair p -> 0 < r < 32 ->
  apply_round1 rotate_left32 p r = ThreefrySpec.mix r p
  /\ in_pair (ThreefrySpec.mix r p).
Proof.
  intros [H0 H1] Hr.
  destruct (rotate_left32_spec (snd p) r H1 Hr) as [E I].
  unfold apply_round1, ThreefrySpec.mix, lax_add, lax_xor.
  rewrite wrap_uint32, E, Z.lxor_comm. split; [reflexivity |].
  split; cbn [fst snd]; [apply in_u32_mod |].
  rewrite <- E. apply lxor_below_pow2; [lia | exact I | apply in_u32_mod].
Qed.

Lemma rounds_spec (rots : list Z) (p : Z * Z) :
  in_pair p -> Forall (fun r => 0 < r < 32) rots ->
  fold_left (apply_round1 rotate_left32) rots p
  = fold_left (fun q r => ThreefrySpec.mix r q) rots p
  /\ in_pair (fold_left (fun q r => ThreefrySpec.mix r q) rots p).
Proof.
  intros Hp Hr. revert p Hp.
  induction Hr as [| r rots Hr _ IH]; intros p Hp; simpl; [auto |].
  destruct (apply_round1_spec p r Hp Hr) as [E I].
  rewrite E. apply IH, I.
Qed.

Lemma inject1_spec (ka kb c : Z) (p : Z * Z) :
  inject1 ka kb c p
  = ((fst p + ka) mod 2 ^ 32, (snd p + (kb + c) mod 2 ^ 32) mod 2 ^ 32)
  /\ in_pair (inject1 ka kb c p).
Proof.
  unfold inject1, lax_add. rewrite !wrap_uint32. split.
  - f_equal. rewrite Zplus_mod_idemp_l, Zplus_mod_idemp_r.
    f_equal. lia.
  - split; apply in_u32_mod.
Qed.

Lemma rotations_in_range : Forall (fun r => 0 < r < 32) rotations.
Proof. unfold rotations. repeat constructor; lia. Qed.

Lemma group_spec (k0 k1 ka kb : Z) (g : nat) (rots : list Z) (p : Z * Z) :
  in_pair p -> Forall (fun r => 0 < r < 32) rots ->
  rots = ThreefrySpec.rotation_group g ->
  ka = ThreefrySpec.round_key k0 k1 (g + 1) ->
  kb = ThreefrySpec.round_key k0 k1 (g + 2) ->
  inject1 ka kb (Z.of_nat (g + 1))
    (fold_left (apply_round1 rotate_left32) rots p)
  = ThreefrySpec.group k0 k1 p g
  /\ in_pair (ThreefrySpec.group k0 k1 p g).
Proof.
  intros Hp Hr -> -> ->.
  destruct (rounds_spec _ p Hp Hr) as [E I]. rewrite E.
  destruct (inject1_spec (ThreefrySpec.round_key k0 k1 (g + 1))
              (ThreefrySpec.round_key k0 k1 (g + 2)) (Z.of_nat (g + 1))
              (fold_left (fun q r => ThreefrySpec.mix r q)
                 (ThreefrySpec.rotation_group g) p)) as [E' I'].
  unfold ThreefrySpec.group, ThreefrySpec.inject.
  rewrite <- E'. auto.
Qed.

Lemma threefry_rounds1_spec (k0 k1 : Z) (c : Z * Z) :
  threefry_rounds1 rotate_left32 k0 k1 c = ThreefrySpec.block k0 k1 c.
Proof.
  unfold threefry_rounds1, ThreefrySpec.block. cbv zeta.
  cbn [seq fold_left].
  set (p0 := (lax_add uint32 (fst c) k0, lax_add uint32 (snd c) k1)).
  assert (H0 : in_pair p0) by (split; apply in_u32_mod).
  change ((fst c + ThreefrySpec.round_key k0 k1 0) mod 2 ^ 32,
          (snd c + ThreefrySpec.round_key k0 k1 1) mod 2 ^ 32) with p0.
  pose proof rotations_in_range as R.
  assert (Ra : Forall (fun r => 0 < r < 32) (firstn 4 rotations))
    by (unfold rotations; simpl; repeat constructor; lia).
  assert (Rb : Forall (fun r => 0 < r < 32) (skipn 4 rotations))
    by (unfold rotations; simpl; repeat constructor; lia).
  set (ks2 := lax_xor (lax_xor k0 k1) 466688986).
  destruct (group_spec k0 k1 k1 ks2 0 _ p0 H0 Ra eq_refl eq_refl eq_refl)
    as [E1 H1].
  change (Z.of_nat (0 + 1)) with 1 in E1. rewrite E1.
  destruct (group_spec k0 k1 ks2 k0 1 _ _ H1 Rb eq_refl eq_refl eq_refl)
    as [E2 H2].
  change (Z.of_nat (1 + 1)) with 2 in E2. rewrite E2.
  destruct (group_spec k0 k1 k0 k1 2 _ _ H2 Ra eq_refl eq_refl eq_refl)
    as [E3 H3].
  change (Z.of_nat (2 + 1)) with 3 in E3. rewrite E3.
  destruct (group_spec k0 k1 k1 ks2 3 _ _ H3 Rb eq_refl eq_refl eq_refl)
    as [E4 H4].
  change (Z.of_nat (3 + 1)) with 4 in E4. rewrite E4.
  destruct (group_spec k0 k1 ks2 k0 4 _ _ H4 Ra eq_refl eq_refl eq_refl)
    as [E5 H5].
  change (Z.of_nat (4 + 1)) with 5 in E5. rewrite E5.
  reflexivity.
Qed.

Lemma N_parity_of_nat (n : nat) :
  N.odd (N.of_nat n) = Nat.odd n /\ N.even (N.of_nat n) = Nat.even n.
Proof.
  induction n as [| n [IHo IHe]]; [split; reflexivity |].
  rewrite Nat2N.inj_succ, N.odd_succ, N.even_succ, Nat.odd_succ,
    Nat.even_succ. auto.
Qed.

Lemma even_halves (m : nat) : Nat.even m = true -> m = (2 * Nat.div2 m)%nat.
Proof.
  intros H. apply Nat.even_spec in H. destruct H as [k ->].
  now rewrite Nat.div2_double.
Qed.

Lemma size_odd {A : Type} (count : ndarray A) :
  well_formed count -> N.odd (size count) = Nat.odd (length (data count)).
Proof.
  unfold well_formed. intros <-. apply N_parity_of_nat.
Qed.

Lemma pad_even_length (l : list Z) :
  Nat.even (length (pad_even l)) = true
  /\ length (pad_even l)
     = (length l + (if Nat.odd (length l) then 1 else 0))%nat.
Proof.
  unfold pad_even. destruct (Nat.odd (length l)) eqn:E.
  - rewrite length_app. simpl. split; [| reflexivity].
    rewrite Nat.add_1_r, Nat.even_succ. exact E.
  - split; [| lia]. unfold Nat.odd in E.
    now destruct (Nat.even (length l)).
Qed.

Lemma halves_unzip (l : list Z) :
  Nat.even (length l) = true ->
  halves l = unzip (combine (fst (halves l)) (snd (halves l))).
Proof.
  intros Ev. unfold halves. cbn [fst snd].
  rewrite unzip_combine; [reflexivity |].
  pose proof (even_halves _ Ev).
  rewrite length_firstn, length_skipn. lia.
Qed.

Lemma np_split2_even (l : list Z) :
  Nat.even (length l) = true -> np_split2 l = ret (halves l).
Proof. intros H. unfold np_split2. rewrite H. reflexivity. Qed.

Lemma threefry_rounds_length (rl : Z -> Z -> Z) (k0 k1 : Z) (l : list Z) :
  Nat.even (length l) = true ->
  let x := threefry_rounds rl k0 k1 (halves l) in
  length (fst x ++ snd x) = length l.
Proof.
  intros Ev. cbv zeta.
  rewrite (halves_unzip l Ev), threefry_rounds_unzip. unfold unzip.
  cbn [fst snd].
  rewrite length_app, !length_map, length_combine. unfold halves.
  cbn [fst snd]. rewrite length_firstn, length_skipn.
  pose proof (even_halves _ Ev). lia.
Qed.

Lemma hash_words_length (k0 k1 : Z) (l : list Z) :
  length (hash_words k0 k1 l) = length l.
Proof.
  unfold hash_words. cbv zeta. destruct (pad_even_length l) as [Ev Len].
  pose proof (threefry_rounds_length rotate_left32 k0 k1 _ Ev) as H.
  cbv zeta in H. rewrite length_firstn, H, Len. lia.
Qed.

Lemma lax_reshape_ok {A : Type} (a : ndarray A) (s : list N) :
  N.of_nat (length (data a)) = shape_size s ->
  lax_reshape a s = ret (mkarray (dtype_of a) s (data a)).
Proof. intros H. unfold lax_reshape. rewrite H, N.eqb_refl. reflexivity. Qed.

(** The hash on a key of two words and a well-formed uint32 counter. *)
Lemma threefry_2x32_eval (k0 k1 : Z) (count : ndarray Z) :
  dtype_of count = uint32 -> well_formed count ->
  threefry_2x32 (key_of k0 k1) count
  = (1%nat, Ok (mkarray uint32 (shape count) (hash_words k0 k1 (data count)))).
Proof.
  intros D W. unfold threefry_2x32. cbn [key_of data dtype_of].
  rewrite D. cbn [dtype_eqb andb negb].
  change (_make_rotate_left uint32) with (ret rotate_left32).
  rewrite bind_ret, (size_odd count W).
  fold (pad_even (data count)).
  destruct (pad_even_length (data count)) as [Ev Len].
  rewrite (np_split2_even _ Ev).
  unfold tick_hash. rewrite bind_ok, bind_ret.
  pose proof (threefry_rounds_length rotate_left32 k0 k1 _ Ev) as Hlen.
  cbv zeta in Hlen.
  set (x := threefry_rounds rotate_left32 k0 k1 (halves (pad_even (data count))))
    in *.
  assert (Hd : (if Nat.odd (length (data count))
                then removelast (fst x ++ snd x) else fst x ++ snd x)
               = hash_words k0 k1 (data count)).
  { unfold hash_words. cbv zeta. fold x.
    destruct (Nat.odd (length (data count))).
    - rewrite removelast_firstn_len, Hlen, Len, Nat.add_1_r. reflexivity.
    - rewrite <- (firstn_all (fst x ++ snd x)) at 1.
      rewrite Hlen, Len, Nat.add_0_r. reflexivity. }
  rewrite Hd, lax_reshape_ok.
  - reflexivity.
  - cbn [data]. rewrite hash_words_length. exact W.
Qed.

(** The vectorised rounds agree with the specification block by block. *)
Lemma hash_words_spec (k0 k1 : Z) (l : list Z) :
  hash_words k0 k1 l = ThreefrySpec.hash k0 k1 l.
Proof.
  unfold hash_words, ThreefrySpec.hash. cbv zeta. fold (pad_even l).
  destruct (pad_even_length l) as [Ev _].
  rewrite (halves_unzip _ Ev), threefry_rounds_unzip. unfold unzip.
  cbn [fst snd]. unfold halves. cbn [fst snd].
  do 2 f_equal; f_equal; apply map_ext, threefry_rounds1_spec.
Qed.

(** C1: for all key words and every well-formed uint32 counter array,
    [threefry_2x32] returns the words of the 20-round schedule of the
    specification: key injection, five groups of four rounds with the
    rotation groups alternating, and after group [g] the injection of
    the next two round keys with the counter [g] (1 to 5) added to the
    second. *)
Theorem threefry_2x32_schedule (k0 k1 : Z) (count : ndarray Z) :
  dtype_of count = uint32 -> well_formed count ->
  threefry_2x32 (key_of k0 k1) count
  = (1%nat,
     Ok (mkarray uint32 (shape count)
           (ThreefrySpec.hash k0 k1 (data count)))).
Proof.
  intros D W. rewrite (threefry_2x32_eval k0 k1 count D W).
  now rewrite hash_words_spec.
Qed.

(** The scenario of the specification: key words (0, 0) and the counter
    [0, 1, 2, 3]. *)
Lemma threefry_2x32_schedule_witness :
  dtype_of (mkarray uint32 [4%N] [0; 1; 2; 3]) = uint32
  /\ well_formed (mkarray uint32 [4%N] [0; 1; 2; 3])
  /\ threefry_2x32 (key_of 0 0) (mkarray uint32 [4%N] [0; 1; 2; 3])
     = (1%nat,
        Ok (mkarray uint32 [4%N]
              [4146024105; 967050713; 2718843009; 1272950319])).
Proof.
  split; [reflexivity |]. split; [reflexivity |].
  rewrite (threefry_2x32_schedule 0 0 (mkarray uint32 [4%N] [0; 1; 2; 3])
             eq_refl eq_refl).
  vm_compute. reflexivity.
Defined.

(** ** Splitting, folding in and bit extraction *)

Lemma counter_words_length (n : Z) : length (counter_words n) = Z.to_nat n.
Proof. unfold counter_words. now rewrite length_map, length_seq. Qed.

Lemma lax_iota_eval (n : Z) :
  0 <= n ->
  lax_iota uint32 n = ret (mkarray uint32 [Z.to_N n] (counter_words n)).
Proof.
  intros Hn. unfold lax_iota.
  destruct (n <? 0) eqn:E; [apply Z.ltb_lt in E; lia | reflexivity].
Qed.

Lemma counter_array_well_formed (n : Z) :
  well_formed (mkarray uint32 [Z.to_N n] (counter_words n)).
Proof.
  unfold well_formed, size. cbn [data shape shape_size fold_right].
  rewrite counter_words_length, Z_nat_N. lia.
Qed.

(** The hash of the counter stream of length [n]. *)
Lemma threefry_counter_eval (k0 k1 n : Z) :
  threefry_2x32 (key_of k0 k1) (mkarray uint32 [Z.to_N n] (counter_words n))
  = (1%nat,
     Ok (mkarray uint32 [Z.to_N n] (hash_words k0 k1 (counter_words n)))).
Proof.
  apply threefry_2x32_eval; [reflexivity | apply counter_array_well_formed].
Qed.

Lemma split_eval (k0 k1 : Z) (num : N) :
  split (key_of k0 k1) num
  = (1%nat,
     Ok (mkarray uint32 [num; 2%N]
           (hash_words k0 k1 (counter_words (Z.of_N num * 2))))).
Proof.
  unfold split, _split.
  rewrite lax_iota_eval by lia. rewrite bind_ret.
  rewrite threefry_counter_eval, bind_ok.
  rewrite lax_reshape_ok; [reflexivity |].
  cbn [data shape_size fold_right].
  rewrite hash_words_length, counter_words_length, Z_nat_N. lia.
Qed.

Lemma fold_in_eval (k0 k1 d : Z) :
  fold_in (key_of k0 k1) d
  = (1%nat, Ok (mkarray uint32 [2%N] (hash_words k0 k1 (data (PRNGKey d))))).
Proof.
  unfold fold_in, _fold_in.
  apply (threefry_2x32_eval k0 k1 (PRNGKey d)); reflexivity.
Qed.

Lemma length2_inv {A : Type} (l : list A) :
  length l = 2%nat -> exists a b, l = [a; b].
Proof.
  destruct l as [| a [| b [| c l]]]; simpl; try discriminate.
  intros _. now exists a, b.
Qed.

Lemma counter_words_exact (n : Z) :
  n <= 2 ^ 32 -> counter_words n = map Z.of_nat (seq 0 (Z.to_nat n)).
Proof.
  intros Hn. unfold counter_words. apply map_ext_in. intros i Hi.
  apply in_seq in Hi. rewrite wrap_uint32. apply Z.mod_small. lia.
Qed.

(** C3: [split] and [fold_in] are functions of their arguments alone:
    equal keys and integers give equal results; [split key num] is the
    hash of the counter [0 .. 2 num - 1] under [key], reshaped into [num]
    pairs, and [fold_in key d] is the hash of [PRNGKey d] under [key],
    itself a key. *)
Theorem split_fold_in_pure (key key' : ndarray Z) (k0 k1 : Z)
  (num num' : N) (d d' : Z) :
  key = key_of k0 k1 -> key' = key -> num' = num -> d' = d ->
  split key' num' = split key num
  /\ fold_in key' d' = fold_in key d
  /\ (exists h,
         threefry_2x32 key
           (mkarray uint32 [(2 * num)%N] (counter_words (Z.of_N (2 * num))))
         = (1%nat, Ok h)
         /\ split key num = (1%nat, Ok (mkarray uint32 [num; 2%N] (data h)))
         /\ N.of_nat (length (data h)) = (num * 2)%N)
  /\ (exists a b,
         fold_in key d = threefry_2x32 key (PRNGKey d)
         /\ fold_in key d = (1%nat, Ok (key_of a b))).
Proof.
  intros -> -> -> ->. split; [reflexivity |]. split; [reflexivity |]. split.
  - assert (E : Z.to_N (Z.of_N (2 * num)) = (2 * num)%N) by lia.
    pose proof (threefry_counter_eval k0 k1 (Z.of_N (2 * num))) as H.
    rewrite E in H.
    eexists. split; [exact H |]. cbn [data]. split.
    + rewrite split_eval.
      replace (Z.of_N num * 2) with (Z.of_N (2 * num)) by lia. reflexivity.
    + rewrite hash_words_length, counter_words_length, Z_nat_N. lia.
  - destruct (length2_inv (hash_words k0 k1 (data (PRNGKey d))))
      as (a & b & E).
    { now rewrite hash_words_length. }
    exists a, b. split; [reflexivity |].
    rewrite fold_in_eval, E. reflexivity.
Qed.

Lemma split_fold_in_pure_witness :
  key_of 0 0 = key_of 0 0 /\ key_of 0 0 = key_of 0 0
  /\ 2%N = 2%N /\ 7 = 7
  /\ split (key_of 0 0) 2
     = (1%nat,
        Ok (mkarray uint32 [2%N; 2%N]
              [4146024105; 967050713; 2718843009; 1272950319]))
  /\ fold_in (key_of 0 0) 7
     = (1%nat, Ok (key_of 2716826189 292468403)).
Proof.
  do 4 (split; [reflexivity |]).
  destruct (split_fold_in_pure (key_of 0 0) (key_of 0 0) 0 0 2 2 7 7
              eq_refl eq_refl eq_refl eq_refl)
    as (_ & _ & (h & Hh & Hs & _) & (a & b & Ht & _)).
  split.
  - rewrite Hs. vm_compute in Hh. injection Hh as <-. reflexivity.
  - rewrite Ht. vm_compute. reflexivity.
Defined.

Lemma is_prng_key_spec (key : pyval) :
  _is_prng_key key = true <-> valid_key key.
Proof.
  unfold _is_prng_key, valid_key, shape_eqb. split.
  - destruct key as [a |]; [| discriminate].
    destruct (list_eq_dec N.eq_dec (shape a) [2%N]) as [E |]; [| discriminate].
    simpl. intros D. exists a. repeat split; [exact E |].
    now destruct (dtype_of a).
  - intros (a & -> & S & D). rewrite S, D.
    destruct (list_eq_dec N.eq_dec [2%N] [2%N]); [reflexivity | contradiction].
Qed.

(** C10: [_random_bits] raises [TypeError], without running the hash,
    for every key argument that is not an array of shape [(2,)] and
    dtype uint32, and for every bit width other than 32 and 64. *)
Theorem random_bits_validates (key : pyval) (bit_width : Z) (shp : list N) :
  ~ valid_key key \/ (bit_width <> 32 /\ bit_width <> 64) ->
  _random_bits key bit_width shp = (0%nat, Raise TypeError).
Proof.
  intros H. unfold _random_bits.
  destruct (_is_prng_key key) eqn:K; [| reflexivity].
  destruct H as [H | [H32 H64]].
  - exfalso. apply H, is_prng_key_spec, K.
  - cbn [negb].
    destruct (bit_width =? 32) eqn:E32; [apply Z.eqb_eq in E32; contradiction |].
    destruct (bit_width =? 64) eqn:E64; [apply Z.eqb_eq in E64; contradiction |].
    reflexivity.
Qed.

Lemma random_bits_validates_witness :
  (~ valid_key PyObject \/ (32 <> 32 /\ 32 <> 64))
  /\ _random_bits PyObject 32 [3%N] = (0%nat, Raise TypeError).
Proof.
  assert (H : ~ valid_key PyObject \/ (32 <> 32 /\ 32 <> 64)).
  { left. intros (a & E & _). discriminate E. }
  split; [exact H |].
  exact (random_bits_validates PyObject 32 [3%N] H).
Defined.

Lemma wrap_int64_small (x : Z) :
  - 2 ^ 63 <= x < 2 ^ 63 -> wrap int64 x = x.
Proof.
  intros H. unfold wrap, wrap_signed. cbn [is_signed dtype_bits].
  change (64 - 1) with 63.
  rewrite Z.mod_small; [lia |].
  change (2 ^ 64) with (2 * 2 ^ 63). lia.
Qed.

Lemma wrap_uint64_small (x : Z) : 0 <= x < 2 ^ 64 -> wrap uint64 x = x.
Proof. intros H. unfold wrap, wrap_unsigned. cbn. now apply Z.mod_small. Qed.

Lemma random_bits_max_count (bw : Z) (shp : list N) :
  bw = 32 \/ bw = 64 -> max_count_of bw shp < 2 ^ 63 ->
  wrap int64 ((bw / 32) * onp_prod shp) = max_count_of bw shp.
Proof.
  intros Hbw Hm. unfold onp_prod, max_count_of in *.
  assert (Hp : 0 <= Z.of_N (shape_size shp)) by lia.
  assert (Hq : 1 <= bw / 32 <= 2).
  { destruct Hbw as [-> | ->];
      [change (32 / 32) with 1 | change (64 / 32) with 2]; lia. }
  rewrite (wrap_int64_small (Z.of_N _)) by nia.
  apply wrap_int64_small. nia.
Qed.

Lemma pair_words_combine (hi lo : Z) :
  in_u32 hi -> in_u32 lo -> combine_halves hi lo = pair_words hi lo.
Proof.
  unfold in_u32, combine_halves, pair_words, lax_or, lax_shift_left,
    lax_convert_element_type.
  intros Hh Hl.
  assert (P : 2 ^ 64 = 2 ^ 32 * 2 ^ 32) by reflexivity.
  rewrite (wrap_uint64_small hi), (wrap_uint64_small lo) by lia.
  rewrite wrap_uint64_small; [reflexivity |].
  rewrite Z.shiftl_mul_pow2 by lia. nia.
Qed.

Lemma In_firstn_inv {A : Type} (n : nat) (l : list A) (x : A) :
  In x (firstn n l) -> In x l.
Proof.
  intros H. rewrite <- (firstn_skipn n l). apply in_or_app. now left.
Qed.

Lemma In_skipn_inv {A : Type} (n : nat) (l : list A) (x : A) :
  In x (skipn n l) -> In x l.
Proof.
  intros H. rewrite <- (firstn_skipn n l). apply in_or_app. now right.
Qed.

Lemma Forall_firstn_of {A : Type} (P : A -> Prop) (n : nat) (l : list A) :
  Forall P l -> Forall P (firstn n l).
Proof.
  rewrite !Forall_forall. intros H x Hx. eapply H, In_firstn_inv, Hx.
Qed.

Lemma threefry_rounds1_in_pair (rl : Z -> Z -> Z) (k0 k1 : Z) (c : Z * Z) :
  in_pair (threefry_rounds1 rl k0 k1 c).
Proof.
  unfold threefry_rounds1. cbv zeta.
  exact (proj2 (inject1_spec _ _ _ _)).
Qed.

Lemma hash_words_in_u32 (k0 k1 : Z) (l : list Z) :
  Forall in_u32 (hash_words k0 k1 l).
Proof.
  unfold hash_words. cbv zeta. destruct (pad_even_length l) as [Ev _].
  rewrite (halves_unzip _ Ev), threefry_rounds_unzip. unfold unzip.
  cbn [fst snd]. apply Forall_firstn_of, Forall_app.
  split; rewrite Forall_forall; intros x Hx;
    apply in_map_iff in Hx; destruct Hx as (p & <- & Hp);
    apply in_map_iff in Hp; destruct Hp as (c & <- & _).
  - exact (proj1 (threefry_rounds1_in_pair _ _ _ _)).
  - exact (proj2 (threefry_rounds1_in_pair _ _ _ _)).
Qed.

Lemma zip_with_ext_in {A B C : Type} (f g : A -> B -> C) xs ys :
  (forall a b, In a xs -> In b ys -> f a b = g a b) ->
  zip_with f xs ys = zip_with g xs ys.
Proof.
  intros H. unfold zip_with. apply map_ext_in. intros [a b] Hin.
  cbn [fst snd]. apply H.
  - eapply in_combine_l, Hin.
  - eapply in_combine_r, Hin.
Qed.

Lemma halves_length (l : list Z) :
  Nat.even (length l) = true ->
  length (fst (halves l)) = Nat.div2 (length l)
  /\ length (snd (halves l)) = Nat.div2 (length l).
Proof.
  intros Ev. pose proof (even_halves _ Ev). unfold halves. cbn [fst snd].
  rewrite length_firstn, length_skipn. lia.
Qed.

(** The bits drawn for a key of two words when the request fits. *)
Lemma random_bits_eval (k0 k1 bw : Z) (shp : list N) :
  bw = 32 \/ bw = 64 -> max_count_of bw shp < uint32_max ->
  _random_bits (PyArray (key_of k0 k1)) bw shp
  = (1%nat,
     Ok (mkarray (bits_dtype bw) shp
           (bits_of_words bw
              (hash_words k0 k1 (counter_words (max_count_of bw shp)))))).
Proof.
  intros Hbw Hm. unfold _random_bits.
  change (_is_prng_key (PyArray (key_of k0 k1))) with true. cbn [negb].
  assert (Hb : (bw =? 32) || (bw =? 64) = true)
    by (destruct Hbw as [-> | ->]; reflexivity).
  rewrite Hb. cbn [negb].
  assert (H63 : max_count_of bw shp < 2 ^ 63)
    by (unfold uint32_max in Hm; change (2 ^ 63) with 9223372036854775808; lia).
  rewrite (random_bits_max_count bw shp Hbw H63).
  destruct (max_count_of bw shp >=? uint32_max) eqn:G.
  { apply Z.geb_le in G. lia. }
  assert (H0 : 0 <= max_count_of bw shp).
  { unfold max_count_of.
    destruct Hbw as [-> | ->];
      [change (32 / 32) with 1 | change (64 / 32) with 2]; lia. }
  rewrite lax_iota_eval by exact H0. rewrite bind_ret.
  rewrite threefry_counter_eval, bind_ok.
  set (words := hash_words k0 k1 (counter_words (max_count_of bw shp))).
  assert (Hlen : length words = Z.to_nat (max_count_of bw shp)).
  { subst words. now rewrite hash_words_length, counter_words_length. }
  unfold bits_of_words, bits_dtype. destruct Hbw as [-> | ->].
  - change (32 =? 64) with false. cbv iota. rewrite bind_ret.
    rewrite lax_reshape_ok; [reflexivity |].
    cbn [data]. rewrite Hlen, Z_nat_N. unfold max_count_of.
    change (32 / 32) with 1. lia.
  - change (64 =? 64) with true. cbv iota. cbn [data].
    assert (Ev : Nat.even (length words) = true).
    { rewrite Hlen. unfold max_count_of. change (64 / 32) with 2.
      rewrite Z2Nat.inj_mul by lia. change (Z.to_nat 2) with 2%nat.
      apply Nat.even_spec. now exists (Z.to_nat (Z.of_N (shape_size shp))). }
    rewrite (np_split2_even _ Ev). rewrite !bind_ret.
    destruct (halves_length _ Ev) as [L1 L2].
    rewrite (zip_with_ext_in combine_halves pair_words).
    + rewrite lax_reshape_ok; [reflexivity |].
      cbn [data]. rewrite zip_with_length, L1, L2, Nat.min_id.
      pose proof (even_halves _ Ev) as E2. rewrite Hlen in E2.
      unfold max_count_of in E2. change (64 / 32) with 2 in E2.
      rewrite Hlen. unfold max_count_of. change (64 / 32) with 2. lia.
    + pose proof (hash_words_in_u32 k0 k1
                    (counter_words (max_count_of 64 shp))) as Hr.
      fold words in Hr. rewrite Forall_forall in Hr.
      intros a b Ha Hb'. apply pair_words_combine; apply Hr.
      * unfold halves in Ha. cbn [fst] in Ha. eapply In_firstn_inv, Ha.
      * unfold halves in Hb'. cbn [snd] in Hb'. eapply In_skipn_inv, Hb'.
Qed.

Lemma random_bits_over_capacity (k0 k1 bw : Z) (shp : list N) :
  bw = 32 \/ bw = 64 -> max_count_of bw shp < 2 ^ 63 ->
  uint32_max <= max_count_of bw shp ->
  _random_bits (PyArray (key_of k0 k1)) bw shp = (0%nat, Raise TypeError).
Proof.
  intros Hbw H63 Hm. unfold _random_bits.
  change (_is_prng_key (PyArray (key_of k0 k1))) with true. cbn [negb].
  assert (Hb : (bw =? 32) || (bw =? 64) = true)
    by (destruct Hbw as [-> | ->]; reflexivity).
  rewrite Hb. cbn [negb].
  rewrite (random_bits_max_count bw shp Hbw H63).
  destruct (max_count_of bw shp >=? uint32_max) eqn:G; [reflexivity |].
  rewrite Z.geb_leb in G. apply Z.leb_gt in G. lia.
Qed.

(** C4, amended: for a key of two uint32 words, a bit width of 32 or 64
    and a shape whose [max_count] fits numpy's int64, [_random_bits]
    fails exactly when [max_count = (bit_width / 32) * product(shape)]
    is at least [2^32 - 1], with a [TypeError] and before hashing;
    otherwise it runs the hash once on the counter [0 .. max_count - 1]
    and returns an array of the requested shape whose 64-bit values
    pair word [i] of the first half of the hash output (high) with
    word [i] of the second half (low). *)
Theorem random_bits_capacity (k0 k1 bit_width : Z) (shp : list N) :
  bit_width = 32 \/ bit_width = 64 ->
  max_count_of bit_width shp < 2 ^ 63 ->
  ((exists e, outcome (_random_bits (PyArray (key_of k0 k1)) bit_width shp)
              = Raise e)
   <-> uint32_max <= max_count_of bit_width shp)
  /\ (uint32_max <= max_count_of bit_width shp ->
      _random_bits (PyArray (key_of k0 k1)) bit_width shp
      = (0%nat, Raise TypeError))
  /\ (max_count_of bit_width shp < uint32_max ->
      let words :=
        hash_words k0 k1 (counter_words (max_count_of bit_width shp)) in
      _random_bits (PyArray (key_of k0 k1)) bit_width shp
      = (1%nat,
         Ok (mkarray (bits_dtype bit_width) shp
               (if bit_width =? 64
                then zip_with pair_words
                       (firstn (Nat.div2 (length words)) words)
                       (skipn (Nat.div2 (length words)) words)
                else words)))).
Proof.
  intros Hbw H63. split; [| split].
  - split.
    + intros [e He].
      destruct (Z_lt_le_dec (max_count_of bit_width shp) uint32_max)
        as [Hlt | Hge]; [| exact Hge].
      rewrite (random_bits_eval k0 k1 bit_width shp Hbw Hlt) in He.
      discriminate He.
    + intros Hge. exists TypeError.
      now rewrite (random_bits_over_capacity k0 k1 bit_width shp Hbw H63 Hge).
  - apply random_bits_over_capacity; assumption.
  - intros Hlt. cbv zeta.
    rewrite (random_bits_eval k0 k1 bit_width shp Hbw Hlt). reflexivity.
Qed.

Lemma random_bits_capacity_witness :
  (64 = 32 \/ 64 = 64)
  /\ max_count_of 64 [2%N] < 2 ^ 63
  /\ _random_bits (PyArray (key_of 0 0)) 64 [2%N]
     = (1%nat,
        Ok (mkarray uint64 [2%N]
              [17807037942121513089; 4153451187181432367])).
Proof.
  assert (Hb : 64 = 32 \/ 64 = 64) by (right; reflexivity).
  assert (H63 : max_count_of 64 [2%N] < 2 ^ 63) by reflexivity.
  split; [exact Hb |]. split; [exact H63 |].
  destruct (random_bits_capacity 0 0 64 [2%N] Hb H63) as (_ & _ & H).
  rewrite H by reflexivity. vm_compute. reflexivity.
Defined.

(** The claim as worded fails twice: a request of exactly [2^32 - 1]
    words does not exceed the maximum count and is refused all the same,
    and the 64-bit values pair word [i] of the first half of the hash
    output with word [i] of the second half, not consecutive words. *)
Lemma random_bits_claim_counterexample :
  ~ (uint32_max < max_count_of 32 [4294967295%N])
  /\ _random_bits (PyArray (key_of 0 0)) 32 [4294967295%N]
     = (0%nat, Raise TypeError)
  /\ _random_bits (PyArray (key_of 0 0)) 32 [4%N]
     = (1%nat,
        Ok (mkarray uint32 [4%N]
              [4146024105; 967050713; 2718843009; 1272950319]))
  /\ outcome (_random_bits (PyArray (key_of 0 0)) 64 [2%N])
     = Ok (mkarray uint64 [2%N]
             [pair_words 4146024105 2718843009;
              pair_words 967050713 1272950319])
  /\ outcome (_random_bits (PyArray (key_of 0 0)) 64 [2%N])
     <> Ok (mkarray uint64 [2%N]
              (pair_consecutive
                 [4146024105; 967050713; 2718843009; 1272950319])).
Proof.
  split; [vm_compute; discriminate |].
  split; [vm_compute; reflexivity |].
  split; [vm_compute; reflexivity |].
  split; [vm_compute; reflexivity |].
  vm_compute. discriminate.
Qed.

(** Beyond [2^63] the int64 product of the code wraps around and the
    guard sees the wrapped value: for the shape [(2^32, 2^32)] it is
    0, which is below the limit. *)
Lemma random_bits_count_wraps :
  max_count_of 32 [4294967296%N; 4294967296%N] = 2 ^ 64
  /\ wrap int64 ((32 / 32) * onp_prod [4294967296%N; 4294967296%N]) = 0
  /\ (0 >=? uint32_max) = false.
Proof. repeat split. Qed.


(** C2: on every well-formed uint32 counter, of odd or even size,
    [threefry_2x32] returns a well-formed uint32 array of the shape of
    the counter; an odd-sized counter gets one zero word appended before
    it is split into two halves of equal length, and the output is the
    concatenated halves cut back to the size of the counter. *)
Theorem threefry_2x32_same_shape (k0 k1 : Z) (count : ndarray Z) :
  dtype_of count = uint32 -> well_formed count ->
  exists out,
    threefry_2x32 (key_of k0 k1) count = (1%nat, Ok out)
    /\ dtype_of out = uint32
    /\ shape out = shape count
    /\ well_formed out
    /\ let padded :=
         if N.odd (size count) then data count ++ [0] else data count in
       let x := threefry_rounds rotate_left32 k0 k1 (halves padded) in
       length (fst (halves padded)) = length (snd (halves padded))
       /\ length (fst x ++ snd x)
          = (length (data count)
             + (if N.odd (size count) then 1 else 0))%nat
       /\ data out = firstn (length (data count)) (fst x ++ snd x).
Proof.
  intros D W. eexists. split; [apply threefry_2x32_eval; assumption |].
  cbn [dtype_of shape data]. repeat split.
  - unfold well_formed, size. cbn [data shape].
    rewrite hash_words_length. exact W.
  - rewrite (size_odd count W). fold (pad_even (data count)).
    destruct (pad_even_length (data count)) as [Ev _].
    destruct (halves_length _ Ev) as [-> ->]. reflexivity.
  - rewrite (size_odd count W). fold (pad_even (data count)).
    destruct (pad_even_length (data count)) as [Ev Len].
    pose proof (threefry_rounds_length rotate_left32 k0 k1 _ Ev) as H.
    cbv zeta in H. rewrite H. exact Len.
  - rewrite (size_odd count W). reflexivity.
Qed.

Lemma threefry_2x32_same_shape_witness :
  dtype_of (mkarray uint32 [1%N; 3%N] [0; 1; 2]) = uint32
  /\ well_formed (mkarray uint32 [1%N; 3%N] [0; 1; 2])
  /\ exists out,
       threefry_2x32 (key_of 0 0) (mkarray uint32 [1%N; 3%N] [0; 1; 2])
       = (1%nat, Ok out)
       /\ shape out = [1%N; 3%N]
       /\ data out = [4146024105; 1351547692; 2718843009].
Proof.
  split; [reflexivity |]. split; [reflexivity |].
  destruct (threefry_2x32_same_shape 0 0
              (mkarray uint32 [1%N; 3%N] [0; 1; 2]) eq_refl eq_refl)
    as (out & E & _ & S & _ & _ & _ & Dt).
  exists out. split; [exact E |]. split; [exact S |].
  rewrite Dt. vm_compute. reflexivity.
Defined.

(** ** The bounded integer sampler *)

Lemma length4_inv {A : Type} (l : list A) :
  length l = 4%nat -> exists a b c d, l = [a; b; c; d].
Proof.
  destruct l as [| a [| b [| c [| d [| e l]]]]]; simpl; try discriminate.
  intros _. now exists a, b, c, d.
Qed.

Lemma length6_inv {A : Type} (l : list A) :
  length l = 6%nat -> exists a b c d e f, l = [a; b; c; d; e; f].
Proof.
  destruct l as [| a [| b [| c [| d [| e [| f [| g l]]]]]]]; simpl;
    try discriminate.
  intros _. now exists a, b, c, d, e, f.
Qed.

(** [split(key)] is one run of the hash and yields two keys. *)
Lemma split_pair_eval (k0 k1 : Z) :
  exists a b c d,
    split_pair (key_of k0 k1) = (1%nat, Ok (key_of a b, key_of c d)).
Proof.
  unfold split_pair. rewrite split_eval, bind_ok. cbn [data].
  destruct (length4_inv (hash_words k0 k1 (counter_words (Z.of_N 2 * 2))))
    as (a & b & c & d & E).
  { now rewrite hash_words_length, counter_words_length. }
  rewrite E. exists a, b, c, d. reflexivity.
Qed.

Lemma split_triple_eval (k0 k1 : Z) :
  exists a b c d e f,
    split_triple (key_of k0 k1)
    = (1%nat, Ok (key_of a b, key_of c d, key_of e f)).
Proof.
  unfold split_triple. rewrite split_eval, bind_ok. cbn [data].
  destruct (length6_inv (hash_words k0 k1 (counter_words (Z.of_N 3 * 2))))
    as (a & b & c & d & e & f & E).
  { now rewrite hash_words_length, counter_words_length. }
  rewrite E. exists a, b, c, d, e, f. reflexivity.
Qed.

(** Signed and unsigned reduction. *)
Lemma wrap_signed_small (n x : Z) :
  0 < n -> - 2 ^ (n - 1) <= x < 2 ^ (n - 1) -> wrap_signed n x = x.
Proof.
  intros Hn Hx. unfold wrap_signed.
  assert (P : 2 ^ n = 2 * 2 ^ (n - 1)).
  { rewrite <- Z.pow_succ_r by lia. f_equal. lia. }
  rewrite Z.mod_small; lia.
Qed.

Lemma wrap_signed_congr (n x : Z) :
  0 < n -> wrap_signed n x mod 2 ^ n = x mod 2 ^ n.
Proof.
  intros Hn. unfold wrap_signed.
  assert (P : 0 < 2 ^ n) by (apply Z.pow_pos_nonneg; lia).
  rewrite Zminus_mod, Zmod_mod, <- Zminus_mod. f_equal. lia.
Qed.

Lemma wrap_signed_add_r (n a b : Z) :
  0 < n -> wrap_signed n (a + wrap_signed n b) = wrap_signed n (a + b).
Proof.
  intros Hn. unfold wrap_signed at 1 3. f_equal.
  rewrite <- Z.add_assoc, (Z.add_comm (wrap_signed n b)), Z.add_assoc.
  rewrite Zplus_mod, (wrap_signed_congr n b Hn), <- Zplus_mod.
  f_equal. lia.
Qed.

Lemma rem_below (x s : Z) : 0 <= x -> 0 < s -> 0 <= lax_rem x s < s.
Proof. intros Hx Hs. unfold lax_rem. now apply Z.rem_bound_pos. Qed.

Lemma wrap_unsigned_bound (n x : Z) : 0 <= n -> 0 <= wrap_unsigned n x < 2 ^ n.
Proof.
  intros Hn. unfold wrap_unsigned. apply Z.mod_pos_bound.
  apply Z.pow_pos_nonneg; lia.
Qed.

Lemma randint_offset_bound (nbits span m hi lo : Z) :
  nbits = 32 \/ nbits = 64 -> 0 < span ->
  0 <= randint_offset nbits span m hi lo < span.
Proof.
  intros Hn Hs. unfold randint_offset. cbv zeta. apply rem_below; [| exact Hs].
  unfold lax_add, unsigned_of_bits.
  destruct Hn as [-> | ->]; cbn [Z.eqb Pos.eqb]; unfold wrap;
    cbn [is_signed dtype_bits]; apply wrap_unsigned_bound; lia.
Qed.

Lemma bits_of_words_size (bw k0 k1 : Z) (shp : list N) :
  bw = 32 \/ bw = 64 ->
  N.of_nat (length (bits_of_words bw
                      (hash_words k0 k1 (counter_words (max_count_of bw shp)))))
  = shape_size shp.
Proof.
  intros Hb.
  set (words := hash_words k0 k1 (counter_words (max_count_of bw shp))).
  assert (Hlen : length words = Z.to_nat (max_count_of bw shp)).
  { subst words. now rewrite hash_words_length, counter_words_length. }
  unfold bits_of_words. destruct Hb as [-> | ->].
  - change (32 =? 64) with false. cbv iota. rewrite Hlen.
    unfold max_count_of. change (32 / 32) with 1. lia.
  - change (64 =? 64) with true. cbv iota.
    unfold max_count_of in Hlen. change (64 / 32) with 2 in Hlen.
    rewrite Z2Nat.inj_mul in Hlen by lia.
    change (Z.to_nat 2) with 2%nat in Hlen.
    assert (Ev : Nat.even (length words) = true).
    { rewrite Hlen. apply Nat.even_spec.
      now exists (Z.to_nat (Z.of_N (shape_size shp))). }
    destruct (halves_length _ Ev) as [L1 L2].
    rewrite zip_with_length, L1, L2, Nat.min_id, Hlen, Nat.div2_double. lia.
Qed.

(** [_randint] on an integer dtype of 32 or 64 bits, for a request that
    fits one call of the hash: one split and two draws. *)
Lemma randint_eval (k0 k1 : Z) (shp : list N) (minval maxval : Z)
  (dt : dtype) :
  is_integer dt = true ->
  dtype_bits dt = 32 \/ dtype_bits dt = 64 ->
  max_count_of (dtype_bits dt) shp < uint32_max ->
  exists hi lo : list Z,
    let nbits := dtype_bits dt in
    let mn := lax_convert_element_type dt minval in
    let mx := randint_maxval dt mn (lax_convert_element_type dt maxval) in
    let span := randint_span dt mn mx in
    length hi = length lo
    /\ N.of_nat (length hi) = shape_size shp
    /\ _randint (key_of k0 k1) shp minval maxval dt
       = (3%nat,
          Ok (mkarray dt shp
                (map (fun o => lax_add dt mn (lax_convert_element_type dt o))
                   (zip_with
                      (randint_offset nbits span
                         (randint_multiplier nbits span))
                      hi lo)))).
Proof.
  intros Hi Hb Hm.
  destruct (split_pair_eval k0 k1) as (a & b & c & d & Es).
  pose proof (random_bits_eval a b _ shp Hb Hm) as Eh.
  pose proof (random_bits_eval c d _ shp Hb Hm) as El.
  pose proof (bits_of_words_size _ a b shp Hb) as Lh.
  pose proof (bits_of_words_size _ c d shp Hb) as Ll.
  eexists. eexists. cbv zeta. split; [| split].
  3: { unfold _randint, _check_shape. rewrite bind_ret, Hi. cbn [negb].
       assert (Hbb : (dtype_bits dt =? 32) || (dtype_bits dt =? 64) = true)
         by (destruct Hb as [-> | ->]; reflexivity).
       rewrite Hbb. cbn [negb].
       rewrite Es, bind_ok. cbn [fst snd].
       rewrite Eh, bind_ok. cbn [fst snd]. rewrite El, bind_ok.
       cbn [data]. reflexivity. }
  - apply Nat2N.inj. now rewrite Lh, Ll.
  - exact Lh.
Qed.

(** When [minval] is below the largest value of a signed dtype, the
    coerced range is not empty and every element lies in it; a range
    that was empty yields [minval] only. *)
Lemma randint_in_range (k0 k1 : Z) (shp : list N) (minval maxval : Z)
  (dt : dtype) :
  dt = int32 \/ dt = int64 ->
  - 2 ^ (dtype_bits dt - 1) <= minval < 2 ^ (dtype_bits dt - 1) - 1 ->
  - 2 ^ (dtype_bits dt - 1) <= maxval < 2 ^ (dtype_bits dt - 1) ->
  max_count_of (dtype_bits dt) shp < uint32_max ->
  exists out,
    _randint (key_of k0 k1) shp minval maxval dt = (3%nat, Ok out)
    /\ shape out = shp
    /\ Forall (fun v => minval <= v < Z.max (minval + 1) maxval) (data out)
    /\ (maxval <= minval -> Forall (fun v => v = minval) (data out)).
Proof.
  intros Hdt Hmin Hmax Hm.
  set (n := dtype_bits dt) in *.
  assert (Hn : n = 32 \/ n = 64) by (destruct Hdt as [-> | ->]; auto).
  assert (Hn0 : 0 < n) by lia.
  assert (Hw : forall x, wrap dt x = wrap_signed n x)
    by (destruct Hdt as [-> | ->]; reflexivity).
  assert (Hu : forall x, wrap (unsigned_of_bits n) x = x mod 2 ^ n)
    by (destruct Hn as [-> | ->]; reflexivity).
  assert (Hint : is_integer dt = true)
    by (destruct Hdt as [-> | ->]; reflexivity).
  destruct (randint_eval k0 k1 shp minval maxval dt Hint Hn Hm)
    as (hi & lo & Hl & Hs & E).
  cbv zeta in E. fold n in E.
  eexists. split; [exact E |]. cbn [shape data]. split; [reflexivity |].
  assert (P : 2 ^ n = 2 * 2 ^ (n - 1)).
  { rewrite <- Z.pow_succ_r by lia. f_equal. lia. }
  assert (Pp : 0 < 2 ^ (n - 1)) by (apply Z.pow_pos_nonneg; lia).
  set (mx := Z.max (minval + 1) maxval).
  assert (Hmx : minval < mx < 2 ^ (n - 1) + 1) by (subst mx; lia).
  assert (Emn : lax_convert_element_type dt minval = minval).
  { unfold lax_convert_element_type. rewrite Hw.
    apply wrap_signed_small; lia. }
  assert (Emx : randint_maxval dt minval (lax_convert_element_type dt maxval)
                = mx).
  { unfold randint_maxval, lax_max, lax_add, lax_convert_element_type.
    rewrite !Hw, (wrap_signed_small n maxval), (wrap_signed_small n (minval + 1))
      by lia. reflexivity. }
  assert (Esp : randint_span dt minval mx = mx - minval).
  { unfold randint_span, lax_convert_element_type, lax_sub. fold n.
    rewrite Hu, Hw, wrap_signed_congr by exact Hn0.
    apply Z.mod_small. subst mx. lia. }
  rewrite Emn, Emx, Esp.
  assert (Hel : forall o, 0 <= o < mx - minval ->
            lax_add dt minval (lax_convert_element_type dt o) = minval + o).
  { intros o Ho. unfold lax_add, lax_convert_element_type.
    rewrite !Hw, wrap_signed_add_r by exact Hn0.
    apply wrap_signed_small; lia. }
  assert (Hall : forall v,
            In v (map (fun o => lax_add dt minval (lax_convert_element_type dt o))
                    (zip_with (randint_offset n (mx - minval)
                                 (randint_multiplier n (mx - minval))) hi lo)) ->
            exists o, 0 <= o < mx - minval /\ v = minval + o).
  { intros v Hv. apply in_map_iff in Hv. destruct Hv as (o & <- & Ho).
    unfold zip_with in Ho. apply in_map_iff in Ho.
    destruct Ho as ([h l] & <- & _). cbn [fst snd].
    pose proof (randint_offset_bound n (mx - minval)
                  (randint_multiplier n (mx - minval)) h l Hn ltac:(lia)) as B.
    eexists. split; [exact B |]. now apply Hel. }
  split.
  - apply Forall_forall. intros v Hv.
    destruct (Hall v Hv) as (o & Ho & ->). lia.
  - intros Hdeg. apply Forall_forall. intros v Hv.
    destruct (Hall v Hv) as (o & Ho & ->). subst mx. lia.
Qed.

(** The square-and-reduce steps reach [2 ^ nbits mod span] while the
    span is at most [2 ^ (nbits / 2)]. *)
Lemma randint_multiplier_small_32 (span : Z) :
  0 < span <= 2 ^ 16 -> randint_multiplier 32 span = 2 ^ 32 mod span.
Proof.
  intros Hs. unfold randint_multiplier, unsigned_of_bits, lax_rem, lax_mul,
    lax_convert_element_type.
  change (32 =? 32) with true. change (32 =? 64) with false. cbv iota zeta.
  rewrite !wrap_uint32.
  change (2 ^ 16 mod 2 ^ 32) with (2 ^ 16).
  rewrite (Z.rem_mod_nonneg (2 ^ 16)) by lia.
  pose proof (Z.mod_pos_bound (2 ^ 16) span ltac:(lia)) as B.
  rewrite (Z.mod_small (_ * _)) by nia.
  rewrite Z.rem_mod_nonneg by nia.
  rewrite <- Z.mul_mod by lia. reflexivity.
Qed.

(** Above [2 ^ 16] the 32-bit product [2 ^ 16 * 2 ^ 16] wraps to zero. *)
Lemma randint_multiplier_large_32 (span : Z) :
  2 ^ 16 < span -> randint_multiplier 32 span = 0.
Proof.
  intros Hs. unfold randint_multiplier, unsigned_of_bits, lax_rem, lax_mul,
    lax_convert_element_type.
  change (32 =? 32) with true. change (32 =? 64) with false. cbv iota zeta.
  rewrite !wrap_uint32.
  change (2 ^ 16 mod 2 ^ 32) with (2 ^ 16).
  rewrite (Z.rem_mod_nonneg (2 ^ 16)) by lia.
  rewrite (Z.mod_small (2 ^ 16) span) by lia.
  change (2 ^ 16 * 2 ^ 16 mod 2 ^ 32) with 0.
  apply Z.rem_0_l. lia.
Qed.

Lemma randint_multiplier_small_64 (span : Z) :
  0 < span <= 2 ^ 32 -> randint_multiplier 64 span = 2 ^ 64 mod span.
Proof.
  intros Hs. unfold randint_multiplier, unsigned_of_bits, lax_rem, lax_mul,
    lax_convert_element_type.
  change (64 =? 32) with false. change (64 =? 64) with true. cbv iota zeta.
  assert (W : forall x, wrap uint64 x = x mod 2 ^ 64) by reflexivity.
  rewrite !W.
  change (2 ^ 16 mod 2 ^ 64) with (2 ^ 16).
  rewrite (Z.rem_mod_nonneg (2 ^ 16)) by lia.
  pose proof (Z.mod_pos_bound (2 ^ 16) span ltac:(lia)) as B.
  assert (B16 : 2 ^ 16 mod span <= 2 ^ 16)
    by (apply Z.mod_le; lia).
  assert (P32 : 2 ^ 16 * 2 ^ 16 = 2 ^ 32) by reflexivity.
  assert (P64 : 2 ^ 32 * 2 ^ 32 = 2 ^ 64) by reflexivity.
  rewrite (Z.mod_small (2 ^ 16 mod span * (2 ^ 16 mod span))) by nia.
  rewrite (Z.rem_mod_nonneg (2 ^ 16 mod span * (2 ^ 16 mod span))) by nia.
  rewrite <- Z.mul_mod, P32 by lia.
  pose proof (Z.mod_pos_bound (2 ^ 32) span ltac:(lia)) as B'.
  rewrite (Z.mod_small (2 ^ 32 mod span * (2 ^ 32 mod span))) by nia.
  rewrite Z.rem_mod_nonneg by nia.
  rewrite <- Z.mul_mod, P64 by lia. reflexivity.
Qed.

Lemma randint_multiplier_large_64 (span : Z) :
  2 ^ 32 < span -> randint_multiplier 64 span = 0.
Proof.
  intros Hs. unfold randint_multiplier, unsigned_of_bits, lax_rem, lax_mul,
    lax_convert_element_type.
  change (64 =? 32) with false. change (64 =? 64) with true. cbv iota zeta.
  assert (W : forall x, wrap uint64 x = x mod 2 ^ 64) by reflexivity.
  rewrite !W.
  change (2 ^ 16 mod 2 ^ 64) with (2 ^ 16).
  assert (H16 : 2 ^ 16 < 2 ^ 32) by reflexivity.
  rewrite (Z.rem_mod_nonneg (2 ^ 16)) by lia.
  rewrite (Z.mod_small (2 ^ 16) span) by lia.
  change (2 ^ 16 * 2 ^ 16 mod 2 ^ 64) with (2 ^ 32).
  rewrite (Z.rem_mod_nonneg (2 ^ 32)) by lia.
  rewrite (Z.mod_small (2 ^ 32) span) by lia.
  change (2 ^ 32 * 2 ^ 32 mod 2 ^ 64) with 0.
  apply Z.rem_0_l. lia.
Qed.

(** C7, at a failing input: for dtype int32 and the range [0, 100000)
    the span exceeds [2 ^ 16], the 32-bit product [2 ^ 16 * 2 ^ 16]
    wraps to zero and the multiplier is 0, not [2 ^ 32 mod span = 67296];
    the sample is the low word reduced modulo the span and the high word
    does not enter it, unlike in the formula with the true multiplier. *)
Theorem randint_multiplier_overflow :
  randint_span int32 0 (randint_maxval int32 0 100000) = 100000
  /\ randint_multiplier 32 100000 = 0
  /\ 2 ^ 32 mod 100000 = 67296
  /\ split_pair (key_of 0 0)
     = (1%nat, Ok (key_of 4146024105 967050713,
                   key_of 2718843009 1272950319))
  /\ outcome (_random_bits (PyArray (key_of 4146024105 967050713)) 32 [1%N])
     = Ok (mkarray uint32 [1%N] [2393184043])
  /\ outcome (_random_bits (PyArray (key_of 2718843009 1272950319)) 32 [1%N])
     = Ok (mkarray uint32 [1%N] [452556574])
  /\ _randint (key_of 0 0) [1%N] 0 100000 int32
     = (3%nat, Ok (mkarray int32 [1%N] [452556574 mod 100000]))
  /\ 0 + ((2393184043 mod 100000) * (2 ^ 32 mod 100000)
          + 452556574 mod 100000) mod 100000
     <> 452556574 mod 100000.
Proof.
  do 7 (split; [vm_compute; reflexivity |]).
  vm_compute. discriminate.
Qed.

(** C6, at a failing input: for dtype int32, [minval = 2147483647] and
    [maxval = 0], the sum [minval + 1] wraps to the least int32, the
    coerced [maxval] stays 0, the span is [2 ^ 31 + 1], and the sample
    is neither [minval] nor inside the coerced range. *)
Theorem randint_degenerate_at_dtype_max :
  lax_add int32 2147483647 1 = - 2147483648
  /\ randint_maxval int32 2147483647 0 = 0
  /\ randint_span int32 2147483647 0 = 2147483649
  /\ _randint (key_of 0 0) [1%N] 2147483647 0 int32
     = (3%nat, Ok (mkarray int32 [1%N] [- 1694927075]))
  /\ - 1694927075 <> 2147483647
  /\ ~ (2147483647 <= - 1694927075 < Z.max (2147483647 + 1) 0).
Proof.
  do 4 (split; [vm_compute; reflexivity |]).
  split; lia.
Qed.

(** ** The uniform sampler *)

Lemma land_shiftl_low (m b k : Z) :
  0 <= k -> 0 <= m < 2 ^ k -> Z.land m (Z.shiftl b k) = 0.
Proof.
  intros Hk Hm. apply Z.bits_inj'. intros i Hi.
  rewrite Z.land_spec, Z.bits_0.
  destruct (Z_lt_le_dec i k) as [L | G].
  - rewrite (Z.shiftl_spec_low b k i L). apply andb_false_r.
  - rewrite <- (Z.mod_small m (2 ^ k)) by lia.
    rewrite Z.mod_pow2_bits_high by lia. reflexivity.
Qed.

Lemma lor_shiftl_add (m b k : Z) :
  0 <= k -> 0 <= m < 2 ^ k -> Z.lor m (Z.shiftl b k) = b * 2 ^ k + m.
Proof.
  intros Hk Hm.
  pose proof (land_shiftl_low m b k Hk Hm) as L.
  rewrite <- Z.lxor_lor by exact L.
  rewrite <- Z.add_nocarry_lxor by exact L.
  rewrite Z.shiftl_mul_pow2 by exact Hk. lia.
Qed.

(** The sign, exponent and mantissa fields of a pattern with mantissa
    [m] and exponent field [b]. *)
Lemma decode_fields (nm nexp b m : Z) :
  0 <= nm -> 0 <= nexp -> 0 <= b < 2 ^ nexp -> 0 <= m < 2 ^ nm ->
  let w := Z.lor m (Z.shiftl b nm) in
  w mod 2 ^ nm = m
  /\ (w / 2 ^ nm) mod 2 ^ nexp = b
  /\ (w / 2 ^ (nm + nexp)) mod 2 = 0.
Proof.
  intros Hnm Hne Hb Hm. cbv zeta. rewrite lor_shiftl_add by assumption.
  assert (P : 0 < 2 ^ nm) by (apply Z.pow_pos_nonneg; lia).
  assert (Q : 0 < 2 ^ nexp) by (apply Z.pow_pos_nonneg; lia).
  split; [| split].
  - rewrite Z.add_comm, Z_mod_plus_full. apply Z.mod_small. exact Hm.
  - rewrite Z.div_add_l by lia. rewrite (Z.div_small m) by exact Hm.
    rewrite Z.add_0_r. apply Z.mod_small. exact Hb.
  - rewrite Z.div_small; [reflexivity |].
    rewrite Z.pow_add_r by assumption. nia.
Qed.

Lemma mantissa_bound (dt : dtype) (raw : Z) :
  dt = float32 \/ dt = float64 -> 0 <= raw < 2 ^ dtype_bits dt ->
  0 <= mantissa_of dt raw < 2 ^ finfo_nmant dt.
Proof.
  intros Hdt Hr. unfold mantissa_of.
  assert (Hk : 0 <= dtype_bits dt - finfo_nmant dt)
    by (destruct Hdt as [-> | ->]; cbn; lia).
  rewrite Z.shiftr_div_pow2 by exact Hk.
  assert (P : 0 < 2 ^ (dtype_bits dt - finfo_nmant dt))
    by (apply Z.pow_pos_nonneg; lia).
  assert (E : 2 ^ dtype_bits dt
              = 2 ^ (dtype_bits dt - finfo_nmant dt) * 2 ^ finfo_nmant dt).
  { rewrite <- Z.pow_add_r; [f_equal; lia | lia |].
    destruct Hdt as [-> | ->]; cbn; lia. }
  split.
  - apply Z.div_pos; lia.
  - apply Z.div_lt_upper_bound; [exact P |]. lia.
Qed.

Lemma uniform_float_bits_eq (dt : dtype) (raw : Z) :
  dt = float32 \/ dt = float64 -> 0 <= raw < 2 ^ dtype_bits dt ->
  uniform_float_bits dt (bits_dtype (dtype_bits dt)) raw
  = Z.lor (mantissa_of dt raw) (Z.shiftl (float_bias dt) (finfo_nmant dt)).
Proof.
  intros Hdt Hr.
  pose proof (mantissa_bound dt raw Hdt Hr) as Hm.
  unfold uniform_float_bits, lax_or, lax_shift_right_logical, view_one.
  fold (float_bias dt).
  assert (Hw : forall x, wrap (bits_dtype (dtype_bits dt)) x
                         = x mod 2 ^ dtype_bits dt)
    by (destruct Hdt as [-> | ->]; reflexivity).
  assert (Hb : dtype_bits (bits_dtype (dtype_bits dt)) = dtype_bits dt)
    by (destruct Hdt as [-> | ->]; reflexivity).
  rewrite Hw, Hb. unfold wrap_unsigned.
  rewrite (Z.mod_small raw) by exact Hr.
  fold (mantissa_of dt raw).
  rewrite Z.mod_small; [reflexivity |].
  assert (2 ^ finfo_nmant dt <= 2 ^ dtype_bits dt).
  { apply Z.pow_le_mono_r; [lia |]. destruct Hdt as [-> | ->]; cbn; lia. }
  lia.
Qed.

Lemma unit_fraction (p : positive) (m : Z) :
  (inject_Z (Z.pos p + m) * (1 # p) == 1 + inject_Z m / inject_Z (Z.pos p))%Q.
Proof.
  unfold Qdiv, Qinv, inject_Z. cbn [Qnum Qden].
  unfold Qeq, Qmult, Qplus. cbn [Qnum Qden].
  rewrite !Pos.mul_1_l. lia.
Qed.

Lemma decode_unit (dt : dtype) (raw : Z) :
  dt = float32 \/ dt = float64 -> 0 <= raw < 2 ^ dtype_bits dt ->
  (decode_float dt (uniform_float_bits dt (bits_dtype (dtype_bits dt)) raw)
   == 1 + unit_value dt raw)%Q.
Proof.
  intros Hdt Hr. rewrite (uniform_float_bits_eq dt raw Hdt Hr).
  pose proof (mantissa_bound dt raw Hdt Hr) as Hm.
  unfold unit_value. set (m := mantissa_of dt raw) in *.
  unfold decode_float. cbv zeta.
  assert (F : 0 <= finfo_nmant dt /\ 0 <= dtype_bits dt - finfo_nmant dt - 1
              /\ 0 < float_bias dt < 2 ^ (dtype_bits dt - finfo_nmant dt - 1)).
  { destruct Hdt as [-> | ->]; cbn; lia. }
  destruct F as (F1 & F2 & F3).
  destruct (decode_fields (finfo_nmant dt) (dtype_bits dt - finfo_nmant dt - 1)
              (float_bias dt) m F1 F2 ltac:(lia) Hm) as (E1 & E2 & E3).
  rewrite E1, E2, E3.
  destruct (float_bias dt =? 0) eqn:B; [apply Z.eqb_eq in B; lia |].
  change (0 =? 0) with true. cbv iota.
  replace (float_bias dt - float_bias dt - finfo_nmant dt)
    with (- finfo_nmant dt) by lia.
  destruct Hdt as [-> | ->].
  - change (finfo_nmant float32) with 23.
    change (Qpower 2 (- 23)) with (1 # 8388608)%Q.
    change (2 ^ 23) with (Z.pos 8388608). apply unit_fraction.
  - change (finfo_nmant float64) with 52.
    change (Qpower 2 (- 52)) with (1 # 4503599627370496)%Q.
    change (2 ^ 52) with (Z.pos 4503599627370496). apply unit_fraction.
Qed.

Lemma unit_value_range (dt : dtype) (raw : Z) :
  dt = float32 \/ dt = float64 -> 0 <= raw < 2 ^ dtype_bits dt ->
  (0 <= unit_value dt raw /\ unit_value dt raw < 1)%Q.
Proof.
  intros Hdt Hr. pose proof (mantissa_bound dt raw Hdt Hr) as Hm.
  unfold unit_value. set (m := mantissa_of dt raw) in *.
  assert (P : exists p, 2 ^ finfo_nmant dt = Z.pos p).
  { destruct Hdt as [-> | ->]; eexists; reflexivity. }
  destruct P as [p Ep]. rewrite Ep in *.
  unfold Qdiv, Qinv, inject_Z. cbn [Qnum Qden].
  unfold Qle, Qlt, Qmult. cbn [Qnum Qden].
  rewrite !Z.mul_1_r, !Z.mul_1_l, Pos.mul_1_l. lia.
Qed.

Lemma unit_value_representable (dt : dtype) (raw : Z) :
  dt = float32 \/ dt = float64 -> 0 <= raw < 2 ^ dtype_bits dt ->
  representable dt (unit_value dt raw).
Proof.
  intros Hdt Hr. pose proof (mantissa_bound dt raw Hdt Hr) as Hm.
  unfold unit_value. set (m := mantissa_of dt raw) in *.
  exists m, (- finfo_nmant dt). split; [| split].
  - rewrite Z.abs_eq by lia.
    assert (2 ^ finfo_nmant dt < 2 ^ (finfo_nmant dt + 1)).
    { apply Z.pow_lt_mono_r; destruct Hdt as [-> | ->]; cbn; lia. }
    lia.
  - destruct Hdt as [-> | ->]; cbn; lia.
  - destruct Hdt as [-> | ->].
    + change (finfo_nmant float32) with 23.
      change (Qpower 2 (- 23)) with (1 # 8388608)%Q.
      change (2 ^ 23) with (Z.pos 8388608). reflexivity.
    + change (finfo_nmant float64) with 52.
      change (Qpower 2 (- 52)) with (1 # 4503599627370496)%Q.
      change (2 ^ 52) with (Z.pos 4503599627370496). reflexivity.
Qed.

Lemma representable_eq (dt : dtype) (x y : Q) :
  (x == y)%Q -> representable dt x -> representable dt y.
Proof.
  intros E (m & e & H1 & H2 & H3). exists m, e. repeat split; try assumption.
  - apply H2.
  - apply H2.
  - now rewrite <- E.
Qed.

Lemma representable_small_int (dt : dtype) (z : Z) :
  dt = float32 \/ dt = float64 -> Z.abs z <= 1 ->
  representable dt (inject_Z z).
Proof.
  intros Hdt Hz. exists z, 0. split; [| split].
  - assert (2 <= 2 ^ (finfo_nmant dt + 1)).
    { destruct Hdt as [-> | ->]; cbn; lia. }
    lia.
  - destruct Hdt as [-> | ->]; cbn; lia.
  - cbn. now rewrite Qmult_1_r.
Qed.

Lemma pair_words_range (hi lo : Z) :
  in_u32 hi -> in_u32 lo -> 0 <= pair_words hi lo < 2 ^ 64.
Proof.
  unfold in_u32, pair_words. intros Hh Hl.
  rewrite Z.lor_comm, lor_shiftl_add by lia.
  change (2 ^ 64) with (2 ^ 32 * 2 ^ 32). nia.
Qed.

Lemma bits_of_words_range (bw k0 k1 : Z) (l : list Z) :
  bw = 32 \/ bw = 64 ->
  Forall (fun w => 0 <= w < 2 ^ bw) (bits_of_words bw (hash_words k0 k1 l)).
Proof.
  intros Hb. pose proof (hash_words_in_u32 k0 k1 l) as Hr.
  unfold bits_of_words. destruct Hb as [-> | ->].
  - change (32 =? 64) with false. cbv iota. exact Hr.
  - change (64 =? 64) with true. cbv iota.
    rewrite Forall_forall in *. intros w Hw. unfold zip_with in Hw.
    apply in_map_iff in Hw. destruct Hw as ([hi lo] & <- & Hin).
    cbn [fst snd]. apply pair_words_range; apply Hr.
    + apply in_combine_l in Hin. unfold halves in Hin. cbn [fst] in Hin.
      eapply In_firstn_inv, Hin.
    + apply in_combine_r in Hin. unfold halves in Hin. cbn [snd] in Hin.
      eapply In_skipn_inv, Hin.
Qed.

(** [_uniform] for a float dtype of 32 or 64 bits and a request that
    fits one call of the hash, over any implementation of the floats. *)
Lemma uniform_eval {F : Type} `{FloatOps F} (k0 k1 : Z) (shp : list N)
  (dt : dtype) (minval maxval : F) :
  dt = float32 \/ dt = float64 ->
  max_count_of (dtype_bits dt) shp < uint32_max ->
  _uniform (PyArray (key_of k0 k1)) shp dt minval maxval
  = (1%nat,
     Ok (mkarray dt shp
           (map (uniform_element dt (bits_dtype (dtype_bits dt)) minval maxval)
              (bits_of_words (dtype_bits dt)
                 (hash_words k0 k1
                    (counter_words (max_count_of (dtype_bits dt) shp))))))).
Proof.
  intros Hdt Hm.
  assert (Hb : dtype_bits dt = 32 \/ dtype_bits dt = 64)
    by (destruct Hdt as [-> | ->]; auto).
  unfold _uniform, _check_shape. rewrite bind_ret.
  replace (is_floating dt) with true by (destruct Hdt as [-> | ->]; reflexivity).
  cbn [negb].
  replace ((dtype_bits dt =? 32) || (dtype_bits dt =? 64)) with true
    by (destruct Hdt as [-> | ->]; reflexivity).
  cbn [negb].
  rewrite (random_bits_eval k0 k1 _ shp Hb Hm), bind_ok.
  cbn [data dtype_of shape].
  rewrite lax_reshape_ok.
  - rewrite bind_ret. cbn [data]. rewrite !map_map. reflexivity.
  - cbn [data]. rewrite !length_map. apply bits_of_words_size, Hb.
Qed.

Lemma rnd_one (rnd : dtype -> Q -> Q) (dt : dtype) :
  rounds_exactly rnd -> dt = float32 \/ dt = float64 ->
  (rnd dt (rnd float64 1) == 1)%Q.
Proof.
  intros Hr Hdt.
  assert (E64 : (rnd float64 1 == 1)%Q).
  { apply Hr. apply (representable_small_int float64 1); [now right | lia]. }
  transitivity (rnd float64 1%Q); [| exact E64]. apply Hr.
  apply (representable_eq dt (inject_Z 1)); [symmetry; exact E64 |].
  apply (representable_small_int dt 1 Hdt). lia.
Qed.

(** The float with exponent field of 1.0 and the random mantissa, less
    1.0, is the mantissa scaled into [0, 1). *)
Lemma uniform_unit_value (rnd : dtype -> Q -> Q) (dt : dtype) (raw : Z) :
  rounds_exactly rnd -> dt = float32 \/ dt = float64 ->
  0 <= raw < 2 ^ dtype_bits dt ->
  (rnd dt (decode_float dt
             (uniform_float_bits dt (bits_dtype (dtype_bits dt)) raw)
           - rnd dt (rnd float64 1))
   == unit_value dt raw)%Q.
Proof.
  intros Hr Hdt Hraw.
  assert (E : (decode_float dt
                 (uniform_float_bits dt (bits_dtype (dtype_bits dt)) raw)
               - rnd dt (rnd float64 1) == unit_value dt raw)%Q).
  { rewrite (decode_unit dt raw Hdt Hraw), (rnd_one rnd dt Hr Hdt). ring. }
  etransitivity; [| exact E]. apply Hr.
  apply (representable_eq dt (unit_value dt raw)); [symmetry; exact E |].
  now apply unit_value_representable.
Qed.

Lemma rnd_of_representable (rnd : dtype -> Q -> Q) (dt : dtype) (x y : Q) :
  rounds_exactly rnd -> (x == y)%Q -> representable dt y ->
  (rnd dt x == y)%Q.
Proof.
  intros Hr E Hy. transitivity x; [| exact E]. apply Hr.
  apply (representable_eq dt y); [symmetry; exact E | exact Hy].
Qed.

Lemma uniform_element_unit (rnd : dtype -> Q -> Q) (dt : dtype)
  (minval maxval : Q) (raw : Z) :
  rounds_exactly rnd -> dt = float32 \/ dt = float64 ->
  0 <= raw < 2 ^ dtype_bits dt ->
  (minval == 0)%Q -> (maxval == 1)%Q ->
  (@uniform_element Q (QFloat rnd) dt (bits_dtype (dtype_bits dt))
     minval maxval raw == unit_value dt raw)%Q.
Proof.
  intros Hr Hdt Hraw Hmin Hmax.
  pose proof (uniform_unit_value rnd dt raw Hr Hdt Hraw) as Ev.
  destruct (unit_value_range dt raw Hdt Hraw) as [U0 U1].
  pose proof (unit_value_representable dt raw Hdt Hraw) as Ur.
  assert (R0 : representable dt 0%Q)
    by (apply (representable_small_int dt 0 Hdt); lia).
  assert (R1 : representable dt 1%Q)
    by (apply (representable_small_int dt 1 Hdt); lia).
  unfold uniform_element. cbv zeta.
  cbn [f_convert f_literal f_bitcast f_sub f_add f_mul f_max QFloat].
  set (v := rnd dt (decode_float dt _ - rnd dt (rnd float64 1))%Q) in *.
  assert (Emn : (rnd dt minval == 0)%Q)
    by (apply rnd_of_representable; assumption).
  assert (Emx : (rnd dt maxval == 1)%Q)
    by (apply rnd_of_representable; assumption).
  assert (Ed : (rnd dt (rnd dt maxval - rnd dt minval) == 1)%Q).
  { apply rnd_of_representable; [exact Hr | | exact R1].
    rewrite Emn, Emx. ring. }
  assert (Em : (rnd dt (v * rnd dt (rnd dt maxval - rnd dt minval))
                == unit_value dt raw)%Q).
  { apply rnd_of_representable; [exact Hr | | exact Ur].
    rewrite Ed, Ev. ring. }
  assert (Ea : (rnd dt (rnd dt (v * rnd dt (rnd dt maxval - rnd dt minval))
                        + rnd dt minval) == unit_value dt raw)%Q).
  { apply rnd_of_representable; [exact Hr | | exact Ur].
    rewrite Em, Emn. ring. }
  assert (Hle : (rnd dt minval
                 <= rnd dt (rnd dt (v * rnd dt (rnd dt maxval - rnd dt minval))
                            + rnd dt minval))%Q).
  { apply Qle_trans with 0%Q; [apply Qle_lteq; right; exact Emn |].
    apply Qle_trans with (unit_value dt raw); [exact U0 |].
    apply Qle_lteq. right. symmetry. exact Ea. }
  rewrite (Q.max_r _ _ Hle). exact Ea.
Qed.

(** C5, amended: for a key of two uint32 words, a float dtype of 32 or
    64 bits and a request that fits one call of the hash, [_uniform]
    builds each element from a raw word by keeping its high
    [mantissa_bits] bits (a logical right shift by [nbits - nmant], not
    a mask of the low bits), OR-ing in the bit pattern of 1.0,
    bit-casting to float and subtracting 1.0, which yields the mantissa
    scaled into [0, 1); it returns
    [max(minval, value * (maxval - minval) + minval)], so every element
    is at least [minval] and, for [minval = 0] and [maxval = 1], lies in
    [0, 1).  Floats are the finite rationals they denote and rounding
    is any function that keeps the numbers of the format. *)
Theorem uniform_unit_interval (rnd : dtype -> Q -> Q) (k0 k1 : Z)
  (shp : list N) (dt : dtype) (minval maxval : Q) :
  rounds_exactly rnd ->
  dt = float32 \/ dt = float64 ->
  max_count_of (dtype_bits dt) shp < uint32_max ->
  exists (raw : list Z) (out : ndarray Q),
    _random_bits (PyArray (key_of k0 k1)) (dtype_bits dt) shp
    = (1%nat, Ok (mkarray (bits_dtype (dtype_bits dt)) shp raw))
    /\ @_uniform Q (QFloat rnd) (PyArray (key_of k0 k1)) shp dt minval maxval
       = (1%nat, Ok out)
    /\ dtype_of out = dt
    /\ shape out = shp
    /\ data out
       = map (fun w =>
                let value :=
                  rnd dt (decode_float dt
                            (uniform_float_bits dt
                               (bits_dtype (dtype_bits dt)) w)
                          - rnd dt (rnd float64 1))%Q in
                Qmax (rnd dt minval)
                  (rnd dt (rnd dt (value
                                   * rnd dt (rnd dt maxval - rnd dt minval))
                           + rnd dt minval))%Q)
           raw
    /\ Forall (fun w =>
                 uniform_float_bits dt (bits_dtype (dtype_bits dt)) w
                 = Z.lor (Z.shiftr w (dtype_bits dt - finfo_nmant dt))
                         (view_one dt)
                 /\ (rnd dt (decode_float dt
                               (uniform_float_bits dt
                                  (bits_dtype (dtype_bits dt)) w)
                             - rnd dt (rnd float64 1))
                     == unit_value dt w)%Q
                 /\ (0 <= unit_value dt w)%Q /\ (unit_value dt w < 1)%Q)
              raw
    /\ Forall (fun v => (rnd dt minval <= v)%Q) (data out)
    /\ ((minval == 0)%Q -> (maxval == 1)%Q ->
        Forall (fun v => (0 <= v)%Q /\ (v < 1)%Q) (data out)).
Proof.
  intros Hr Hdt Hm.
  assert (Hb : dtype_bits dt = 32 \/ dtype_bits dt = 64)
    by (destruct Hdt as [-> | ->]; auto).
  pose proof (bits_of_words_range (dtype_bits dt) k0 k1
                (counter_words (max_count_of (dtype_bits dt) shp)) Hb) as Hrange.
  set (raw := bits_of_words (dtype_bits dt)
                (hash_words k0 k1
                   (counter_words (max_count_of (dtype_bits dt) shp)))) in *.
  exists raw. eexists.
  split; [apply random_bits_eval; assumption |].
  split; [apply (uniform_eval k0 k1 shp dt minval maxval Hdt Hm) |].
  cbn [dtype_of shape data]. fold raw.
  split; [reflexivity |]. split; [reflexivity |]. split; [reflexivity |].
  rewrite Forall_forall in Hrange.
  split; [| split].
  - apply Forall_forall. intros w Hw. specialize (Hrange w Hw).
    split; [| split].
    + rewrite (uniform_float_bits_eq dt w Hdt Hrange). reflexivity.
    + apply uniform_unit_value; assumption.
    + apply unit_value_range; assumption.
  - apply Forall_forall. intros v Hv. apply in_map_iff in Hv.
    destruct Hv as (w & <- & _). unfold uniform_element. cbv zeta.
    cbn [f_max QFloat]. apply Q.le_max_l.
  - intros Hmin Hmax. apply Forall_forall. intros v Hv.
    apply in_map_iff in Hv. destruct Hv as (w & <- & Hw).
    specialize (Hrange w Hw).
    rewrite (uniform_element_unit rnd dt minval maxval w Hr Hdt Hrange
               Hmin Hmax).
    apply unit_value_range; assumption.
Qed.

Lemma exact_rnd_rounds_exactly : rounds_exactly exact_rnd.
Proof. intros dt x _. apply Qred_correct. Qed.

Lemma uniform_unit_interval_witness :
  rounds_exactly exact_rnd
  /\ (float32 = float32 \/ float32 = float64)
  /\ max_count_of (dtype_bits float32) [2%N] < uint32_max
  /\ exists out,
       @_uniform Q (QFloat exact_rnd) (PyArray (key_of 0 0)) [2%N] float32
         0%Q 1%Q
       = (1%nat, Ok out)
       /\ Forall (fun v => (0 <= v)%Q /\ (v < 1)%Q) (data out).
Proof.
  assert (Hd : float32 = float32 \/ float32 = float64) by (left; reflexivity).
  assert (Hm : max_count_of (dtype_bits float32) [2%N] < uint32_max)
    by reflexivity.
  split; [exact exact_rnd_rounds_exactly |].
  split; [exact Hd |]. split; [exact Hm |].
  destruct (uniform_unit_interval exact_rnd 0 0 [2%N] float32 0%Q 1%Q
              exact_rnd_rounds_exactly Hd Hm)
    as (raw & out & _ & Eo & _ & _ & _ & _ & _ & Hunit).
  exists out. split; [exact Eo |].
  apply Hunit; reflexivity.
Defined.

(** On the raw word [1797259609] drawn for the key [(0, 0)], the high
    23 bits the code keeps differ from the low 23 bits a mask would
    keep, and so do the resulting values. *)
Lemma uniform_claim_counterexample :
  _random_bits (PyArray (key_of 0 0)) 32 [1%N]
  = (1%nat, Ok (mkarray uint32 [1%N] [1797259609]))
  /\ uniform_float_bits float32 uint32 1797259609
     = Z.lor (Z.shiftr 1797259609 9) 1065353216
  /\ UniformAsStated.float_bits float32 1797259609
     = Z.lor (Z.land 1797259609 (2 ^ 23 - 1)) 1065353216
  /\ uniform_float_bits float32 uint32 1797259609
     <> UniformAsStated.float_bits float32 1797259609
  /\ @_uniform Q RunFloat (PyArray (key_of 0 0)) [1%N] float32 0%Q 1%Q
     = (1%nat, Ok (mkarray float32 [1%N] [(857 # 2048)%Q]))
  /\ (UniformAsStated.unit_value float32 1797259609 == 2097497 # 8388608)%Q
  /\ ~ (857 # 2048 == 2097497 # 8388608)%Q.
Proof.
  split; [vm_compute; reflexivity |].
  split; [vm_compute; reflexivity |].
  split; [vm_compute; reflexivity |].
  split; [vm_compute; discriminate |].
  split; [vm_compute; reflexivity |].
  split; [vm_compute; reflexivity |].
  vm_compute. discriminate.
Qed.

(** ** The gamma sampler *)

Lemma outcome_bind_step {A B : Type} (m : M A) (f : A -> M B) (a : A) :
  outcome m = Ok a -> outcome (bind m f) = outcome (f a).
Proof.
  destruct m as [n r]. unfold outcome. cbn [snd]. intros ->.
  unfold bind. destruct (f a). reflexivity.
Qed.

Lemma while_loop_unfold {S : Type} (fuel : nat) (cond_fn : S -> bool)
  (body_fn : S -> M S) (s : S) :
  while_loop fuel cond_fn body_fn s
  = if cond_fn s
    then match fuel with
         | O => ret None
         | Datatypes.S f =>
             bind (body_fn s) (fun s' => while_loop f cond_fn body_fn s')
         end
    else ret (Some s).
Proof. destruct fuel; reflexivity. Qed.

(** A loop that returns a state ran its body some number of times within
    the bound, the condition holding before each run and failing at
    the end. *)
Lemma while_loop_returns {S : Type} (cond_fn : S -> bool)
  (body_fn : S -> M S) (fuel : nat) (s s' : S) :
  outcome (while_loop fuel cond_fn body_fn s) = Ok (Some s') ->
  exists n : nat,
    (n <= fuel)%nat
    /\ outcome (iterate_body body_fn n s) = Ok s'
    /\ cond_fn s' = false
    /\ forall j, (j < n)%nat ->
         exists sj, outcome (iterate_body body_fn j s) = Ok sj
                    /\ cond_fn sj = true.
Proof.
  revert s. induction fuel as [| fuel IH]; intros s H;
    rewrite while_loop_unfold in H; destruct (cond_fn s) eqn:C.
  - discriminate H.
  - injection H as <-. exists 0%nat. split; [lia |]. split; [reflexivity |].
    split; [exact C |]. intros j Hj. lia.
  - apply outcome_bind_ok in H. destruct H as (s1 & H1 & H2).
    destruct (IH s1 H2) as (n & Hn & Hit & Hc & Hall).
    exists (Datatypes.S n). split; [lia |]. split; [| split].
    + cbn [iterate_body]. now rewrite (outcome_bind_step _ _ s1 H1).
    + exact Hc.
    + intros [| j] Hj.
      * exists s. split; [reflexivity | exact C].
      * destruct (Hall j ltac:(lia)) as (sj & Hsj & Hcj).
        exists sj. split; [| exact Hcj].
        cbn [iterate_body]. now rewrite (outcome_bind_step _ _ s1 H1).
  - injection H as <-. exists 0%nat. split; [lia |]. split; [reflexivity |].
    split; [exact C |]. intros j Hj. lia.
Qed.

(** Conversely, a bound that covers the runs needed gives the result. *)
Lemma while_loop_enough {S : Type} (cond_fn : S -> bool)
  (body_fn : S -> M S) (n fuel : nat) (s s' : S) :
  (n <= fuel)%nat ->
  outcome (iterate_body body_fn n s) = Ok s' ->
  cond_fn s' = false ->
  (forall j, (j < n)%nat ->
     exists sj, outcome (iterate_body body_fn j s) = Ok sj
                /\ cond_fn sj = true) ->
  outcome (while_loop fuel cond_fn body_fn s) = Ok (Some s').
Proof.
  revert fuel s. induction n as [| n IH]; intros fuel s Hf Hit Hc Hall;
    rewrite while_loop_unfold.
  - cbn in Hit. injection Hit as ->. rewrite Hc. reflexivity.
  - destruct (Hall 0%nat ltac:(lia)) as (s0 & H0 & C0).
    cbn in H0. injection H0 as <-. rewrite C0.
    destruct fuel as [| fuel]; [lia |].
    cbn [iterate_body] in Hit. apply outcome_bind_ok in Hit.
    destruct Hit as (s1 & H1 & H2).
    rewrite (outcome_bind_step _ _ s1 H1).
    apply IH; [lia | exact H2 | exact Hc |].
    intros j Hj. destruct (Hall (Datatypes.S j) ltac:(lia)) as (sj & Hsj & Hcj).
    exists sj. split; [| exact Hcj].
    cbn [iterate_body] in Hsj.
    now rewrite (outcome_bind_step _ _ s1 H1) in Hsj.
Qed.

Lemma gamma_cond_init {F : Type} {ops : FloatOps F} {math : FloatMath F}
  (dt : dtype) (d : F) (key : ndarray Z) :
  f_le (_constant_like dt (-1)) (_constant_like dt 0) = true ->
  _cond_fn dt d (gamma_init dt key) = true.
Proof. intros H. unfold _cond_fn, gamma_init. now rewrite H. Qed.

Lemma gamma_result_nonzero {F : Type} {ops : FloatOps F}
  {math : FloatMath F} (dt : dtype) (d boost : F) (s : gamma_state) :
  f_eq (f_tiny dt) (_constant_like dt 0) = false ->
  f_eq (gamma_result dt d boost s) (_constant_like dt 0) = false.
Proof.
  intros Ht. destruct s as [[[k X] V] U]. unfold gamma_result. cbv zeta.
  destruct (f_eq (f_mul dt (f_mul dt d V) boost) (_constant_like dt 0)) eqn:E;
    assumption.
Qed.

(** The three steps of [_gamma_one]: the split, the draw for the boost,
    and the loop. *)
Lemma gamma_one_steps {F : Type} {ops : FloatOps F} {math : FloatMath F}
  (x64 : bool) (dt : dtype) (fuel : nat) (key : ndarray Z) (alpha : F)
  (r : option F) :
  outcome (_gamma_one x64 dt fuel key alpha) = Ok r <->
  exists ks u final,
    outcome (split_pair key) = Ok ks
    /\ outcome (ua <- uniform x64 (PyArray (snd ks)) [] dt
                        (f_literal 0) (f_literal 1) ;; item ua) = Ok u
    /\ outcome (while_loop fuel (_cond_fn dt (gamma_d dt alpha))
                  (_body_fn x64 dt (gamma_c dt alpha))
                  (gamma_init dt (fst ks))) = Ok final
    /\ r = option_map
             (gamma_result dt (gamma_d dt alpha) (gamma_boost dt u alpha))
             final.
Proof.
  unfold _gamma_one. cbv zeta. split.
  - intros H. apply outcome_bind_ok in H. destruct H as ([k sk] & Hs & H).
    apply outcome_bind_ok in H. destruct H as (ua & Hu & H).
    apply outcome_bind_ok in H. destruct H as (u & Hi & H).
    apply outcome_bind_ok in H. destruct H as (final & Hw & H).
    exists (k, sk), u, final. cbn [fst snd].
    split; [exact Hs |]. split.
    { now rewrite (outcome_bind_step _ _ ua Hu). }
    split; [exact Hw |]. now injection H as <-.
  - intros ([k sk] & u & final & Hs & Hu & Hw & ->). cbn [fst snd] in *.
    rewrite (outcome_bind_step _ _ (k, sk) Hs).
    apply outcome_bind_ok in Hu. destruct Hu as (ua & Hu & Hi).
    rewrite (outcome_bind_step _ _ ua Hu).
    rewrite (outcome_bind_step _ _ u Hi).
    rewrite (outcome_bind_step _ _ final Hw). reflexivity.
Qed.

(** C8: over any implementation of the floats in which [-1 <= 0] and
    the smallest positive normal number differs from 0, the loop of
    [_gamma_one] starts from the state [(key, 0, -1, 0)], on which the
    condition holds, so the body runs at least once; the condition is
    [V <= 0] or ([U >= 1 - 0.0331 X^2] and
    [log U >= X / 2 + d (1 - V + log V)]); a returned sample is
    [z = d V boost] for the first state at which the condition fails,
    replaced by the smallest positive number when [z = 0], and is never
    equal to zero; and a bound on the iterations that covers the runs
    needed yields that sample. *)
Theorem gamma_one_never_zero {F : Type} {ops : FloatOps F}
  {math : FloatMath F} (x64 : bool) (dt : dtype) (fuel : nat)
  (key : ndarray Z) (alpha : F) :
  f_le (_constant_like dt (-1)) (_constant_like dt 0) = true ->
  f_eq (f_tiny dt) (_constant_like dt 0) = false ->
  let zero : F := _constant_like dt 0 in
  let one : F := _constant_like dt 1 in
  let d := gamma_d dt alpha in
  let body := _body_fn x64 dt (gamma_c dt alpha) in
  (forall k, gamma_init dt k = (k, zero, _constant_like dt (-1), zero)
             /\ _cond_fn dt d (gamma_init dt k) = true)
  /\ (forall k X V U,
        _cond_fn dt d (k, X, V, U)
        = f_le V zero
          || (f_ge U (f_sub dt one
                        (f_mul dt (_constant_like dt (331 # 10000))
                           (f_mul dt X X)))
              && f_ge (f_log dt U)
                      (f_add dt (f_mul dt X (_constant_like dt (1 # 2)))
                         (f_mul dt d
                            (f_add dt (f_sub dt one V) (f_log dt V))))))
  /\ (forall z,
        outcome (_gamma_one x64 dt fuel key alpha) = Ok (Some z) ->
        f_eq z zero = false
        /\ exists ks u n k X V U,
             outcome (split_pair key) = Ok ks
             /\ outcome (ua <- uniform x64 (PyArray (snd ks)) [] dt
                                 (f_literal 0) (f_literal 1) ;; item ua)
                = Ok u
             /\ (S n <= fuel)%nat
             /\ outcome (iterate_body body (S n) (gamma_init dt (fst ks)))
                = Ok (k, X, V, U)
             /\ _cond_fn dt d (k, X, V, U) = false
             /\ (forall j, (j <= n)%nat ->
                   exists sj,
                     outcome (iterate_body body j (gamma_init dt (fst ks)))
                     = Ok sj
                     /\ _cond_fn dt d sj = true)
             /\ let z0 := f_mul dt (f_mul dt d V) (gamma_boost dt u alpha) in
                z = (if f_eq z0 zero then f_tiny dt else z0))
  /\ (forall ks u n final,
        outcome (split_pair key) = Ok ks ->
        outcome (ua <- uniform x64 (PyArray (snd ks)) [] dt
                         (f_literal 0) (f_literal 1) ;; item ua) = Ok u ->
        outcome (iterate_body body n (gamma_init dt (fst ks))) = Ok final ->
        _cond_fn dt d final = false ->
        (forall j, (j < n)%nat ->
           exists sj,
             outcome (iterate_body body j (gamma_init dt (fst ks))) = Ok sj
             /\ _cond_fn dt d sj = true) ->
        (n <= fuel)%nat ->
        outcome (_gamma_one x64 dt fuel key alpha)
        = Ok (Some (gamma_result dt d (gamma_boost dt u alpha) final))).
Proof.
  intros Hneg Htiny. cbv zeta. split; [| split; [| split]].
  - intros k. split; [reflexivity | now apply gamma_cond_init].
  - intros k X V U. reflexivity.
  - intros z Hz. apply gamma_one_steps in Hz.
    destruct Hz as (ks & u & final & Hs & Hu & Hw & Hr).
    destruct final as [final |]; [| discriminate Hr].
    cbn [option_map] in Hr. injection Hr as ->.
    split; [now apply gamma_result_nonzero |].
    apply while_loop_returns in Hw.
    destruct Hw as (n & Hn & Hit & Hc & Hall).
    destruct n as [| n].
    { cbn in Hit. injection Hit as <-.
      rewrite (gamma_cond_init dt _ _ Hneg) in Hc. discriminate Hc. }
    destruct final as [[[k X] V] U].
    exists ks, u, n, k, X, V, U.
    split; [exact Hs |]. split; [exact Hu |]. split; [exact Hn |].
    split; [exact Hit |]. split; [exact Hc |]. split.
    + intros j Hj. apply Hall. lia.
    + reflexivity.
  - intros ks u n final Hs Hu Hit Hc Hall Hn.
    apply gamma_one_steps. exists ks, u, (Some final).
    split; [exact Hs |]. split; [exact Hu |]. split; [| reflexivity].
    now apply (while_loop_enough _ _ n).
Qed.

Lemma gamma_one_never_zero_witness :
  @f_le Q RunFloat RunFloatMath
    (@_constant_like Q RunFloat float32 (-1))
    (@_constant_like Q RunFloat float32 0) = true
  /\ @f_eq Q RunFloat RunFloatMath
       (@f_tiny Q RunFloat RunFloatMath float32)
       (@_constant_like Q RunFloat float32 0) = false
  /\ exists z,
       outcome (@_gamma_one Q RunFloat RunFloatMath true float32 1
                  zero_key 1%Q) = Ok (Some z)
       /\ @f_eq Q RunFloat RunFloatMath z
            (@_constant_like Q RunFloat float32 0) = false.
Proof.
  assert (H1 : @f_le Q RunFloat RunFloatMath
                 (@_constant_like Q RunFloat float32 (-1))
                 (@_constant_like Q RunFloat float32 0) = true)
    by reflexivity.
  assert (H2 : @f_eq Q RunFloat RunFloatMath
                 (@f_tiny Q RunFloat RunFloatMath float32)
                 (@_constant_like Q RunFloat float32 0) = false)
    by reflexivity.
  split; [exact H1 |]. split; [exact H2 |].
  destruct (@gamma_one_never_zero Q RunFloat RunFloatMath true float32 1
              zero_key 1%Q H1 H2) as (_ & _ & Hret & _).
  destruct (outcome (@_gamma_one Q RunFloat RunFloatMath true float32 1
                       zero_key 1%Q)) as [[z |] | e] eqn:E.
  - exists z. split; [reflexivity |]. exact (proj1 (Hret z eq_refl)).
  - vm_compute in E. discriminate E.
  - vm_compute in E. discriminate E.
Defined.

(** ** The shuffle *)

(** *** The stable sort *)

Lemma insert_by_key_perm {A : Type} (kv : Z * A) (l : list (Z * A)) :
  Permutation (insert_by_key kv l) (kv :: l).
Proof.
  induction l as [| h t IH]; cbn; [reflexivity |].
  destruct (fst kv <=? fst h); [reflexivity |].
  rewrite IH. apply perm_swap.
Qed.

Lemma stable_sort_perm {A : Type} (l : list (Z * A)) :
  Permutation (stable_sort l) l.
Proof.
  unfold stable_sort. induction l as [| kv l IH]; cbn; [reflexivity |].
  rewrite insert_by_key_perm. now apply perm_skip.
Qed.

Lemma stable_sort_length {A : Type} (l : list (Z * A)) :
  length (stable_sort l) = length l.
Proof. apply Permutation_length, stable_sort_perm. Qed.

Lemma insert_by_key_sorted {A : Type} (kv : Z * A) (l : list (Z * A)) :
  StronglySorted key_le l -> StronglySorted key_le (insert_by_key kv l).
Proof.
  induction 1 as [| h t Hs IH Hh]; cbn.
  - constructor; constructor.
  - destruct (fst kv <=? fst h) eqn:E.
    + apply Z.leb_le in E. constructor; [now constructor |].
      constructor; [exact E |].
      rewrite Forall_forall in *. intros x Hx. specialize (Hh x Hx).
      unfold key_le in *. lia.
    + apply Z.leb_gt in E. constructor; [exact IH |].
      rewrite Forall_forall in *. intros x Hx.
      apply (Permutation_in _ (insert_by_key_perm kv t)) in Hx.
      destruct Hx as [<- | Hx]; [unfold key_le; lia | now apply Hh].
Qed.

Lemma stable_sort_sorted {A : Type} (l : list (Z * A)) :
  StronglySorted key_le (stable_sort l).
Proof.
  unfold stable_sort. induction l as [| kv l IH]; cbn; [constructor |].
  now apply insert_by_key_sorted.
Qed.

Lemma insert_by_key_with_key {A : Type} (k : Z) (kv : Z * A)
  (l : list (Z * A)) :
  with_key k (insert_by_key kv l) = with_key k (kv :: l).
Proof.
  unfold with_key. induction l as [| h t IH]; cbn; [reflexivity |].
  destruct (fst kv <=? fst h) eqn:E; [reflexivity |].
  apply Z.leb_gt in E. cbn. rewrite IH. cbn.
  destruct (fst kv =? k) eqn:Ek; [| reflexivity].
  apply Z.eqb_eq in Ek.
  destruct (fst h =? k) eqn:Eh; [| reflexivity].
  apply Z.eqb_eq in Eh. lia.
Qed.

(** Elements with equal keys keep their order. *)
Lemma stable_sort_stable {A : Type} (k : Z) (l : list (Z * A)) :
  with_key k (stable_sort l) = with_key k l.
Proof.
  unfold stable_sort. induction l as [| kv l IH]; [reflexivity |].
  cbn [fold_right]. rewrite insert_by_key_with_key.
  unfold with_key in *. cbn [filter]. now rewrite IH.
Qed.

(** *** Chunks and transposition *)

Lemma concat_chunks {A : Type} (fuel k : nat) (l : list A) :
  (0 < k)%nat -> (length l <= fuel)%nat -> concat (chunks fuel k l) = l.
Proof.
  intros Hk. revert l. induction fuel as [| fuel IH]; intros l Hl.
  - destruct l; [reflexivity | cbn in Hl; lia].
  - destruct l as [| a l]; [reflexivity |].
    cbn [chunks concat]. rewrite IH.
    + apply firstn_skipn.
    + rewrite length_skipn. cbn [length] in *. lia.
Qed.

Lemma chunks_lengths {A : Type} (fuel k m : nat) (l : list A) :
  (0 < k)%nat -> (length l <= fuel)%nat -> length l = (m * k)%nat ->
  Forall (fun c => length c = k) (chunks fuel k l)
  /\ length (chunks fuel k l) = m.
Proof.
  intros Hk. revert l m. induction fuel as [| fuel IH]; intros l m Hl Hm.
  - destruct l; [| cbn in Hl; lia]. cbn in *.
    split; [constructor | nia].
  - destruct l as [| a l].
    + cbn in *. split; [constructor | nia].
    + cbn [chunks]. destruct m as [| m]; [cbn in Hm; lia |].
      destruct (IH (skipn k (a :: l)) m) as [H1 H2].
      * rewrite length_skipn. cbn [length] in *. lia.
      * rewrite length_skipn. lia.
      * split; [| cbn; now rewrite H2].
        constructor; [| exact H1]. rewrite length_firstn. lia.
Qed.

Lemma zip_cons_concat {A : Type} (r : list A) (T : list (list A)) :
  length r = length T ->
  Permutation (concat (zip_with cons r T)) (r ++ concat T).
Proof.
  revert T. induction r as [| x r IH]; intros [| t T] Hl; cbn in Hl;
    try discriminate; [reflexivity |].
  injection Hl as Hl. unfold zip_with in *. cbn.
  apply perm_skip. rewrite (IH T Hl).
  rewrite !app_assoc. apply Permutation_app_tail, Permutation_app_comm.
Qed.

Lemma zip_cons_lengths {A : Type} (r : list A) (T : list (list A)) (n : nat) :
  length r = length T -> Forall (fun lane => length lane = n) T ->
  length (zip_with cons r T) = length r
  /\ Forall (fun lane => length lane = S n) (zip_with cons r T).
Proof.
  revert T. induction r as [| x r IH]; intros [| t T] Hl HT; cbn in Hl;
    try discriminate.
  - split; [reflexivity | constructor].
  - injection Hl as Hl. inversion HT as [| ? ? Ht HT']; subst.
    destruct (IH T Hl HT') as [L F]. unfold zip_with in *. cbn.
    split; [now rewrite L |]. constructor; [reflexivity | exact F].
Qed.

(** Transposition of rows of equal width keeps the elements and yields
    as many lanes as the width, each as long as the number of rows. *)
Lemma transpose_spec {A : Type} (w : nat) (rows : list (list A)) :
  Forall (fun r => length r = w) rows ->
  Permutation (concat (transpose w rows)) (concat rows)
  /\ length (transpose w rows) = w
  /\ Forall (fun lane => length lane = length rows) (transpose w rows).
Proof.
  unfold transpose. induction 1 as [| r rows Hr _ IH]; cbn.
  - split; [| split].
    + induction w; cbn; [reflexivity | assumption].
    + apply repeat_length.
    + apply Forall_forall. intros x Hx. apply repeat_spec in Hx.
      now subst.
  - destruct IH as (P & L & F).
    assert (Hl : length r
                 = length (fold_right (zip_with cons) (repeat [] w) rows))
      by lia.
    destruct (zip_cons_lengths r _ (length rows) Hl F) as [L' F'].
    split; [| split].
    + rewrite zip_cons_concat by lia. now apply Permutation_app_head.
    + lia.
    + exact F'.
Qed.

Lemma concat_repeat_nil {A : Type} (n : nat) :
  concat (repeat (@nil A) n) = [].
Proof. induction n; cbn; [reflexivity | assumption]. Qed.

Lemma concat_map_perm {A : Type} (f : list A -> list A) (l : list (list A)) :
  Forall (fun x => Permutation (f x) x) l ->
  Permutation (concat (map f l)) (concat l).
Proof.
  induction 1 as [| x l Hx _ IH]; cbn; [reflexivity |].
  now apply Permutation_app.
Qed.

Lemma sort_block_perm {A : Type} (n inner : nat) (block : list (Z * A)) :
  length block = (n * inner)%nat ->
  Permutation (sort_block n inner block) block.
Proof.
  intros Hl. unfold sort_block. cbv zeta.
  destruct inner as [| inner].
  - assert (block = []) by (destruct block; [reflexivity | cbn in Hl; lia]).
    subst block. cbn. unfold transpose. cbn [fold_right].
    now rewrite concat_repeat_nil.
  - set (k := S inner) in *.
    assert (Hk : (0 < k)%nat) by (subst k; lia).
    destruct (chunks_lengths (length block) k n block Hk (le_n _) Hl)
      as [Hrows Hnrows].
    pose proof (concat_chunks (length block) k block Hk (le_n _)) as Hcat.
    set (rows := chunks (length block) k block) in *.
    destruct (transpose_spec k rows Hrows) as (P1 & L1 & F1).
    rewrite Hnrows in F1.
    assert (F2 : Forall (fun r => length r = n)
                   (map stable_sort (transpose k rows))).
    { apply Forall_forall. intros x Hx. apply in_map_iff in Hx.
      destruct Hx as (y & <- & Hy). rewrite stable_sort_length.
      rewrite Forall_forall in F1. now apply F1. }
    destruct (transpose_spec n _ F2) as (P2 & _ & _).
    rewrite P2. rewrite concat_map_perm.
    + now rewrite P1, Hcat.
    + apply Forall_forall. intros x _. apply stable_sort_perm.
Qed.

Lemma sort_lanes_perm {A : Type} (outer n inner : nat) (l : list (Z * A)) :
  length l = (outer * (n * inner))%nat ->
  Permutation (sort_lanes n inner l) l.
Proof.
  intros Hl. unfold sort_lanes.
  destruct (n * inner)%nat as [| k'] eqn:K.
  - assert (l = []) by (destruct l; [reflexivity | cbn in Hl; lia]).
    subst l. reflexivity.
  - set (k := S k') in *.
    assert (Hk : (0 < k)%nat) by (subst k; lia).
    destruct (chunks_lengths (length l) k outer l Hk (le_n _) Hl)
      as [Hblocks _].
    pose proof (concat_chunks (length l) k l Hk (le_n _)) as Hcat.
    rewrite concat_map_perm; [now rewrite Hcat |].
    rewrite Forall_forall in *. intros b Hb.
    apply sort_block_perm. rewrite (Hblocks b Hb). subst k. lia.
Qed.

Lemma map_snd_combine {A B : Type} (xs : list A) (ys : list B) :
  length xs = length ys -> map snd (combine xs ys) = ys.
Proof.
  intros H. pose proof (unzip_combine xs ys H) as E. unfold unzip in E.
  now injection E.
Qed.

Lemma shape_size_app (s t : list N) :
  shape_size (s ++ t) = (shape_size s * shape_size t)%N.
Proof.
  unfold shape_size. induction s as [| a s IH]; cbn [app fold_right].
  - lia.
  - rewrite IH. lia.
Qed.

Lemma shape_size_at_axis (shp : list N) (axis : nat) (n : N) :
  nth_error shp axis = Some n ->
  shape_size shp
  = (shape_size (firstn axis shp) * (n * shape_size (skipn (S axis) shp)))%N.
Proof.
  intros Hn. rewrite <- (firstn_skipn axis shp) at 1.
  rewrite shape_size_app. f_equal.
  revert shp Hn. induction axis as [| axis IH]; intros [| a shp] Hn;
    cbn in Hn; try discriminate.
  - injection Hn as ->. reflexivity.
  - cbn [skipn]. now apply IH.
Qed.

Lemma shape_eqb_refl (s : list N) : shape_eqb s s = true.
Proof.
  unfold shape_eqb. destruct (list_eq_dec N.eq_dec s s); [reflexivity |].
  contradiction.
Qed.

(** *** The number of rounds *)

Lemma least_power_spec (fuel r : nat) (n3 p : Z) :
  p = uint32_max ^ Z.of_nat r ->
  (r = 0%nat \/ uint32_max ^ (Z.of_nat r - 1) < n3) ->
  n3 < 2 ^ Z.of_nat fuel * p ->
  let r' := least_power fuel r n3 p in
  n3 <= uint32_max ^ Z.of_nat r'
  /\ (r' = 0%nat \/ uint32_max ^ (Z.of_nat r' - 1) < n3).
Proof.
  revert r p. induction fuel as [| fuel IH]; intros r p Hp Hlow Hup;
    cbn [least_power]; cbv zeta.
  - split; [| exact Hlow]. rewrite <- Hp.
    change (2 ^ Z.of_nat 0) with 1 in Hup. lia.
  - destruct (n3 <=? p) eqn:E.
    + apply Z.leb_le in E. split; [now rewrite <- Hp | exact Hlow].
    + apply Z.leb_gt in E. apply IH.
      * rewrite Nat2Z.inj_succ, Z.pow_succ_r by lia. rewrite <- Hp. lia.
      * right. rewrite Nat2Z.inj_succ.
        replace (Z.succ (Z.of_nat r) - 1) with (Z.of_nat r) by lia.
        now rewrite <- Hp.
      * rewrite Nat2Z.inj_succ, Z.pow_succ_r in Hup by lia.
        assert (0 < p).
        { rewrite Hp. apply Z.pow_pos_nonneg; [reflexivity | lia]. }
        assert (0 < 2 ^ Z.of_nat fuel) by (apply Z.pow_pos_nonneg; lia).
        unfold uint32_max. nia.
Qed.

(** The number of rounds is [ceil(3 ln n / ln (2^32 - 1))]: the least
    [r] with [n^3 <= (2^32 - 1)^r]. *)
Lemma num_rounds_spec (n : N) :
  (0 < n)%N ->
  exists r : nat,
    num_rounds n = ret r
    /\ Z.of_N n ^ 3 <= uint32_max ^ Z.of_nat r
    /\ (r = 0%nat \/ uint32_max ^ (Z.of_nat r - 1) < Z.of_N n ^ 3).
Proof.
  intros Hn. unfold num_rounds.
  destruct (N.eqb n 0) eqn:E; [apply N.eqb_eq in E; lia |].
  eexists. split; [reflexivity |].
  assert (H3 : 0 < Z.of_N n ^ 3) by (apply Z.pow_pos_nonneg; lia).
  apply least_power_spec; [reflexivity | now left |].
  rewrite Z.mul_1_r, Nat2Z.inj_succ, Z2Nat.id by apply Z.log2_nonneg.
  apply Z.log2_spec. exact H3.
Qed.

Lemma num_rounds_empty (n : N) : n = 0%N -> num_rounds n = raise OverflowError.
Proof. intros ->. reflexivity. Qed.

(** *** Lanes *)

Lemma chunks_nil {A : Type} (fuel k : nat) : chunks fuel k (@nil A) = [].
Proof. destruct fuel; reflexivity. Qed.

Lemma chunks_concat {A : Type} (k : nat) (bs : list (list A)) :
  (0 < k)%nat -> Forall (fun b => length b = k) bs ->
  forall fuel, (length (concat bs) <= fuel)%nat ->
  chunks fuel k (concat bs) = bs.
Proof.
  intros Hk. induction 1 as [| b bs Hb _ IH]; intros fuel Hf.
  - apply chunks_nil.
  - cbn [concat] in *. rewrite length_app in Hf.
    destruct fuel as [| fuel]; [lia |].
    destruct b as [| a b]; [cbn in Hb; lia |].
    cbn [chunks app]. change (a :: b ++ concat bs) with ((a :: b) ++ concat bs).
    rewrite <- Hb at 1 3.
    rewrite firstn_app, firstn_all, Nat.sub_diag, firstn_0, app_nil_r.
    rewrite skipn_app, skipn_all, Nat.sub_diag, skipn_0. cbn [app].
    rewrite IH; [reflexivity |]. cbn [length] in *. lia.
Qed.

Lemma transpose_cons_heads {A : Type} (h : nat) (r : list A)
  (T : list (list A)) :
  length r = length T -> Forall (fun lane => length lane = h) T ->
  transpose (S h) (zip_with cons r T) = r :: transpose h T.
Proof.
  revert T. induction r as [| x r IH]; intros [| t T] Hl HT; cbn in Hl;
    try discriminate.
  - reflexivity.
  - injection Hl as Hl. inversion HT as [| ? ? Ht HT']; subst.
    specialize (IH T Hl HT'). unfold transpose, zip_with in *.
    cbn [combine map fold_right fst snd]. rewrite IH. reflexivity.
Qed.

Lemma transpose_involutive {A : Type} (w : nat) (m : list (list A)) :
  Forall (fun r => length r = w) m ->
  transpose (length m) (transpose w m) = m.
Proof.
  induction 1 as [| r m Hr Hm IH].
  - unfold transpose. destruct w; reflexivity.
  - destruct (transpose_spec w m Hm) as (_ & L & F).
    change (transpose w (r :: m)) with (zip_with cons r (transpose w m)).
    cbn [length]. rewrite transpose_cons_heads; [now rewrite IH | lia | exact F].
Qed.

Lemma chunks_map {A B : Type} (f : A -> B) (fuel k : nat) (l : list A) :
  chunks fuel k (map f l) = map (map f) (chunks fuel k l).
Proof.
  revert l. induction fuel as [| fuel IH]; intros l; [reflexivity |].
  destruct l as [| a l]; [reflexivity |].
  cbn [chunks map]. change (f a :: map f l) with (map f (a :: l)).
  now rewrite firstn_map, skipn_map, IH.
Qed.

Lemma zip_with_cons_map {A B : Type} (f : A -> B) (r : list A)
  (T : list (list A)) :
  zip_with cons (map f r) (map (map f) T) = map (map f) (zip_with cons r T).
Proof.
  unfold zip_with. revert T. induction r as [| x r IH]; intros [| t T];
    cbn; try reflexivity.
  now rewrite IH.
Qed.

Lemma transpose_map {A B : Type} (f : A -> B) (w : nat)
  (rows : list (list A)) :
  transpose w (map (map f) rows) = map (map f) (transpose w rows).
Proof.
  unfold transpose. induction rows as [| r rows IH]; cbn [map fold_right].
  - induction w; cbn; [reflexivity | now rewrite <- IHw].
  - now rewrite IH, zip_with_cons_map.
Qed.

Lemma lanes_map {A B : Type} (f : A -> B) (n inner : nat) (l : list A) :
  lanes n inner (map f l) = map (map f) (lanes n inner l).
Proof.
  unfold lanes, block_lanes. rewrite length_map, chunks_map, map_map.
  rewrite concat_map, map_map. f_equal. apply map_ext. intros b.
  now rewrite length_map, chunks_map, transpose_map.
Qed.

Lemma sort_block_length {A : Type} (n inner : nat) (block : list (Z * A)) :
  length block = (n * inner)%nat ->
  length (sort_block n inner block) = (n * inner)%nat.
Proof.
  intros H. rewrite <- H. apply Permutation_length, sort_block_perm, H.
Qed.

(** The lanes of a sorted block are the sorted lanes of the block. *)
Lemma block_lanes_sort_block {A : Type} (n inner : nat)
  (block : list (Z * A)) :
  (0 < inner)%nat -> length block = (n * inner)%nat ->
  block_lanes inner (sort_block n inner block)
  = map stable_sort (block_lanes inner block).
Proof.
  intros Hi Hl. unfold sort_block. cbv zeta. fold (block_lanes inner block).
  destruct (chunks_lengths (length block) inner n block Hi (le_n _) Hl)
    as [Hrows Hnrows].
  destruct (transpose_spec inner _ Hrows) as (_ & L1 & F1).
  fold (block_lanes inner block) in L1, F1. rewrite Hnrows in F1.
  set (S := map stable_sort (block_lanes inner block)).
  assert (FS : Forall (fun r => length r = n) S).
  { apply Forall_forall. intros x Hx. apply in_map_iff in Hx.
    destruct Hx as (y & <- & Hy). rewrite stable_sort_length.
    rewrite Forall_forall in F1. now apply F1. }
  assert (LS : length S = inner) by (unfold S; now rewrite length_map).
  destruct (transpose_spec n S FS) as (_ & L2 & F2).
  unfold block_lanes at 1.
  rewrite chunks_concat; [| exact Hi | now rewrite <- LS | apply le_n].
  rewrite <- LS at 1. now apply transpose_involutive.
Qed.

Lemma lanes_sort_lanes {A : Type} (outer n inner : nat)
  (l : list (Z * A)) :
  length l = (outer * (n * inner))%nat ->
  lanes n inner (sort_lanes n inner l) = map stable_sort (lanes n inner l).
Proof.
  intros Hl. unfold lanes at 1. unfold sort_lanes.
  destruct (n * inner)%nat as [| k'] eqn:K.
  - assert (l = []) by (destruct l; [reflexivity | cbn in Hl; lia]).
    subst l. unfold lanes. rewrite K. reflexivity.
  - assert (Hi : (0 < inner)%nat) by (destruct inner; lia).
    set (k := Datatypes.S k') in *.
    assert (Hk : (0 < k)%nat) by (subst k; lia).
    destruct (chunks_lengths (length l) k outer l Hk (le_n _) Hl)
      as [Hblocks _].
    set (blocks := chunks (length l) k l) in *.
    assert (Hsb : Forall (fun b => length b = k)
                    (map (sort_block n inner) blocks)).
    { rewrite Forall_forall in *. intros b Hb. apply in_map_iff in Hb.
      destruct Hb as (b0 & <- & Hb0).
      rewrite sort_block_length; [exact K |]. rewrite (Hblocks b0 Hb0).
      exact (eq_sym K). }
    rewrite (chunks_concat k _ Hk Hsb _ (le_n _)).
    unfold lanes. rewrite K. fold k. fold blocks.
    rewrite concat_map, !map_map. f_equal.
    apply map_ext_in. intros b Hb.
    apply block_lanes_sort_block; [exact Hi |].
    rewrite Forall_forall in Hblocks. rewrite (Hblocks b Hb).
    exact (eq_sym K).
Qed.

Lemma sorted_lanes_perm {A : Type} (X : list (list (Z * A))) :
  Forall2 (@Permutation A)
    (map (map snd) (map stable_sort X)) (map (map snd) X).
Proof.
  induction X as [| L X IH]; cbn; constructor; [| exact IH].
  apply Permutation_map, stable_sort_perm.
Qed.

Lemma Forall2_perm_trans {A : Type} (l1 l2 l3 : list (list A)) :
  Forall2 (@Permutation A) l1 l2 -> Forall2 (@Permutation A) l2 l3 ->
  Forall2 (@Permutation A) l1 l3.
Proof.
  intros H. revert l3. induction H as [| a b l1 l2 Hab _ IH]; intros l3 H23;
    inversion H23; subst; constructor.
  - etransitivity; eassumption.
  - now apply IH.
Qed.

Lemma Forall2_perm_refl {A : Type} (l : list (list A)) :
  Forall2 (@Permutation A) l l.
Proof. induction l; constructor; [reflexivity | assumption]. Qed.

(** *** One round and all rounds *)

(** One keyed sort along an axis keeps shape and dtype and permutes
    every lane along the axis, hence the whole array. *)
Lemma lax_sort_key_val_eval {A : Type} (keys : ndarray Z) (x : ndarray A)
  (axis : nat) :
  shape keys = shape x -> well_formed keys -> well_formed x ->
  (axis < length (shape x))%nat ->
  exists out : ndarray A,
    (exists ks, lax_sort_key_val keys x axis = (0%nat, Ok (ks, out)))
    /\ dtype_of out = dtype_of x
    /\ shape out = shape x
    /\ Permutation (data out) (data x)
    /\ Forall2 (@Permutation A) (lanes_along axis out) (lanes_along axis x).
Proof.
  intros Hs Wk Wx Ha. unfold lax_sort_key_val.
  rewrite Hs, shape_eqb_refl. cbn [negb].
  destruct (nth_error (shape x) axis) as [n |] eqn:En.
  2: { apply nth_error_None in En. lia. }
  eexists. split; [eexists; reflexivity |]. cbn [dtype_of shape data].
  split; [reflexivity |]. split; [reflexivity |].
  assert (Hlen : length (data keys) = length (data x)).
  { unfold well_formed, size in *. rewrite Hs in Wk.
    apply Nat2N.inj. now rewrite Wk, Wx. }
  assert (Hl : length (combine (data keys) (data x))
               = (N.to_nat (shape_size (firstn axis (shape x)))
                  * (N.to_nat n
                     * N.to_nat (shape_size (skipn (S axis) (shape x)))))%nat).
  { rewrite length_combine, Hlen, Nat.min_id.
    unfold well_formed, size in Wx.
    rewrite (shape_size_at_axis _ _ _ En) in Wx.
    rewrite <- !N2Nat.inj_mul, <- Wx. now rewrite Nat2N.id. }
  split.
  - rewrite <- (map_snd_combine (data keys) (data x) Hlen) at 2.
    apply Permutation_map. eapply sort_lanes_perm, Hl.
  - unfold lanes_along. cbn [shape data].
    rewrite (nth_error_nth _ _ 0%N En).
    rewrite <- (map_snd_combine (data keys) (data x) Hlen) at 2.
    rewrite !lanes_map, (lanes_sort_lanes _ _ _ _ Hl).
    apply sorted_lanes_perm.
Qed.

Lemma shuffle_rounds_perm {A : Type} (r : nat) :
  forall (k0 k1 : Z) (x : ndarray A) (axis : nat),
    well_formed x -> Z.of_N (size x) < uint32_max ->
    (axis < length (shape x))%nat ->
    exists out : ndarray A,
      shuffle_rounds r (key_of k0 k1) x axis = ((2 * r)%nat, Ok out)
      /\ dtype_of out = dtype_of x
      /\ shape out = shape x
      /\ Permutation (data out) (data x)
      /\ Forall2 (@Permutation A) (lanes_along axis out) (lanes_along axis x).
Proof.
  induction r as [| r IH]; intros k0 k1 x axis Wx Hsz Ha.
  - exists x. cbn. repeat split; try reflexivity. apply Forall2_perm_refl.
  - cbn [shuffle_rounds].
    destruct (split_pair_eval k0 k1) as (a & b & c & d & Es).
    rewrite Es, bind_ok. cbn [fst snd].
    assert (Hm : max_count_of 32 (shape x) < uint32_max).
    { unfold max_count_of. change (32 / 32) with 1. unfold size in Hsz. lia. }
    rewrite (random_bits_eval c d 32 (shape x) (or_introl eq_refl) Hm), bind_ok.
    set (tags := mkarray (bits_dtype 32) (shape x) _).
    assert (Wt : well_formed tags).
    { unfold well_formed, size, tags. cbn [data shape].
      apply bits_of_words_size. now left. }
    destruct (lax_sort_key_val_eval tags x axis eq_refl Wt Wx Ha)
      as (y & (ks & Ey) & Dy & Sy & Py & Ly).
    rewrite Ey, bind_ok. cbn [snd].
    assert (Wy : well_formed y).
    { unfold well_formed, size in *. rewrite Sy, <- Wx.
      f_equal. apply Permutation_length, Py. }
    destruct (IH a b y axis Wy) as (out & Eo & Do & So & Po & Lo).
    { unfold size in *. now rewrite Sy. }
    { now rewrite Sy. }
    rewrite Eo. unfold hashes, outcome. cbn [fst snd].
    exists out. split; [f_equal; lia |].
    split; [congruence |]. split; [congruence |].
    split; [now rewrite Po |]. eapply Forall2_perm_trans; eassumption.
Qed.

Lemma ndarray_eq {A : Type} (a b : ndarray A) :
  dtype_of a = dtype_of b -> shape a = shape b -> data a = data b -> a = b.
Proof. destruct a, b. cbn. now intros -> -> ->. Qed.

Lemma combine_fst_snd {A B : Type} (l : list (A * B)) :
  combine (map fst l) (map snd l) = l.
Proof. induction l as [| [a b] l IH]; cbn; [reflexivity | now rewrite IH]. Qed.

Lemma map_fst_combine {A B : Type} (xs : list A) (ys : list B) :
  length xs = length ys -> map fst (combine xs ys) = xs.
Proof.
  intros H. pose proof (unzip_combine xs ys H) as E. unfold unzip in E.
  now injection E.
Qed.

(** The lanes of the sorted values are the lanes of the values, each
    sorted by the tags of its own positions. *)
Lemma lanes_sorted_by_tags {A : Type} (outer n inner : nat) (ks : list Z)
  (xs : list A) :
  length ks = length xs ->
  length xs = (outer * (n * inner))%nat ->
  lanes n inner (map snd (sort_lanes n inner (combine ks xs)))
  = zip_with sort_lane (lanes n inner ks) (lanes n inner xs).
Proof.
  intros Hlen Hl.
  assert (Hc : length (combine ks xs) = (outer * (n * inner))%nat)
    by (rewrite length_combine, Hlen, Nat.min_id; exact Hl).
  rewrite lanes_map, (lanes_sort_lanes outer n inner _ Hc).
  rewrite <- (map_fst_combine ks xs Hlen) at 2.
  rewrite <- (map_snd_combine ks xs Hlen) at 3.
  rewrite !lanes_map, zip_with_map, map_map.
  apply map_ext. intros lane. unfold sort_lane.
  now rewrite combine_fst_snd.
Qed.

(** *** The array is determined by its lanes *)

Lemma block_of_lanes {A : Type} (n inner : nat) (block : list A) :
  (0 < inner)%nat -> length block = (n * inner)%nat ->
  length (block_lanes inner block) = inner
  /\ concat (transpose n (block_lanes inner block)) = block.
Proof.
  intros Hi Hl. unfold block_lanes.
  destruct (chunks_lengths (length block) inner n block Hi (le_n _) Hl)
    as [Hrows Hn].
  destruct (transpose_spec inner _ Hrows) as (_ & L & _).
  split; [exact L |].
  rewrite <- Hn at 1. rewrite (transpose_involutive inner _ Hrows).
  apply concat_chunks; [exact Hi | apply le_n].
Qed.

Lemma unlanes_lanes {A : Type} (outer n inner : nat) (l : list A) :
  length l = (outer * (n * inner))%nat ->
  unlanes n inner (lanes n inner l) = l.
Proof.
  intros Hl. unfold unlanes, lanes.
  destruct (n * inner)%nat as [| k'] eqn:K.
  - assert (l = []) by (destruct l; [reflexivity | cbn in Hl; lia]).
    subst l. reflexivity.
  - assert (Hi : (0 < inner)%nat) by (destruct inner; lia).
    set (k := Datatypes.S k') in *.
    assert (Hk : (0 < k)%nat) by (subst k; lia).
    destruct (chunks_lengths (length l) k outer l Hk (le_n _) Hl)
      as [Hblocks _].
    set (blocks := chunks (length l) k l) in *.
    assert (Hb : forall b, In b blocks ->
              length (block_lanes inner b) = inner
              /\ concat (transpose n (block_lanes inner b)) = b).
    { intros b Hin. rewrite Forall_forall in Hblocks.
      apply block_of_lanes; [exact Hi |]. rewrite (Hblocks b Hin).
      exact (eq_sym K). }
    rewrite chunks_concat; [| exact Hi | | apply le_n].
    + rewrite map_map.
      rewrite (map_ext_in _ (fun b => b)); [| intros b Hin; apply (Hb b Hin)].
      rewrite map_id. apply concat_chunks; [exact Hk | apply le_n].
    + apply Forall_forall. intros x Hx. apply in_map_iff in Hx.
      destruct Hx as (b & <- & Hin). apply (Hb b Hin).
Qed.

Lemma lanes_injective {A : Type} (outer n inner : nat) (l l' : list A) :
  length l = (outer * (n * inner))%nat ->
  length l' = (outer * (n * inner))%nat ->
  lanes n inner l = lanes n inner l' -> l = l'.
Proof.
  intros Hl Hl' E.
  rewrite <- (unlanes_lanes outer n inner l Hl).
  rewrite <- (unlanes_lanes outer n inner l' Hl'). now rewrite E.
Qed.

Lemma data_length_at_axis {A : Type} (x : ndarray A) (axis : nat) :
  well_formed x -> (axis < length (shape x))%nat ->
  length (data x)
  = (N.to_nat (shape_size (firstn axis (shape x)))
     * (N.to_nat (nth axis (shape x) 0%N)
        * N.to_nat (shape_size (skipn (S axis) (shape x)))))%nat.
Proof.
  intros Wx Ha.
  destruct (nth_error (shape x) axis) as [n |] eqn:En.
  2: { apply nth_error_None in En. lia. }
  rewrite (nth_error_nth _ _ 0%N En).
  unfold well_formed, size in Wx.
  rewrite (shape_size_at_axis _ _ _ En) in Wx.
  rewrite <- !N2Nat.inj_mul, <- Wx. now rewrite Nat2N.id.
Qed.

Lemma lanes_along_injective {A : Type} (axis : nat) (y y' : ndarray A) :
  well_formed y -> well_formed y' -> shape y = shape y' ->
  dtype_of y = dtype_of y' -> (axis < length (shape y))%nat ->
  lanes_along axis y = lanes_along axis y' -> y = y'.
Proof.
  intros W W' S D Ha E. apply ndarray_eq; [exact D | exact S |].
  pose proof (data_length_at_axis y axis W Ha) as L.
  pose proof (data_length_at_axis y' axis W' ltac:(now rewrite <- S)) as L'.
  unfold lanes_along in E. rewrite <- S in E, L'.
  exact (lanes_injective _ _ _ _ _ L L' E).
Qed.

(** With one key and one array, the rounds lead to one result. *)
Lemma shuffled_unique {A : Type} (axis r : nat) (key : ndarray Z)
  (x out : ndarray A) :
  shuffled axis r key x out ->
  (axis < length (shape x))%nat ->
  forall out', shuffled axis r key x out' -> out' = out.
Proof.
  induction 1 as [key x | r key key' subkey tags x y out Es Et St Wt Dy Sy Wy
                             Ly Hr IH]; intros Ha out' H'.
  - inversion H'; subst. reflexivity.
  - inversion H' as [| r0 key0 key'0 subkey0 tags0 x0 y0 out0 Es' Et' St' Wt'
                       Dy' Sy' Wy' Ly' Hr']; subst.
    rewrite Es in Es'. injection Es' as <- <-.
    rewrite Et in Et'. injection Et' as <-.
    assert (y0 = y).
    { apply (lanes_along_injective axis); try assumption;
        [congruence | congruence | now rewrite Sy' | congruence]. }
    subst y0. apply IH; [now rewrite Sy | exact Hr'].
Qed.

(** One round of the code: the sort of the array library on the tags and
    the array. *)
Lemma lax_sort_key_val_lanes {A : Type} (keys : ndarray Z) (x : ndarray A)
  (axis : nat) :
  shape keys = shape x -> well_formed keys -> well_formed x ->
  (axis < length (shape x))%nat ->
  exists out : ndarray A,
    (exists ks, lax_sort_key_val keys x axis = (0%nat, Ok (ks, out)))
    /\ dtype_of out = dtype_of x
    /\ shape out = shape x
    /\ well_formed out
    /\ Permutation (data out) (data x)
    /\ Forall2 (@Permutation A) (lanes_along axis out) (lanes_along axis x)
    /\ lanes_along axis out
       = zip_with sort_lane (lanes_along axis keys) (lanes_along axis x).
Proof.
  intros Hs Wk Wx Ha.
  destruct (lax_sort_key_val_eval keys x axis Hs Wk Wx Ha)
    as (out & (ks & E) & D & S & P & L).
  exists out. split; [now exists ks |]. split; [exact D |].
  split; [exact S |].
  assert (Wo : well_formed out).
  { unfold well_formed, size in *. rewrite S, <- Wx.
    f_equal. apply Permutation_length, P. }
  split; [exact Wo |]. split; [exact P |]. split; [exact L |].
  unfold lax_sort_key_val in E. rewrite Hs, shape_eqb_refl in E.
  cbn [negb] in E.
  destruct (nth_error (shape x) axis) as [n |] eqn:En.
  2: { apply nth_error_None in En. lia. }
  unfold ret in E. injection E as _ Eo.
  assert (Hlen : length (data keys) = length (data x)).
  { unfold well_formed, size in *. rewrite Hs in Wk.
    apply Nat2N.inj. now rewrite Wk, Wx. }
  pose proof (data_length_at_axis x axis Wx Ha) as Hl.
  rewrite (nth_error_nth _ _ 0%N En) in Hl.
  unfold lanes_along. rewrite S, Hs, (nth_error_nth _ _ 0%N En).
  rewrite <- Eo. cbn [data].
  exact (lanes_sorted_by_tags _ _ _ _ _ Hlen Hl).
Qed.

Lemma shuffle_rounds_trace {A : Type} (r : nat) :
  forall (k0 k1 : Z) (x : ndarray A) (axis : nat),
    well_formed x -> Z.of_N (size x) < uint32_max ->
    (axis < length (shape x))%nat ->
    exists out : ndarray A,
      shuffle_rounds r (key_of k0 k1) x axis = ((2 * r)%nat, Ok out)
      /\ shuffled axis r (key_of k0 k1) x out
      /\ dtype_of out = dtype_of x
      /\ shape out = shape x
      /\ Permutation (data out) (data x)
      /\ Forall2 (@Permutation A) (lanes_along axis out) (lanes_along axis x).
Proof.
  induction r as [| r IH]; intros k0 k1 x axis Wx Hsz Ha.
  - exists x. cbn. split; [reflexivity |]. split; [constructor |].
    repeat split; try reflexivity. apply Forall2_perm_refl.
  - cbn [shuffle_rounds].
    destruct (split_pair_eval k0 k1) as (a & b & c & d & Es).
    rewrite Es, bind_ok. cbn [fst snd].
    assert (Hm : max_count_of 32 (shape x) < uint32_max).
    { unfold max_count_of. change (32 / 32) with 1. unfold size in Hsz. lia. }
    pose proof (random_bits_eval c d 32 (shape x) (or_introl eq_refl) Hm)
      as Et.
    rewrite Et, bind_ok.
    set (tags := mkarray (bits_dtype 32) (shape x) _) in *.
    assert (Wt : well_formed tags).
    { unfold well_formed, size, tags. cbn [data shape].
      apply bits_of_words_size. now left. }
    destruct (lax_sort_key_val_lanes tags x axis eq_refl Wt Wx Ha)
      as (y & (ks & Ey) & Dy & Sy & Wy & Py & Ly & Lanes).
    rewrite Ey, bind_ok. cbn [snd].
    destruct (IH a b y axis Wy) as (out & Eo & Tr & Do & So & Po & Lo).
    { unfold size in *. now rewrite Sy. }
    { now rewrite Sy. }
    rewrite Eo. unfold hashes, outcome. cbn [fst snd].
    exists out. split; [f_equal; lia |].
    split.
    { exact (shuffled_round axis r (key_of k0 k1) (key_of a b) (key_of c d)
               tags x y out Es Et eq_refl Wt Dy Sy Wy Lanes Tr). }
    split; [congruence |]. split; [congruence |].
    split; [now rewrite Po |]. eapply Forall2_perm_trans; eassumption.
Qed.

(** C9, amended: for a key of two uint32 words, a well-formed array [x]
    with at least one and fewer than [2^32 - 1] elements and an axis of
    [x], [_shuffle] returns the array [out] that [rounds] rounds lead to
    from [x], and no other array does: a round splits the key, draws
    under the subkey 32-bit tags in the shape of the whole array (one
    per element) and sorts every lane along the axis stably by the tags
    at the positions of that lane, so that the lanes are permuted
    independently of each other; the next round runs under the other
    key of the split.  [rounds = ceil(3 ln(x.size) / ln(2^32 - 1))], the
    least [r] with [x.size^3 <= (2^32 - 1)^r], at two runs of the hash
    per round.  [out] has the shape and dtype of [x], every lane of
    [out] is a permutation of the same lane of [x] (so the whole array
    has the same multiset of elements), and two evaluations give the
    same result.  The sort of a lane orders the pairs of tag and value
    by tag, keeps the pairs, and keeps the order of pairs with equal
    tags. *)
Theorem shuffle_permutes {A : Type} (k0 k1 : Z) (x : ndarray A)
  (axis : nat) :
  well_formed x ->
  0 < Z.of_N (size x) < uint32_max ->
  (axis < length (shape x))%nat ->
  exists (rounds : nat) (out : ndarray A),
    num_rounds (size x) = ret rounds
    /\ Z.of_N (size x) ^ 3 <= uint32_max ^ Z.of_nat rounds
    /\ (rounds = 0%nat
        \/ uint32_max ^ (Z.of_nat rounds - 1) < Z.of_N (size x) ^ 3)
    /\ _shuffle (key_of k0 k1) x axis = ((2 * rounds)%nat, Ok out)
    /\ shuffled axis rounds (key_of k0 k1) x out
    /\ (forall out' : ndarray A,
          shuffled axis rounds (key_of k0 k1) x out' -> out' = out)
    /\ dtype_of out = dtype_of x
    /\ shape out = shape x
    /\ Permutation (data out) (data x)
    /\ Forall2 (@Permutation A) (lanes_along axis out) (lanes_along axis x)
    /\ (forall (tags : list Z) (lane : list A),
          sort_lane tags lane = map snd (stable_sort (combine tags lane))
          /\ StronglySorted key_le (stable_sort (combine tags lane))
          /\ Permutation (stable_sort (combine tags lane)) (combine tags lane)
          /\ (forall k, with_key k (stable_sort (combine tags lane))
                        = with_key k (combine tags lane))
          /\ (length tags = length lane ->
              Permutation (sort_lane tags lane) lane))
    /\ (forall (r : nat) (key : ndarray Z) (y : ndarray A),
          shuffle_rounds (S r) key y axis
          = (ks <- split_pair key ;;
             sort_keys <- _random_bits (PyArray (snd ks)) 32 (shape y) ;;
             kv <- lax_sort_key_val sort_keys y axis ;;
             shuffle_rounds r (fst ks) (snd kv) axis))
    /\ (forall r1 r2,
          _shuffle (key_of k0 k1) x axis = r1 ->
          _shuffle (key_of k0 k1) x axis = r2 -> r1 = r2).
Proof.
  intros Wx Hsz Ha.
  destruct (num_rounds_spec (size x) ltac:(lia)) as (r & Er & Hup & Hlow).
  destruct (shuffle_rounds_trace r k0 k1 x axis Wx ltac:(lia) Ha)
    as (out & Eo & Tr & Do & So & Po & Lo).
  exists r, out. split; [exact Er |]. split; [exact Hup |].
  split; [exact Hlow |]. split.
  { unfold _shuffle. rewrite Er, bind_ret. exact Eo. }
  split; [exact Tr |].
  split; [exact (shuffled_unique axis r (key_of k0 k1) x out Tr Ha) |].
  split; [exact Do |]. split; [exact So |]. split; [exact Po |].
  split; [exact Lo |]. split.
  { intros tags lane. split; [reflexivity |].
    split; [apply stable_sort_sorted |].
    split; [apply stable_sort_perm |].
    split; [intros k; apply stable_sort_stable |].
    intros Hl. unfold sort_lane.
    rewrite <- (map_snd_combine tags lane Hl) at 2.
    apply Permutation_map, stable_sort_perm. }
  split; [reflexivity |]. congruence.
Qed.

Lemma shuffle_permutes_witness :
  well_formed (mkarray int32 [2%N; 2%N] [10; 11; 20; 21])
  /\ 0 < Z.of_N (size (mkarray int32 [2%N; 2%N] [10; 11; 20; 21]))
     < uint32_max
  /\ (0 < length (shape (mkarray int32 [2%N; 2%N] [10; 11; 20; 21])))%nat
  /\ exists out,
       _shuffle (key_of 0 0) (mkarray int32 [2%N; 2%N] [10; 11; 20; 21]) 0
       = (2%nat, Ok out)
       /\ shape out = [2%N; 2%N]
       /\ Permutation (data out) [10; 11; 20; 21].
Proof.
  assert (W : well_formed (mkarray int32 [2%N; 2%N] [10; 11; 20; 21]))
    by reflexivity.
  assert (S : 0 < Z.of_N (size (mkarray int32 [2%N; 2%N] [10; 11; 20; 21]))
              < uint32_max) by (split; reflexivity).
  assert (L : (0 < length (shape (mkarray int32 [2%N; 2%N] [10; 11; 20; 21])))%nat)
    by (cbn; lia).
  split; [exact W |]. split; [exact S |]. split; [exact L |].
  destruct (shuffle_permutes 0 0 (mkarray int32 [2%N; 2%N] [10; 11; 20; 21])
              0 W S L)
    as (r & out & Er & _ & _ & Eo & _ & _ & _ & So & Po & _).
  vm_compute in Er. injection Er as <-.
  exists out. split; [exact Eo |]. split; [exact So | exact Po].
Defined.

(** The rounds do not leave every array as it is: one round under the
    key [(0, 0)] changes the 2 by 2 array of the witness. *)
Lemma one_round_changes_array :
  ~ shuffled 0 1 (key_of 0 0) (mkarray int32 [2%N; 2%N] [10; 11; 20; 21])
      (mkarray int32 [2%N; 2%N] [10; 11; 20; 21]).
Proof.
  intros H.
  destruct (shuffle_rounds_trace 1 0 0
              (mkarray int32 [2%N; 2%N] [10; 11; 20; 21]) 0%nat
              eq_refl eq_refl ltac:(cbn; lia))
    as (out & Eo & Tr & _).
  pose proof (shuffled_unique _ _ _ _ _ Tr ltac:(cbn; lia) _ H) as E.
  rewrite <- E in Eo. vm_compute in Eo. discriminate Eo.
Qed.

(** The tags are drawn in the shape of the whole array, one per element:
    on a 2 by 2 array shuffled along axis 0 the two columns are
    permuted independently, and the first row of the result is no row
    of the input; with one tag per position along the axis whole rows
    would move. *)
Lemma shuffle_claim_counterexample :
  _shuffle (key_of 0 0) (mkarray int32 [2%N; 2%N] [10; 11; 20; 21]) 0
  = (2%nat, Ok (mkarray int32 [2%N; 2%N] [20; 11; 10; 21]))
  /\ (exists ks,
        outcome (split_pair (key_of 0 0)) = Ok ks
        /\ outcome (_random_bits (PyArray (snd ks)) 32 [2%N; 2%N])
           = Ok (mkarray uint32 [2%N; 2%N]
                   [3746991216; 1902760697; 1190051861; 3378399878]))
  /\ ShuffleAsStated._shuffle (key_of 0 0)
       (mkarray int32 [2%N; 2%N] [10; 11; 20; 21]) 0
     = (2%nat, Ok (mkarray int32 [2%N; 2%N] [20; 21; 10; 11]))
  /\ _shuffle (key_of 0 0) (mkarray int32 [2%N; 2%N] [10; 11; 20; 21]) 0
     <> ShuffleAsStated._shuffle (key_of 0 0)
          (mkarray int32 [2%N; 2%N] [10; 11; 20; 21]) 0.
Proof.
  split; [vm_compute; reflexivity |].
  split.
  { eexists. split; [vm_compute; reflexivity |]. vm_compute. reflexivity. }
  split; [vm_compute; reflexivity |].
  vm_compute. discriminate.
Qed.

(** An empty array makes the round count fail. *)
Lemma shuffle_empty_raises {A : Type} (key : ndarray Z) (x : ndarray A)
  (axis : nat) :
  size x = 0%N -> _shuffle key x axis = (0%nat, Raise OverflowError).
Proof.
  intros H. unfold _shuffle. now rewrite (num_rounds_empty _ H).
Qed.

(** X15: an array with [2^32 - 1] elements or more needs more tags than
    one call of [_random_bits] gives: [_shuffle] fails with a TypeError
    in its first round, after the split of the key. *)
Lemma shuffle_too_large {A : Type} (k0 k1 : Z) (x : ndarray A)
  (axis : nat) :
  uint32_max <= Z.of_N (size x) < 2 ^ 63 ->
  _shuffle (key_of k0 k1) x axis = (1%nat, Raise TypeError).
Proof.
  intros Hs. unfold uint32_max in Hs.
  destruct (num_rounds_spec (size x) ltac:(lia)) as (r & Er & Hup & _).
  unfold _shuffle. rewrite Er, bind_ret.
  destruct r as [| r].
  { change (uint32_max ^ Z.of_nat 0) with 1 in Hup.
    assert (1 < Z.of_N (size x) ^ 3) by (apply Z.pow_gt_1; lia). lia. }
  cbn [shuffle_rounds].
  destruct (split_pair_eval k0 k1) as (a & b & c & d & Es).
  rewrite Es, bind_ok. cbn [fst snd].
  rewrite (random_bits_over_capacity c d 32 (shape x)); [reflexivity | | |].
  - now left.
  - unfold max_count_of. change (32 / 32) with 1. unfold size in Hs. lia.
  - unfold max_count_of, uint32_max. change (32 / 32) with 1.
    unfold size in Hs. lia.
Qed.

(** * Further properties *)

(** ** Seeds, rotations and the injectivity of the hash *)

(** *** Rotations *)

(** A rotation by [d] swaps the low [32 - d] bits and the high [d] bits. *)
Lemma rotate_left_split (x d : Z) :
  in_u32 x -> 0 < d < 32 ->
  ThreefrySpec.rotate_left x d
  = (x mod 2 ^ (32 - d)) * 2 ^ d + x / 2 ^ (32 - d).
Proof.
  unfold in_u32. intros Hx Hd. unfold ThreefrySpec.rotate_left.
  assert (P : 2 ^ 32 = 2 ^ (32 - d) * 2 ^ d).
  { rewrite <- Z.pow_add_r by lia. f_equal. lia. }
  assert (Pd : 0 < 2 ^ d) by (apply Z.pow_pos_nonneg; lia).
  assert (Pe : 0 < 2 ^ (32 - d)) by (apply Z.pow_pos_nonneg; lia).
  rewrite Z.shiftl_mul_pow2, Z.shiftr_div_pow2 by lia.
  rewrite P, Z.mul_mod_distr_r by lia.
  rewrite Z.lor_comm, <- (Z.shiftl_mul_pow2 _ d) by lia.
  rewrite lor_shiftl_add; [now rewrite Z.shiftl_mul_pow2 by lia | lia |].
  split; [apply Z.div_pos; lia |].
  apply Z.div_lt_upper_bound; lia.
Qed.

Lemma rotate_left_inverse (x d : Z) :
  in_u32 x -> 0 < d < 32 ->
  ThreefrySpec.rotate_left (ThreefrySpec.rotate_left x d) (32 - d) = x.
Proof.
  intros Hx Hd.
  assert (Hr : in_u32 (ThreefrySpec.rotate_left x d)).
  { destruct (rotate_left32_spec x d Hx Hd) as [E I]. now rewrite <- E. }
  rewrite (rotate_left_split _ (32 - d) Hr) by lia.
  rewrite (rotate_left_split x d Hx Hd).
  replace (32 - (32 - d)) with d by lia.
  unfold in_u32 in Hx.
  assert (Pd : 0 < 2 ^ d) by (apply Z.pow_pos_nonneg; lia).
  assert (Pe : 0 < 2 ^ (32 - d)) by (apply Z.pow_pos_nonneg; lia).
  assert (P : 2 ^ 32 = 2 ^ (32 - d) * 2 ^ d).
  { rewrite <- Z.pow_add_r by lia. f_equal. lia. }
  assert (Hhi : 0 <= x / 2 ^ (32 - d) < 2 ^ d).
  { split; [apply Z.div_pos; lia |]. apply Z.div_lt_upper_bound; lia. }
  set (lo := x mod 2 ^ (32 - d)) in *. set (hi := x / 2 ^ (32 - d)) in *.
  assert (E1 : (lo * 2 ^ d + hi) mod 2 ^ d = hi).
  { rewrite Z.add_comm, Z_mod_plus_full. now apply Z.mod_small. }
  assert (E2 : (lo * 2 ^ d + hi) / 2 ^ d = lo).
  { rewrite Z.div_add_l by lia. rewrite (Z.div_small _ _ Hhi). lia. }
  rewrite E1, E2.
  pose proof (Z.div_mod x (2 ^ (32 - d)) ltac:(lia)). subst lo hi. lia.
Qed.

Lemma rotate_left_injective (x y d : Z) :
  in_u32 x -> in_u32 y -> 0 < d < 32 ->
  ThreefrySpec.rotate_left x d = ThreefrySpec.rotate_left y d -> x = y.
Proof.
  intros Hx Hy Hd E.
  rewrite <- (rotate_left_inverse x d Hx Hd), <- (rotate_left_inverse y d Hy Hd).
  now rewrite E.
Qed.

(** *** The block function is injective *)

Lemma add_mod_cancel (a b k : Z) :
  in_u32 a -> in_u32 b ->
  (a + k) mod 2 ^ 32 = (b + k) mod 2 ^ 32 -> a = b.
Proof.
  unfold in_u32. intros Ha Hb E.
  apply (f_equal (fun z => (z - k) mod 2 ^ 32)) in E.
  rewrite !Zminus_mod_idemp_l in E.
  replace (a + k - k) with a in E by lia.
  replace (b + k - k) with b in E by lia.
  now rewrite !Z.mod_small in E by assumption.
Qed.

Lemma lxor_cancel_r (a b s : Z) : Z.lxor a s = Z.lxor b s -> a = b.
Proof.
  intros E. apply (f_equal (fun z => Z.lxor z s)) in E.
  now rewrite !Z.lxor_assoc, Z.lxor_nilpotent, !Z.lxor_0_r in E.
Qed.

Lemma mix_injective (r : Z) (p q : Z * Z) :
  in_pair p -> in_pair q -> 0 < r < 32 ->
  ThreefrySpec.mix r p = ThreefrySpec.mix r q -> p = q.
Proof.
  destruct p as [p0 p1], q as [q0 q1]. unfold in_pair, ThreefrySpec.mix.
  cbn [fst snd]. intros [Hp0 Hp1] [Hq0 Hq1] Hr E.
  injection E as E0 E1. rewrite E0 in E1.
  apply lxor_cancel_r in E1.
  apply (rotate_left_injective p1 q1 r Hp1 Hq1 Hr) in E1. subst q1.
  apply add_mod_cancel in E0; [now subst | assumption | assumption].
Qed.

Lemma rounds_injective (rots : list Z) :
  Forall (fun r => 0 < r < 32) rots ->
  forall p q, in_pair p -> in_pair q ->
    fold_left (fun s r => ThreefrySpec.mix r s) rots p
    = fold_left (fun s r => ThreefrySpec.mix r s) rots q ->
    p = q.
Proof.
  induction 1 as [| r rots Hr _ IH]; intros p q Hp Hq E; [exact E |].
  cbn [fold_left] in E.
  apply (mix_injective r p q Hp Hq Hr).
  apply IH; [| | exact E].
  - exact (proj2 (apply_round1_spec p r Hp Hr)).
  - exact (proj2 (apply_round1_spec q r Hq Hr)).
Qed.

Lemma inject_injective (k0 k1 : Z) (g : nat) (p q : Z * Z) :
  in_pair p -> in_pair q ->
  ThreefrySpec.inject k0 k1 g p = ThreefrySpec.inject k0 k1 g q -> p = q.
Proof.
  destruct p as [p0 p1], q as [q0 q1]. unfold in_pair, ThreefrySpec.inject.
  cbn [fst snd]. intros [Hp0 Hp1] [Hq0 Hq1] E. injection E as E0 E1.
  apply add_mod_cancel in E0; try assumption.
  apply add_mod_cancel in E1; try assumption. now subst.
Qed.

Lemma rotation_group_in_range (g : nat) :
  Forall (fun r => 0 < r < 32) (ThreefrySpec.rotation_group g).
Proof.
  unfold ThreefrySpec.rotation_group.
  destruct (Nat.even g); repeat constructor; lia.
Qed.

Lemma group_in_pair (k0 k1 : Z) (p : Z * Z) (g : nat) :
  in_pair (ThreefrySpec.group k0 k1 p g).
Proof.
  unfold ThreefrySpec.group, ThreefrySpec.inject.
  split; cbn [fst snd]; apply in_u32_mod.
Qed.

Lemma group_injective (k0 k1 : Z) (g : nat) (p q : Z * Z) :
  in_pair p -> in_pair q ->
  ThreefrySpec.group k0 k1 p g = ThreefrySpec.group k0 k1 q g -> p = q.
Proof.
  intros Hp Hq E. unfold ThreefrySpec.group in E.
  pose proof (rotation_group_in_range g) as R.
  apply inject_injective in E.
  - exact (rounds_injective _ R p q Hp Hq E).
  - exact (proj2 (rounds_spec _ p Hp R)).
  - exact (proj2 (rounds_spec _ q Hq R)).
Qed.

Lemma groups_injective (k0 k1 : Z) (gs : list nat) :
  forall p q, in_pair p -> in_pair q ->
    fold_left (ThreefrySpec.group k0 k1) gs p
    = fold_left (ThreefrySpec.group k0 k1) gs q ->
    p = q.
Proof.
  induction gs as [| g gs IH]; intros p q Hp Hq E; [exact E |].
  cbn [fold_left] in E.
  apply (group_injective k0 k1 g p q Hp Hq).
  apply IH; [apply group_in_pair | apply group_in_pair | exact E].
Qed.

(** For a fixed key, distinct blocks of two uint32 words hash to
    distinct blocks. *)
Lemma block_injective (k0 k1 : Z) (c c' : Z * Z) :
  in_pair c -> in_pair c' ->
  ThreefrySpec.block k0 k1 c = ThreefrySpec.block k0 k1 c' -> c = c'.
Proof.
  destruct c as [c0 c1], c' as [d0 d1]. unfold in_pair. cbn [fst snd].
  intros [H0 H1] [G0 G1] E. unfold ThreefrySpec.block in E.
  apply groups_injective in E.
  - cbn [fst snd] in E. injection E as E0 E1.
    apply add_mod_cancel in E0; try assumption.
    apply add_mod_cancel in E1; try assumption. now subst.
  - split; cbn [fst snd]; apply in_u32_mod.
  - split; cbn [fst snd]; apply in_u32_mod.
Qed.

(** *** From blocks to arrays *)

Lemma app_eq_length_inv {A : Type} (a b c d : list A) :
  length a = length c -> a ++ b = c ++ d -> a = c /\ b = d.
Proof.
  revert c. induction a as [| x a IH]; intros [| y c] Hl E; cbn in Hl;
    try discriminate.
  - now split.
  - injection Hl as Hl. cbn in E. injection E as -> E.
    destruct (IH c Hl E) as [-> ->]. now split.
Qed.

Lemma unzip_injective {A B : Type} (X Y : list (A * B)) :
  map fst X = map fst Y -> map snd X = map snd Y -> X = Y.
Proof.
  revert Y. induction X as [| [a b] X IH]; intros [| [c d] Y] E1 E2;
    cbn in *; try discriminate; [reflexivity |].
  injection E1 as -> E1. injection E2 as -> E2. f_equal. now apply IH.
Qed.

Lemma map_injective_on {A B : Type} (P : A -> Prop) (f : A -> B) :
  (forall x y, P x -> P y -> f x = f y -> x = y) ->
  forall l l', Forall P l -> Forall P l' -> map f l = map f l' -> l = l'.
Proof.
  intros Hf. induction l as [| x l IH]; intros [| y l'] Hl Hl' E; cbn in E;
    try discriminate; [reflexivity |].
  injection E as E0 E. inversion Hl; inversion Hl'; subst.
  f_equal; [now apply Hf | now apply IH].
Qed.

Lemma combine_in_pair (xs ys : list Z) :
  Forall in_u32 xs -> Forall in_u32 ys -> Forall in_pair (combine xs ys).
Proof.
  intros Hx Hy. apply Forall_forall. intros [a b] Hin.
  rewrite Forall_forall in Hx, Hy. split; cbn [fst snd].
  - eapply Hx, in_combine_l, Hin.
  - eapply Hy, in_combine_r, Hin.
Qed.

(** The words of an even-sized counter, block by block. *)
Lemma hash_words_even (k0 k1 : Z) (l : list Z) :
  Nat.even (length l) = true ->
  let blocks := map (ThreefrySpec.block k0 k1)
                  (combine (fst (halves l)) (snd (halves l))) in
  hash_words k0 k1 l = map fst blocks ++ map snd blocks.
Proof.
  intros Ev. cbv zeta. rewrite hash_words_spec. unfold ThreefrySpec.hash.
  cbv zeta. unfold Nat.odd. rewrite Ev. cbn [negb].
  destruct (halves_length l Ev) as [L1 L2].
  unfold halves in *. cbn [fst snd] in *.
  apply firstn_all2.
  rewrite length_app, !length_map, length_combine, L1, L2, Nat.min_id.
  pose proof (even_halves _ Ev). lia.
Qed.

Lemma halves_injective (l l' : list Z) :
  length l = length l' -> halves l = halves l' -> l = l'.
Proof.
  intros Hl E. unfold halves in E. rewrite <- Hl in E. injection E as E1 E2.
  rewrite <- (firstn_skipn (Nat.div2 (length l)) l).
  rewrite <- (firstn_skipn (Nat.div2 (length l)) l').
  now rewrite E1, E2.
Qed.

Lemma Forall_skipn_of {A : Type} (P : A -> Prop) (n : nat) (l : list A) :
  Forall P l -> Forall P (skipn n l).
Proof.
  rewrite !Forall_forall. intros H x Hx. eapply H, In_skipn_inv, Hx.
Qed.

(** On counters of even size the hash is injective. *)
Lemma hash_words_injective (k0 k1 : Z) (l l' : list Z) :
  Nat.even (length l) = true -> length l = length l' ->
  Forall in_u32 l -> Forall in_u32 l' ->
  hash_words k0 k1 l = hash_words k0 k1 l' -> l = l'.
Proof.
  intros Ev Hl Rl Rl' E.
  assert (Ev' : Nat.even (length l') = true) by now rewrite <- Hl.
  rewrite (hash_words_even k0 k1 l Ev), (hash_words_even k0 k1 l' Ev') in E.
  cbv zeta in E.
  destruct (halves_length l Ev) as [L1 L2].
  destruct (halves_length l' Ev') as [L1' L2'].
  apply app_eq_length_inv in E.
  2: { rewrite !length_map, !length_combine, L1, L2, L1', L2', Hl.
       reflexivity. }
  destruct E as [E1 E2].
  pose proof (unzip_injective _ _ E1 E2) as Eb.
  apply (map_injective_on in_pair) in Eb.
  - apply halves_injective; [exact Hl |].
    pose proof (unzip_combine _ _ (eq_trans L1 (eq_sym L2))) as U.
    pose proof (unzip_combine _ _ (eq_trans L1' (eq_sym L2'))) as U'.
    rewrite Eb in U. rewrite U' in U.
    destruct (halves l), (halves l'). cbn [fst snd] in U. now injection U as -> ->.
  - apply block_injective.
  - unfold halves. cbn [fst snd]. apply combine_in_pair;
      [now apply Forall_firstn_of | now apply Forall_skipn_of].
  - unfold halves. cbn [fst snd]. apply combine_in_pair;
      [now apply Forall_firstn_of | now apply Forall_skipn_of].
Qed.

(** *** Keys from seeds *)

Lemma land_u32 (x : Z) : Z.land x 4294967295 = x mod 2 ^ 32.
Proof. change 4294967295 with (Z.ones 32). apply Z.land_ones. lia. Qed.

Lemma PRNGKey_words (seed : Z) :
  PRNGKey seed = key_of ((seed / 2 ^ 32) mod 2 ^ 32) (seed mod 2 ^ 32).
Proof.
  unfold PRNGKey, key_of, lax_convert_element_type.
  rewrite !wrap_uint32, !land_u32, !Zmod_mod.
  rewrite Z.shiftr_div_pow2 by lia. reflexivity.
Qed.

Lemma recombine_words (seed : Z) :
  (seed / 2 ^ 32) mod 2 ^ 32 * 2 ^ 32 + seed mod 2 ^ 32 = seed mod 2 ^ 64.
Proof.
  change (2 ^ 64) with (2 ^ 32 * 2 ^ 32).
  rewrite Z.rem_mul_r by lia. lia.
Qed.

Lemma PRNGKey_eq_iff (d d' : Z) :
  PRNGKey d = PRNGKey d' <-> d mod 2 ^ 64 = d' mod 2 ^ 64.
Proof.
  rewrite !PRNGKey_words. unfold key_of. split.
  - intros E. injection E as E1 E2.
    rewrite <- (recombine_words d), <- (recombine_words d').
    change (Z.pow_pos 2 32) with (2 ^ 32) in E1, E2.
    now rewrite E1, E2.
  - intros E. pose proof (recombine_words d) as Hd.
    pose proof (recombine_words d') as Hd'. rewrite E in Hd.
    pose proof (Z.mod_pos_bound d (2 ^ 32) ltac:(lia)).
    pose proof (Z.mod_pos_bound d' (2 ^ 32) ltac:(lia)).
    assert (E2 : d mod 2 ^ 32 = d' mod 2 ^ 32).
    { apply (f_equal (fun z => z mod 2 ^ 32)) in Hd.
      rewrite Z.add_comm, Z_mod_plus_full, Zmod_mod in Hd.
      rewrite <- Hd' in Hd.
      rewrite Z.add_comm, Z_mod_plus_full, Zmod_mod in Hd. exact Hd. }
    assert (E1 : (d / 2 ^ 32) mod 2 ^ 32 = (d' / 2 ^ 32) mod 2 ^ 32) by lia.
    now rewrite E1, E2.
Qed.

Lemma int64_mod_inj (d d' : Z) :
  - 2 ^ 63 <= d < 2 ^ 63 -> - 2 ^ 63 <= d' < 2 ^ 63 ->
  d mod 2 ^ 64 = d' mod 2 ^ 64 -> d = d'.
Proof.
  change (2 ^ 63) with 9223372036854775808.
  change (2 ^ 64) with 18446744073709551616.
  intros H H' E. Z.div_mod_to_equations. lia.
Qed.

(** X1: a seed in the 64-bit range is cut into its high and low 32-bit
    words, [k1 * 2^32 + k2 = seed mod 2^64]; the result is a valid key;
    a seed below [2^32] is padded with a zero high word; and distinct
    seeds give distinct keys. *)
Theorem PRNGKey_round_trip (seed : Z) :
  - 2 ^ 63 <= seed < 2 ^ 63 ->
  exists k1 k2 : Z,
    PRNGKey seed = key_of k1 k2
    /\ _is_prng_key (PyArray (PRNGKey seed)) = true
    /\ in_u32 k1 /\ in_u32 k2
    /\ k1 * 2 ^ 32 + k2 = seed mod 2 ^ 64
    /\ (0 <= seed < 2 ^ 32 -> k1 = 0 /\ k2 = seed)
    /\ (forall seed', - 2 ^ 63 <= seed' < 2 ^ 63 ->
                      PRNGKey seed' = PRNGKey seed -> seed' = seed).
Proof.
  intros Hs.
  exists ((seed / 2 ^ 32) mod 2 ^ 32), (seed mod 2 ^ 32).
  split; [apply PRNGKey_words |]. split; [reflexivity |].
  split; [apply in_u32_mod |]. split; [apply in_u32_mod |].
  split; [apply recombine_words |]. split.
  - intros H. rewrite (Z.div_small seed) by lia.
    rewrite (Z.mod_small seed) by lia. now split.
  - intros seed' Hs' E. apply PRNGKey_eq_iff in E.
    now apply int64_mod_inj.
Qed.

Lemma PRNGKey_round_trip_witness :
  - 2 ^ 63 <= - 1 < 2 ^ 63
  /\ exists k1 k2 : Z,
      PRNGKey (- 1) = key_of k1 k2
      /\ k1 * 2 ^ 32 + k2 = (- 1) mod 2 ^ 64.
Proof.
  assert (H : - 2 ^ 63 <= - 1 < 2 ^ 63) by (split; [discriminate | reflexivity]).
  split; [exact H |].
  destruct (PRNGKey_round_trip (- 1) H) as (k1 & k2 & E & _ & _ & _ & R & _).
  exists k1, k2. split; [exact E | exact R].
Defined.

(** *** Injectivity of the hash, of [fold_in], and distinct 64-bit draws *)

(** X3: for a fixed key the hash is injective on counters of even
    size: two uint32 counters of the same shape that hash to the same
    output are equal, since every round of a block (an addition modulo
    [2^32], a rotation, an exclusive or, a key injection) can be
    undone. *)
Theorem threefry_2x32_injective (k0 k1 : Z) (c c' : ndarray Z) :
  dtype_of c = uint32 -> dtype_of c' = uint32 ->
  well_formed c -> well_formed c' -> shape c = shape c' ->
  N.even (size c) = true ->
  Forall in_u32 (data c) -> Forall in_u32 (data c') ->
  threefry_2x32 (key_of k0 k1) c = threefry_2x32 (key_of k0 k1) c' ->
  c = c'.
Proof.
  intros D D' W W' S Ev R R' E.
  rewrite (threefry_2x32_eval k0 k1 c D W),
    (threefry_2x32_eval k0 k1 c' D' W') in E.
  injection E as _ E.
  assert (Hl : length (data c) = length (data c')).
  { unfold well_formed, size in *. rewrite S in W. apply Nat2N.inj.
    now rewrite W, W'. }
  assert (Ev' : Nat.even (length (data c)) = true).
  { unfold well_formed in W. rewrite <- W in Ev.
    now rewrite (proj2 (N_parity_of_nat _)) in Ev. }
  apply ndarray_eq; [congruence | exact S |].
  now apply (hash_words_injective k0 k1).
Qed.

Lemma threefry_2x32_injective_witness :
  exists c,
    dtype_of c = uint32 /\ well_formed c /\ N.even (size c) = true
    /\ Forall in_u32 (data c)
    /\ threefry_2x32 (key_of 0 0) c
       = threefry_2x32 (key_of 0 0) (mkarray uint32 [2%N] [0; 0])
    /\ c = mkarray uint32 [2%N] [0; 0].
Proof.
  exists (mkarray uint32 [2%N] [0; 0]).
  assert (R : Forall in_u32 [0; 0]) by (repeat constructor; cbv; congruence).
  split; [reflexivity |]. split; [reflexivity |]. split; [reflexivity |].
  split; [exact R |]. split; [reflexivity |].
  exact (threefry_2x32_injective 0 0 (mkarray uint32 [2%N] [0; 0])
           (mkarray uint32 [2%N] [0; 0]) eq_refl eq_refl eq_refl eq_refl
           eq_refl eq_refl R R eq_refl).
Defined.

Lemma PRNGKey_in_u32 (d : Z) : Forall in_u32 (data (PRNGKey d)).
Proof.
  rewrite PRNGKey_words. cbn [key_of data].
  repeat constructor; apply in_u32_mod.
Qed.

Lemma ok_array_inj (n : nat) (dt : dtype) (s : list N) (l l' : list Z) :
  (n, Ok (mkarray dt s l)) = (n, Ok (mkarray dt s l')) -> l = l'.
Proof. intros E. now injection E. Qed.

Lemma fold_in_eq_iff (k0 k1 d d' : Z) :
  fold_in (key_of k0 k1) d = fold_in (key_of k0 k1) d'
  <-> d mod 2 ^ 64 = d' mod 2 ^ 64.
Proof.
  rewrite !fold_in_eval, <- PRNGKey_eq_iff. split.
  - intros E. apply ok_array_inj in E.
    apply ndarray_eq; [reflexivity | reflexivity |].
    apply (hash_words_injective k0 k1);
      [reflexivity | reflexivity | apply PRNGKey_in_u32
      | apply PRNGKey_in_u32 | exact E].
  - intros E. rewrite E. reflexivity.
Qed.

(** X4: under one key, [fold_in] sends distinct 64-bit integers to
    distinct keys: the data is cut into two words by [PRNGKey] and the
    hash of one block is injective. *)
Theorem fold_in_injective (k0 k1 d d' : Z) :
  - 2 ^ 63 <= d < 2 ^ 63 -> - 2 ^ 63 <= d' < 2 ^ 63 ->
  fold_in (key_of k0 k1) d = fold_in (key_of k0 k1) d' -> d = d'.
Proof.
  intros H H' E. apply fold_in_eq_iff in E. now apply int64_mod_inj.
Qed.

Lemma fold_in_injective_witness :
  - 2 ^ 63 <= 7 < 2 ^ 63
  /\ fold_in (key_of 0 0) 7 = fold_in (key_of 0 0) 7
  /\ 7 = 7.
Proof.
  assert (H : - 2 ^ 63 <= 7 < 2 ^ 63) by (split; [discriminate | reflexivity]).
  split; [exact H |]. split; [reflexivity |].
  exact (fold_in_injective 0 0 7 7 H H eq_refl).
Defined.

(** ** Distinct 64-bit draws *)

Lemma block_in_pair (k0 k1 : Z) (c : Z * Z) :
  in_pair (ThreefrySpec.block k0 k1 c).
Proof.
  unfold ThreefrySpec.block. cbn [seq fold_left]. apply group_in_pair.
Qed.

Lemma pair_words_injective (p q : Z * Z) :
  in_pair p -> in_pair q ->
  pair_words (fst p) (snd p) = pair_words (fst q) (snd q) -> p = q.
Proof.
  destruct p as [a b], q as [c d]. unfold in_pair, in_u32, pair_words.
  cbn [fst snd]. intros [Ha Hb] [Hc Hd] E.
  rewrite !(Z.lor_comm (Z.shiftl _ 32)) in E.
  rewrite !lor_shiftl_add in E by lia.
  assert (a = c) by nia. subst c. f_equal. lia.
Qed.

Lemma NoDup_map_on {A B : Type} (P : A -> Prop) (f : A -> B) (l : list A) :
  (forall x y, P x -> P y -> f x = f y -> x = y) ->
  Forall P l -> NoDup l -> NoDup (map f l).
Proof.
  intros Hf HP ND. induction ND as [| x l Hx ND IH]; cbn; constructor.
  - inversion HP as [| ? ? Px Pl]; subst. intros Hin.
    apply in_map_iff in Hin. destruct Hin as [y [E Hy]].
    rewrite Forall_forall in Pl.
    apply Hf in E; [subst; contradiction | now apply Pl | exact Px].
  - inversion HP; subst. now apply IH.
Qed.

Lemma NoDup_combine_l {A B : Type} (xs : list A) (ys : list B) :
  NoDup xs -> NoDup (combine xs ys).
Proof.
  intros ND. revert ys. induction ND as [| x xs Hx ND IH]; intros ys.
  - constructor.
  - destruct ys as [| y ys]; cbn; constructor.
    + intros Hin. apply in_combine_l in Hin. contradiction.
    + apply IH.
Qed.

Lemma NoDup_firstn_of {A : Type} (n : nat) (l : list A) :
  NoDup l -> NoDup (firstn n l).
Proof.
  intros ND. rewrite <- (firstn_skipn n l) in ND.
  now apply NoDup_app_remove_r in ND.
Qed.

Lemma counter_words_NoDup (n : Z) : n <= 2 ^ 32 -> NoDup (counter_words n).
Proof.
  intros Hn. rewrite counter_words_exact by exact Hn.
  apply (NoDup_map_on (fun _ => True)); [| | apply seq_NoDup].
  - intros a b _ _. apply Nat2Z.inj.
  - apply Forall_forall. intros; exact I.
Qed.

Lemma counter_words_in_u32 (n : Z) : Forall in_u32 (counter_words n).
Proof.
  unfold counter_words. apply Forall_forall. intros w Hin.
  apply in_map_iff in Hin. destruct Hin as [i [<- _]].
  rewrite wrap_uint32. apply in_u32_mod.
Qed.

Lemma halves_app (a b : list Z) :
  length a = length b -> halves (a ++ b) = (a, b).
Proof.
  intros Hl. unfold halves. rewrite length_app, <- Hl.
  replace (length a + length a)%nat with (2 * length a)%nat by lia.
  rewrite Nat.div2_double.
  rewrite firstn_app, skipn_app, Nat.sub_diag, firstn_all, skipn_all.
  cbn. now rewrite app_nil_r.
Qed.

(** The 64-bit words of one call are the hashed blocks themselves. *)
Lemma bits64_of_blocks (k0 k1 : Z) (l : list Z) :
  Nat.even (length l) = true ->
  bits_of_words 64 (hash_words k0 k1 l)
  = map (fun c => pair_words (fst (ThreefrySpec.block k0 k1 c))
                    (snd (ThreefrySpec.block k0 k1 c)))
      (combine (fst (halves l)) (snd (halves l))).
Proof.
  intros Ev. unfold bits_of_words. change (64 =? 64) with true. cbv iota.
  rewrite (hash_words_even k0 k1 l Ev). cbv zeta.
  rewrite halves_app by now rewrite !length_map.
  cbn [fst snd]. rewrite zip_with_map, map_map. reflexivity.
Qed.

Lemma random_bits64_NoDup (k0 k1 : Z) (l : list Z) :
  Nat.even (length l) = true -> Forall in_u32 l -> NoDup l ->
  NoDup (bits_of_words 64 (hash_words k0 k1 l)).
Proof.
  intros Ev R ND. rewrite (bits64_of_blocks k0 k1 l Ev).
  apply (NoDup_map_on in_pair).
  - intros x y Hx Hy E. apply pair_words_injective in E;
      [| apply block_in_pair | apply block_in_pair].
    now apply (block_injective k0 k1).
  - unfold halves. cbn [fst snd]. apply combine_in_pair;
      [now apply Forall_firstn_of | now apply Forall_skipn_of].
  - apply NoDup_combine_l. unfold halves. cbn [fst snd].
    now apply NoDup_firstn_of.
Qed.

(** X7: the 64-bit words of one call of [_random_bits] are pairwise
    distinct: word [i] is the hashed block of the counter pair
    [(i, n + i)], the pairs differ, and the hash of a block is
    injective. *)
Theorem random_bits_64_distinct (k0 k1 : Z) (shp : list N) :
  max_count_of 64 shp < uint32_max ->
  exists bits,
    _random_bits (PyArray (key_of k0 k1)) 64 shp = (1%nat, Ok bits)
    /\ dtype_of bits = uint64 /\ shape bits = shp /\ well_formed bits
    /\ NoDup (data bits).
Proof.
  intros Hm. eexists. split; [apply random_bits_eval; [now right | exact Hm] |].
  split; [reflexivity |]. split; [reflexivity |].
  split; [unfold well_formed, size; cbn [data shape];
          apply bits_of_words_size; now right |].
  cbn [data]. unfold uint32_max in Hm.
  assert (H0 : 0 <= max_count_of 64 shp)
    by (unfold max_count_of; change (64 / 32) with 2; lia).
  apply random_bits64_NoDup.
  - rewrite counter_words_length. unfold max_count_of.
    change (64 / 32) with 2.
    replace (Z.to_nat (2 * Z.of_N (shape_size shp)))
      with (2 * N.to_nat (shape_size shp))%nat by lia.
    apply Nat.even_spec. now exists (N.to_nat (shape_size shp)).
  - apply counter_words_in_u32.
  - apply counter_words_NoDup. lia.
Qed.

Lemma random_bits_64_distinct_witness :
  max_count_of 64 [3%N] < uint32_max
  /\ exists bits,
      _random_bits (PyArray (key_of 0 42)) 64 [3%N] = (1%nat, Ok bits)
      /\ dtype_of bits = uint64 /\ shape bits = [3%N] /\ well_formed bits
      /\ NoDup (data bits).
Proof.
  split; [reflexivity | apply (random_bits_64_distinct 0 42 [3%N]); reflexivity].
Defined.

(** ** The rotation, coinciding streams and the rows of a split *)

(** X2: the rotation [_make_rotate_left] builds for uint32 moves the low
    [32 - d] bits of a word up by [d] places and its high [d] bits down
    to the bottom; the result is a uint32 word, and rotating it by
    [32 - d] gives the word back. *)
Theorem make_rotate_left_round_trip (x d : Z) :
  in_u32 x -> 0 < d < 32 ->
  exists rl : Z -> Z -> Z,
    _make_rotate_left uint32 = ret rl
    /\ in_u32 (rl x d)
    /\ rl x d = (x mod 2 ^ (32 - d)) * 2 ^ d + x / 2 ^ (32 - d)
    /\ rl (rl x d) (32 - d) = x.
Proof.
  intros Hx Hd. exists rotate_left32. split; [reflexivity |].
  destruct (rotate_left32_spec x d Hx Hd) as [E I].
  split; [exact I |]. split; [rewrite E; now apply rotate_left_split |].
  destruct (rotate_left32_spec (rotate_left32 x d) (32 - d) I ltac:(lia))
    as [E' _].
  rewrite E', E. now apply rotate_left_inverse.
Qed.

Lemma make_rotate_left_round_trip_witness :
  in_u32 2147483649 /\ 0 < 4 < 32
  /\ exists rl : Z -> Z -> Z,
      _make_rotate_left uint32 = ret rl
      /\ in_u32 (rl 2147483649 4)
      /\ rl 2147483649 4
         = (2147483649 mod 2 ^ (32 - 4)) * 2 ^ 4 + 2147483649 / 2 ^ (32 - 4)
      /\ rl (rl 2147483649 4) (32 - 4) = 2147483649.
Proof.
  assert (Hx : in_u32 2147483649) by (unfold in_u32; lia).
  assert (Hd : 0 < 4 < 32) by lia.
  split; [exact Hx |]. split; [exact Hd |].
  exact (make_rotate_left_round_trip 2147483649 4 Hx Hd).
Defined.

Lemma counter_words_two : counter_words 2 = [0; 1].
Proof. reflexivity. Qed.

Lemma PRNGKey_one : data (PRNGKey 1) = [0; 1].
Proof. reflexivity. Qed.

(** X5: under any key, [fold_in(key, 1)], the only row of
    [split(key, 1)] and the two 32-bit words of
    [_random_bits(key, 32, (2,))] are the same two words: each of the
    three hashes the single block [(0, 1)]. *)
Theorem split_one_fold_in_one (k0 k1 : Z) :
  exists a b : Z,
    in_u32 a /\ in_u32 b
    /\ fold_in (key_of k0 k1) 1 = (1%nat, Ok (key_of a b))
    /\ split (key_of k0 k1) 1 = (1%nat, Ok (mkarray uint32 [1%N; 2%N] [a; b]))
    /\ _random_bits (PyArray (key_of k0 k1)) 32 [2%N]
       = (1%nat, Ok (mkarray uint32 [2%N] [a; b])).
Proof.
  pose proof (hash_words_length k0 k1 [0; 1]) as L.
  pose proof (hash_words_in_u32 k0 k1 [0; 1]) as R.
  destruct (length2_inv _ L) as (a & b & E).
  exists a, b. rewrite E in R.
  inversion R as [| ? ? Ha R']; subst. inversion R' as [| ? ? Hb _]; subst.
  split; [exact Ha |]. split; [exact Hb |]. split; [| split].
  - rewrite fold_in_eval, PRNGKey_one, E. reflexivity.
  - rewrite split_eval. change (Z.of_N 1 * 2) with 2.
    rewrite counter_words_two, E. reflexivity.
  - rewrite (random_bits_eval k0 k1 32 [2%N]);
      [| now left | reflexivity].
    change (max_count_of 32 [2%N]) with 2.
    rewrite counter_words_two. unfold bits_of_words, bits_dtype.
    change (32 =? 64) with false. cbv iota. rewrite E. reflexivity.
Qed.

Lemma key_rows_length (l : list Z) :
  length (key_rows l) = Nat.div2 (length l).
Proof.
  assert (G : forall n l, (length l <= n)%nat ->
                length (key_rows l) = Nat.div2 (length l)).
  { induction n as [| n IH]; intros [| a [| b r]] Hl; cbn in *;
      try reflexivity; try lia.
    f_equal. apply IH. lia. }
  now apply (G (length l)).
Qed.

Lemma key_rows_valid (l : list Z) :
  Forall in_u32 l ->
  Forall (fun k => exists a b, k = key_of a b /\ in_u32 a /\ in_u32 b)
    (key_rows l).
Proof.
  assert (G : forall n l, (length l <= n)%nat -> Forall in_u32 l ->
                Forall (fun k => exists a b,
                          k = key_of a b /\ in_u32 a /\ in_u32 b)
                  (key_rows l)).
  { induction n as [| n IH]; intros [| a [| b r]] Hl R; cbn in *;
      try constructor; try lia.
    - inversion R as [| ? ? Ha R']; subst.
      inversion R' as [| ? ? Hb R'']; subst. now exists a, b.
    - inversion R as [| ? ? Ha R']; subst.
      inversion R' as [| ? ? Hb R'']; subst. apply IH; [lia | exact R'']. }
  now apply (G (length l)).
Qed.

(** X6: [split(key, num)] runs the hash once and returns [num] rows,
    each a valid key of two uint32 words, which [split] and [fold_in]
    accept in turn. *)
Theorem split_rows_are_keys (k0 k1 : Z) (num : N) :
  exists ks : ndarray Z,
    split (key_of k0 k1) num = (1%nat, Ok ks)
    /\ shape ks = [num; 2%N] /\ dtype_of ks = uint32 /\ well_formed ks
    /\ length (key_rows (data ks)) = N.to_nat num
    /\ Forall (fun k =>
                 _is_prng_key (PyArray k) = true
                 /\ Forall in_u32 (data k)
                 /\ (forall n, exists ks', split k n = (1%nat, Ok ks'))
                 /\ (forall d, exists k', fold_in k d = (1%nat, Ok k')))
         (key_rows (data ks)).
Proof.
  eexists. split; [apply split_eval |]. cbn [shape dtype_of data].
  assert (L : length (hash_words k0 k1 (counter_words (Z.of_N num * 2)))
              = (2 * N.to_nat num)%nat).
  { rewrite hash_words_length, counter_words_length. lia. }
  split; [reflexivity |]. split; [reflexivity |]. split.
  { unfold well_formed, size. cbn [data shape shape_size fold_right].
    rewrite L. lia. }
  split.
  { rewrite key_rows_length, L. apply Nat.div2_double. }
  pose proof (key_rows_valid _ (hash_words_in_u32 k0 k1
                (counter_words (Z.of_N num * 2)))) as V.
  rewrite Forall_forall in V. apply Forall_forall. intros k Hk.
  destruct (V k Hk) as (a & b & -> & Ha & Hb).
  split; [reflexivity |].
  split; [cbn [key_of data]; constructor; [exact Ha | constructor; [exact Hb | constructor]] |].
  split.
  - intros n. eexists. apply split_eval.
  - intros d. eexists. apply fold_in_eval.
Qed.

(** ** The offsets of the bounded integer sampler *)

Lemma wrap_unsigned_of_bits (nbits x : Z) :
  nbits = 32 \/ nbits = 64 ->
  wrap (unsigned_of_bits nbits) x = x mod 2 ^ nbits.
Proof. intros [-> | ->]; reflexivity. Qed.

Lemma randint_multiplier_small (nbits span : Z) :
  nbits = 32 \/ nbits = 64 -> 0 < span <= 2 ^ (nbits / 2) ->
  randint_multiplier nbits span = 2 ^ nbits mod span.
Proof.
  intros [-> | ->] Hs.
  - now apply randint_multiplier_small_32.
  - now apply randint_multiplier_small_64.
Qed.

Lemma randint_multiplier_large (nbits span : Z) :
  nbits = 32 \/ nbits = 64 -> 2 ^ (nbits / 2) < span ->
  randint_multiplier nbits span = 0.
Proof.
  intros [-> | ->] Hs.
  - now apply randint_multiplier_large_32.
  - now apply randint_multiplier_large_64.
Qed.

(** X10: while the span is at most [2 ^ (nbits / 2)], the offset
    [_randint] computes from the two raw words is the remainder of the
    double-width number [hi * 2 ^ nbits + lo] by the span: the
    multiplier is [2 ^ nbits mod span] and no product or sum wraps. *)
Theorem randint_offset_exact (nbits span hi lo : Z) :
  nbits = 32 \/ nbits = 64 ->
  0 < span <= 2 ^ (nbits / 2) ->
  0 <= hi < 2 ^ nbits -> 0 <= lo < 2 ^ nbits ->
  randint_offset nbits span (randint_multiplier nbits span) hi lo
  = (hi * 2 ^ nbits + lo) mod span.
Proof.
  intros Hn Hs Hh Hl.
  rewrite (randint_multiplier_small nbits span Hn Hs).
  unfold randint_offset, lax_rem, lax_add, lax_mul. cbv zeta.
  rewrite !(wrap_unsigned_of_bits nbits _ Hn).
  rewrite (Z.rem_mod_nonneg hi), (Z.rem_mod_nonneg lo) by lia.
  pose proof (Z.mod_pos_bound hi span ltac:(lia)) as Bh.
  pose proof (Z.mod_pos_bound lo span ltac:(lia)) as Bl.
  pose proof (Z.mod_pos_bound (2 ^ nbits) span ltac:(lia)) as Bm.
  assert (Sq : span * span <= 2 ^ nbits).
  { assert (E : 2 ^ nbits = 2 ^ (nbits / 2) * 2 ^ (nbits / 2))
      by (destruct Hn as [-> | ->]; reflexivity).
    rewrite E. apply Z.mul_le_mono_nonneg; lia. }
  rewrite (Z.mod_small (hi mod span * _)) by nia.
  rewrite (Z.mod_small (_ + _)) by nia.
  rewrite Z.rem_mod_nonneg by nia.
  symmetry. rewrite Z.add_mod, (Z.mul_mod hi) by lia.
  now rewrite Z.add_mod_idemp_l by lia.
Qed.

Lemma randint_offset_exact_witness :
  (32 = 32 \/ 32 = 64) /\ 0 < 1000 <= 2 ^ (32 / 2)
  /\ 0 <= 4000000000 < 2 ^ 32 /\ 0 <= 123456789 < 2 ^ 32
  /\ randint_offset 32 1000 (randint_multiplier 32 1000) 4000000000 123456789
     = (4000000000 * 2 ^ 32 + 123456789) mod 1000.
Proof.
  assert (Hn : 32 = 32 \/ 32 = 64) by now left.
  assert (Hs : 0 < 1000 <= 2 ^ (32 / 2)) by (split; [lia | discriminate]).
  assert (Hh : 0 <= 4000000000 < 2 ^ 32) by lia.
  assert (Hl : 0 <= 123456789 < 2 ^ 32) by lia.
  split; [exact Hn |]. split; [exact Hs |]. split; [exact Hh |].
  split; [exact Hl |].
  exact (randint_offset_exact 32 1000 4000000000 123456789 Hn Hs Hh Hl).
Defined.

(** X11: once the span exceeds [2 ^ (nbits / 2)], for 32 and for 64
    bits, the multiplier is 0 and the offset is the low word reduced by
    the span; the high word does not enter it. *)
Theorem randint_offset_drops_high_word (nbits span hi lo : Z) :
  nbits = 32 \/ nbits = 64 ->
  2 ^ (nbits / 2) < span ->
  0 <= hi < 2 ^ nbits -> 0 <= lo < 2 ^ nbits ->
  randint_multiplier nbits span = 0
  /\ randint_offset nbits span (randint_multiplier nbits span) hi lo
     = lo mod span.
Proof.
  intros Hn Hs Hh Hl.
  pose proof (randint_multiplier_large nbits span Hn Hs) as E.
  split; [exact E |]. rewrite E.
  assert (P : 0 < 2 ^ (nbits / 2)) by (destruct Hn as [-> | ->]; reflexivity).
  unfold randint_offset, lax_rem, lax_add, lax_mul. cbv zeta.
  rewrite !(wrap_unsigned_of_bits nbits _ Hn).
  rewrite Z.mul_0_r, Z.mod_0_l by lia. rewrite Z.add_0_l.
  rewrite (Z.rem_mod_nonneg lo) by lia.
  pose proof (Z.mod_pos_bound lo span ltac:(lia)) as Bl.
  assert (Ble : lo mod span <= lo) by (apply Z.mod_le; lia).
  rewrite (Z.mod_small (lo mod span)) by lia.
  rewrite Z.rem_mod_nonneg by lia. apply Z.mod_mod. lia.
Qed.

Lemma randint_offset_drops_high_word_witness :
  (64 = 32 \/ 64 = 64) /\ 2 ^ (64 / 2) < 5000000000
  /\ 0 <= 17 < 2 ^ 64 /\ 0 <= 9000000000000000001 < 2 ^ 64
  /\ randint_multiplier 64 5000000000 = 0
  /\ randint_offset 64 5000000000 (randint_multiplier 64 5000000000)
       17 9000000000000000001
     = 9000000000000000001 mod 5000000000.
Proof.
  assert (Hn : 64 = 32 \/ 64 = 64) by now right.
  assert (Hs : 2 ^ (64 / 2) < 5000000000) by reflexivity.
  assert (Hh : 0 <= 17 < 2 ^ 64) by lia.
  assert (Hl : 0 <= 9000000000000000001 < 2 ^ 64) by lia.
  split; [exact Hn |]. split; [exact Hs |]. split; [exact Hh |].
  split; [exact Hl |].
  exact (randint_offset_drops_high_word 64 5000000000 17
           9000000000000000001 Hn Hs Hh Hl).
Defined.

(** X9: for dtype int32 or int64, [minval] below the largest value of
    the dtype and a request that fits one call, [_randint] runs the hash
    three times and returns an array of the shape and dtype asked for
    whose elements lie in [minval, max(minval + 1, maxval)); when
    [maxval <= minval] every element is [minval]. *)
Theorem randint_sample_bounds (k0 k1 : Z) (shp : list N) (minval maxval : Z)
  (dt : dtype) :
  dt = int32 \/ dt = int64 ->
  - 2 ^ (dtype_bits dt - 1) <= minval < 2 ^ (dtype_bits dt - 1) - 1 ->
  - 2 ^ (dtype_bits dt - 1) <= maxval < 2 ^ (dtype_bits dt - 1) ->
  max_count_of (dtype_bits dt) shp < uint32_max ->
  exists out,
    _randint (key_of k0 k1) shp minval maxval dt = (3%nat, Ok out)
    /\ dtype_of out = dt /\ shape out = shp /\ well_formed out
    /\ Forall (fun v => minval <= v < Z.max (minval + 1) maxval) (data out)
    /\ (maxval <= minval -> Forall (fun v => v = minval) (data out)).
Proof.
  intros Hdt Hmin Hmax Hm.
  destruct (randint_in_range k0 k1 shp minval maxval dt Hdt Hmin Hmax Hm)
    as (out & E & S & R & D).
  assert (Hi : is_integer dt = true) by (destruct Hdt as [-> | ->]; reflexivity).
  assert (Hb : dtype_bits dt = 32 \/ dtype_bits dt = 64)
    by (destruct Hdt as [-> | ->]; auto).
  destruct (randint_eval k0 k1 shp minval maxval dt Hi Hb Hm)
    as (hi & lo & L & Sz & E').
  cbv zeta in E'. rewrite E' in E. exists out.
  split; [now rewrite E' |].
  apply (f_equal snd) in E. cbn [snd] in E.
  assert (Eo : out = mkarray dt shp
            (map (fun o => lax_add dt (lax_convert_element_type dt minval)
                             (lax_convert_element_type dt o))
               (zip_with
                  (randint_offset (dtype_bits dt)
                     (randint_span dt (lax_convert_element_type dt minval)
                        (randint_maxval dt
                           (lax_convert_element_type dt minval)
                           (lax_convert_element_type dt maxval)))
                     (randint_multiplier (dtype_bits dt)
                        (randint_span dt (lax_convert_element_type dt minval)
                           (randint_maxval dt
                              (lax_convert_element_type dt minval)
                              (lax_convert_element_type dt maxval)))))
                  hi lo)))
    by congruence.
  split; [now rewrite Eo |]. split; [exact S |]. split; [| now split].
  rewrite Eo. unfold well_formed, size. cbn [data shape].
  rewrite length_map, zip_with_length, <- L, Nat.min_id. exact Sz.
Qed.

Lemma randint_sample_bounds_witness :
  (int32 = int32 \/ int32 = int64)
  /\ - 2 ^ (dtype_bits int32 - 1) <= -5 < 2 ^ (dtype_bits int32 - 1) - 1
  /\ - 2 ^ (dtype_bits int32 - 1) <= 5 < 2 ^ (dtype_bits int32 - 1)
  /\ max_count_of (dtype_bits int32) [3%N] < uint32_max
  /\ exists out,
      _randint (key_of 0 0) [3%N] (-5) 5 int32 = (3%nat, Ok out)
      /\ dtype_of out = int32 /\ shape out = [3%N] /\ well_formed out
      /\ Forall (fun v => -5 <= v < Z.max (-5 + 1) 5) (data out)
      /\ (5 <= -5 -> Forall (fun v => v = -5) (data out)).
Proof.
  assert (Hdt : int32 = int32 \/ int32 = int64) by now left.
  assert (Hmin : - 2 ^ (dtype_bits int32 - 1) <= -5
                 < 2 ^ (dtype_bits int32 - 1) - 1)
    by (split; [discriminate | reflexivity]).
  assert (Hmax : - 2 ^ (dtype_bits int32 - 1) <= 5
                 < 2 ^ (dtype_bits int32 - 1))
    by (split; [discriminate | reflexivity]).
  assert (Hm : max_count_of (dtype_bits int32) [3%N] < uint32_max)
    by reflexivity.
  split; [exact Hdt |]. split; [exact Hmin |]. split; [exact Hmax |].
  split; [exact Hm |].
  exact (randint_sample_bounds 0 0 [3%N] (-5) 5 int32 Hdt Hmin Hmax Hm).
Defined.

(** ** The rounds and the errors of the shuffle *)

Lemma cube_le (a b : Z) : 0 <= a <= b -> a ^ 3 <= b ^ 3.
Proof. intros H. apply Z.pow_le_mono_l. lia. Qed.

Lemma uint32_max_pow_mono (a b : Z) :
  0 <= a <= b -> uint32_max ^ a <= uint32_max ^ b.
Proof. intros H. apply Z.pow_le_mono_r; [reflexivity | lia]. Qed.

Lemma num_rounds_table (n : N) :
  (0 < n)%N -> Z.of_N n < uint32_max ->
  num_rounds n = ret (rounds_table n).
Proof.
  intros Hpos Hlt.
  destruct (num_rounds_spec n Hpos) as (r & Er & Hup & Hlow).
  rewrite Er. f_equal. f_equal.
  set (z := Z.of_N n) in *. assert (Hz : 1 <= z) by lia.
  assert (Hz3 : z ^ 3 < uint32_max ^ 3).
  { apply Z.pow_lt_mono_l; lia. }
  assert (Hone : 1 <= z ^ 3) by (change 1 with (1 ^ 3) at 1; apply cube_le; lia).
  assert (Hr3 : (r <= 3)%nat).
  { destruct Hlow as [-> | Hlow]; [lia |].
    destruct (le_lt_dec r 3) as [L | G]; [exact L | exfalso].
    pose proof (uint32_max_pow_mono 3 (Z.of_nat r - 1) ltac:(lia)). lia. }
  unfold rounds_table.
  destruct (N.eqb_spec n 1) as [E1 | N1].
  { assert (Ez : z ^ 3 = 1) by (subst z; rewrite E1; reflexivity).
    destruct Hlow as [-> | Hlow]; [reflexivity |].
    destruct r as [| r]; [reflexivity | exfalso].
    pose proof (uint32_max_pow_mono 0 (Z.of_nat (S r) - 1) ltac:(lia)) as P.
    change (uint32_max ^ 0) with 1 in P. lia. }
  assert (Hz2 : 2 <= z) by lia.
  assert (H8 : 8 <= z ^ 3) by (change 8 with (2 ^ 3); apply cube_le; lia).
  assert (R0 : r <> 0%nat).
  { intros ->. change (uint32_max ^ Z.of_nat 0) with 1 in Hup. lia. }
  destruct Hlow as [-> | Hlow]; [contradiction |].
  destruct (N.leb_spec n 1625) as [L1 | G1].
  { pose proof (cube_le z 1625 ltac:(lia)) as C.
    change (1625 ^ 3) with 4291015625 in C.
    destruct r as [| [| r]]; [contradiction | reflexivity | exfalso].
    pose proof (uint32_max_pow_mono 1 (Z.of_nat (S (S r)) - 1) ltac:(lia)) as P.
    change (uint32_max ^ 1) with 4294967295 in P. lia. }
  pose proof (cube_le 1626 z ltac:(lia)) as C1.
  change (1626 ^ 3) with 4298942376 in C1.
  destruct (N.leb_spec n 2642245) as [L2 | G2].
  { pose proof (cube_le z 2642245 ltac:(lia)) as C.
    change (2642245 ^ 3) with 18446724184312856125 in C.
    destruct r as [| [| [| r]]]; [contradiction | exfalso | reflexivity
                                 | exfalso].
    - change (uint32_max ^ Z.of_nat 1) with 4294967295 in Hup. lia.
    - pose proof (uint32_max_pow_mono 2 (Z.of_nat (S (S (S r))) - 1)
                    ltac:(lia)) as P.
      change (uint32_max ^ 2) with 18446744065119617025 in P. lia. }
  pose proof (cube_le 2642246 z ltac:(lia)) as C2.
  change (2642246 ^ 3) with 18446745128696702936 in C2.
  destruct r as [| [| [| [| r]]]]; [contradiction | exfalso | exfalso
                                   | reflexivity | lia].
  - change (uint32_max ^ Z.of_nat 1) with 4294967295 in Hup. lia.
  - change (uint32_max ^ Z.of_nat 2) with 18446744065119617025 in Hup. lia.
Qed.

(** X13: [_shuffle] sorts at most three times: not at all for one
    element (the array is returned as it is, without hashing), once up
    to 1625 elements, twice up to 2642245 and three times above, at two
    runs of the hash per round. *)
Theorem shuffle_round_count {A : Type} (k0 k1 : Z) (x : ndarray A)
  (axis : nat) :
  well_formed x ->
  0 < Z.of_N (size x) < uint32_max ->
  (axis < length (shape x))%nat ->
  exists out : ndarray A,
    num_rounds (size x) = ret (rounds_table (size x))
    /\ (rounds_table (size x) <= 3)%nat
    /\ _shuffle (key_of k0 k1) x axis
       = ((2 * rounds_table (size x))%nat, Ok out)
    /\ (size x = 1%N -> out = x).
Proof.
  intros Wx Hsz Ha.
  pose proof (num_rounds_table (size x) ltac:(lia) ltac:(lia)) as Er.
  destruct (shuffle_rounds_perm (rounds_table (size x)) k0 k1 x axis Wx
              ltac:(lia) Ha) as (out & Eo & _).
  exists out. split; [exact Er |]. split.
  { unfold rounds_table.
    destruct (size x =? 1)%N; [lia |].
    destruct (size x <=? 1625)%N; [lia |].
    destruct (size x <=? 2642245)%N; lia. }
  split.
  { unfold _shuffle. rewrite Er, bind_ret. exact Eo. }
  intros E1. rewrite E1 in Eo. change (rounds_table 1) with 0%nat in Eo.
  cbn [shuffle_rounds] in Eo. unfold ret in Eo. now injection Eo.
Qed.

Lemma shuffle_round_count_witness :
  well_formed (mkarray int32 [2%N; 2%N] [10; 11; 20; 21])
  /\ 0 < Z.of_N (size (mkarray int32 [2%N; 2%N] [10; 11; 20; 21])) < uint32_max
  /\ (0 < length (shape (mkarray int32 [2%N; 2%N] [10; 11; 20; 21])))%nat
  /\ exists out : ndarray Z,
      _shuffle (key_of 0 0) (mkarray int32 [2%N; 2%N] [10; 11; 20; 21]) 0
      = (2%nat, Ok out).
Proof.
  assert (W : well_formed (mkarray int32 [2%N; 2%N] [10; 11; 20; 21]))
    by reflexivity.
  assert (S : 0 < Z.of_N (size (mkarray int32 [2%N; 2%N] [10; 11; 20; 21]))
              < uint32_max) by (split; reflexivity).
  assert (Ax : (0 < length (shape (mkarray int32 [2%N; 2%N]
                                    [10; 11; 20; 21])))%nat)
    by (cbn; lia).
  split; [exact W |]. split; [exact S |]. split; [exact Ax |].
  destruct (shuffle_round_count 0 0 (mkarray int32 [2%N; 2%N] [10; 11; 20; 21])
              0%nat W S Ax) as (out & _ & _ & E & _).
  exists out. exact E.
Defined.

Lemma shuffle_too_large_witness :
  uint32_max <= Z.of_N (size (mkarray int32 [4294967295%N] (@nil Z))) < 2 ^ 63
  /\ _shuffle (key_of 0 0) (mkarray int32 [4294967295%N] (@nil Z)) 0
     = (1%nat, Raise TypeError).
Proof.
  assert (H : uint32_max
              <= Z.of_N (size (mkarray int32 [4294967295%N] (@nil Z)))
              < 2 ^ 63) by (split; [discriminate | reflexivity]).
  split; [exact H |].
  exact (shuffle_too_large 0 0 (mkarray int32 [4294967295%N] (@nil Z)) 0%nat H).
Defined.

(** ** Samplers built on the uniform sampler *)

Lemma canonicalize_idem (x64 : bool) (dt : dtype) :
  canonicalize_dtype x64 (canonicalize_dtype x64 dt) = canonicalize_dtype x64 dt.
Proof. destruct x64, dt; reflexivity. Qed.

Lemma rnd_zero (rnd : dtype -> Q -> Q) :
  rounds_exactly rnd -> (rnd float64 0%Q == 0)%Q.
Proof.
  intros Hr. apply Hr.
  apply (representable_small_int float64 0); [now right | lia].
Qed.

Lemma rnd_one64 (rnd : dtype -> Q -> Q) :
  rounds_exactly rnd -> (rnd float64 1%Q == 1)%Q.
Proof.
  intros Hr. apply Hr.
  apply (representable_small_int float64 1); [now right | lia].
Qed.

Lemma raw_words_range (k0 k1 : Z) (dt : dtype) (shp : list N) :
  dt = float32 \/ dt = float64 ->
  Forall (fun w => 0 <= w < 2 ^ dtype_bits dt) (raw_words k0 k1 dt shp).
Proof.
  intros Hdt. apply bits_of_words_range.
  destruct Hdt as [-> | ->]; auto.
Qed.

(** The default call [uniform(key, shape, dtype)] over the rationals. *)
Lemma uniform_default_eval (rnd : dtype -> Q -> Q) (x64 : bool) (k0 k1 : Z)
  (shp : list N) (dt : dtype) :
  canonicalize_dtype x64 dt = float32 \/ canonicalize_dtype x64 dt = float64 ->
  max_count_of (dtype_bits (canonicalize_dtype x64 dt)) shp < uint32_max ->
  @uniform Q (QFloat rnd) x64 (PyArray (key_of k0 k1)) shp
    (canonicalize_dtype x64 dt) (rnd float64 0%Q) (rnd float64 1%Q)
  = (1%nat,
     Ok (mkarray (canonicalize_dtype x64 dt) shp
           (map (@uniform_element Q (QFloat rnd) (canonicalize_dtype x64 dt)
                   (bits_dtype (dtype_bits (canonicalize_dtype x64 dt)))
                   (rnd float64 0%Q) (rnd float64 1%Q))
              (raw_words k0 k1 (canonicalize_dtype x64 dt) shp)))).
Proof.
  intros Hdt Hm. unfold uniform. rewrite canonicalize_idem.
  apply (@uniform_eval Q (QFloat rnd)); assumption.
Qed.

Lemma uniform_default_element (rnd : dtype -> Q -> Q) (dt : dtype) (w : Z) :
  rounds_exactly rnd -> dt = float32 \/ dt = float64 ->
  0 <= w < 2 ^ dtype_bits dt ->
  (@uniform_element Q (QFloat rnd) dt (bits_dtype (dtype_bits dt))
     (rnd float64 0%Q) (rnd float64 1%Q) w == unit_value dt w)%Q.
Proof.
  intros Hr Hdt Hw.
  apply uniform_element_unit; try assumption;
    [now apply rnd_zero | now apply rnd_one64].
Qed.

Lemma Qlt_bool_spec (x y : Q) : negb (Qle_bool y x) = true <-> (x < y)%Q.
Proof.
  rewrite negb_true_iff. split.
  - intros H. apply Qnot_le_lt. intros L. apply Qle_bool_iff in L. congruence.
  - intros H. destruct (Qle_bool y x) eqn:E; [| reflexivity].
    apply Qle_bool_iff in E. exfalso. now apply (Qlt_not_le x y).
Qed.

Lemma unit_value_zero_iff (dt : dtype) (w : Z) :
  dt = float32 \/ dt = float64 -> 0 <= w < 2 ^ dtype_bits dt ->
  (unit_value dt w == 0)%Q <-> w < 2 ^ (dtype_bits dt - finfo_nmant dt).
Proof.
  intros Hdt Hw. unfold unit_value, mantissa_of.
  assert (Hk : 0 <= dtype_bits dt - finfo_nmant dt)
    by (destruct Hdt as [-> | ->]; cbn; lia).
  assert (P : 0 < 2 ^ (dtype_bits dt - finfo_nmant dt))
    by (apply Z.pow_pos_nonneg; lia).
  assert (Pm : 0 < 2 ^ finfo_nmant dt)
    by (destruct Hdt as [-> | ->]; reflexivity).
  rewrite Z.shiftr_div_pow2 by exact Hk.
  set (m := w / 2 ^ (dtype_bits dt - finfo_nmant dt)).
  assert (Hm0 : m = 0 <-> w < 2 ^ (dtype_bits dt - finfo_nmant dt)).
  { subst m. split.
    - intros E. apply Z.div_small_iff in E; lia.
    - intros L. apply Z.div_small. lia. }
  rewrite <- Hm0. split.
  - intros E. unfold Qdiv in E.
    apply Qmult_integral in E. destruct E as [E | E].
    + unfold Qeq in E. cbn in E. lia.
    + exfalso. destruct (2 ^ finfo_nmant dt) as [| p | p] eqn:Ep; try lia.
      unfold Qeq, Qinv, inject_Z in E. cbn in E. lia.
  - intros ->. reflexivity.
Qed.

Lemma unit_complement (p : positive) (m : Z) :
  (1 - inject_Z m / inject_Z (Z.pos p) == inject_Z (Z.pos p - m) * (1 # p))%Q.
Proof.
  unfold Qminus, Qdiv, Qinv, Qopp, inject_Z. cbn [Qnum Qden].
  unfold Qeq, Qmult, Qplus. cbn [Qnum Qden].
  rewrite !Pos.mul_1_l. lia.
Qed.

Lemma one_minus_unit_representable (dt : dtype) (raw : Z) :
  dt = float32 \/ dt = float64 -> 0 <= raw < 2 ^ dtype_bits dt ->
  representable dt (1 - unit_value dt raw).
Proof.
  intros Hdt Hr. pose proof (mantissa_bound dt raw Hdt Hr) as Hm.
  unfold unit_value. set (m := mantissa_of dt raw) in *.
  exists (2 ^ finfo_nmant dt - m), (- finfo_nmant dt). split; [| split].
  - rewrite Z.abs_eq by lia.
    assert (2 ^ finfo_nmant dt < 2 ^ (finfo_nmant dt + 1)).
    { apply Z.pow_lt_mono_r; destruct Hdt as [-> | ->]; cbn; lia. }
    lia.
  - destruct Hdt as [-> | ->]; cbn; lia.
  - destruct Hdt as [-> | ->].
    + change (finfo_nmant float32) with 23.
      change (Qpower 2 (- 23)) with (1 # 8388608)%Q.
      change (2 ^ 23) with (Z.pos 8388608). apply unit_complement.
    + change (finfo_nmant float64) with 52.
      change (Qpower 2 (- 52)) with (1 # 4503599627370496)%Q.
      change (2 ^ 52) with (Z.pos 4503599627370496). apply unit_complement.
Qed.

Lemma Forall2_map_of {A B : Type} (R : A -> B -> Prop) (f : A -> B)
  (l : list A) :
  Forall (fun a => R a (f a)) l -> Forall2 R l (map f l).
Proof. induction 1; cbn; constructor; assumption. Qed.

Lemma raw_words_eval (k0 k1 : Z) (dt : dtype) (shp : list N) :
  dt = float32 \/ dt = float64 ->
  max_count_of (dtype_bits dt) shp < uint32_max ->
  _random_bits (PyArray (key_of k0 k1)) (dtype_bits dt) shp
  = (1%nat, Ok (mkarray (bits_dtype (dtype_bits dt)) shp
                  (raw_words k0 k1 dt shp))).
Proof.
  intros Hdt Hm. apply random_bits_eval; [| exact Hm].
  destruct Hdt as [-> | ->]; auto.
Qed.

Lemma exponential_eval (rnd : dtype -> Q -> Q)
  (math : @FloatMath Q (QFloat rnd)) (x64 : bool) (k0 k1 : Z)
  (shp : list N) (dt : dtype) :
  canonicalize_dtype x64 dt = float32 \/ canonicalize_dtype x64 dt = float64 ->
  max_count_of (dtype_bits (canonicalize_dtype x64 dt)) shp < uint32_max ->
  @exponential Q (QFloat rnd) math QSign x64 (PyArray (key_of k0 k1)) shp dt
  = (1%nat,
     Ok (mkarray (canonicalize_dtype x64 dt) shp
           (map (fun w =>
                   (- @f_log Q (QFloat rnd) math (canonicalize_dtype x64 dt)
                        (rnd (canonicalize_dtype x64 dt)
                           (rnd (canonicalize_dtype x64 dt) (rnd float64 1%Q)
                            - @uniform_element Q (QFloat rnd)
                                (canonicalize_dtype x64 dt)
                                (bits_dtype
                                   (dtype_bits (canonicalize_dtype x64 dt)))
                                (rnd float64 0%Q) (rnd float64 1%Q) w)))%Q)
              (raw_words k0 k1 (canonicalize_dtype x64 dt) shp)))).
Proof.
  intros float_dtype fits.
  unfold exponential, _exponential, _check_shape. rewrite bind_ret.
  change (@f_literal Q (QFloat rnd) 0%Q) with (rnd float64 0%Q).
  change (@f_literal Q (QFloat rnd) 1%Q) with (rnd float64 1%Q).
  rewrite (uniform_default_eval rnd x64 k0 k1 shp dt float_dtype fits).
  rewrite bind_ok. cbn [dtype_of shape data hashes outcome ret fst snd].
  rewrite map_map. reflexivity.
Qed.

(** X18: [exponential] returns [- log(1 - u)] on the uniform draws
    [u]: the argument of the logarithm is [1 - u] exactly, and lies in
    (0, 1], so the logarithm is never taken of 0.  Floats are the finite
    rationals they denote, rounding keeps the numbers of the format,
    and the logarithm is any function. *)
Theorem exponential_log_argument (rnd : dtype -> Q -> Q)
  (math : @FloatMath Q (QFloat rnd)) (x64 : bool) (k0 k1 : Z)
  (shp : list N) (dt : dtype) :
  rounds_exactly rnd ->
  canonicalize_dtype x64 dt = float32 \/ canonicalize_dtype x64 dt = float64 ->
  max_count_of (dtype_bits (canonicalize_dtype x64 dt)) shp < uint32_max ->
  exists (raw : list Z) (arg : Z -> Q) (out : ndarray Q),
    _random_bits (PyArray (key_of k0 k1))
      (dtype_bits (canonicalize_dtype x64 dt)) shp
    = (1%nat, Ok (mkarray (bits_dtype (dtype_bits (canonicalize_dtype x64 dt)))
                    shp raw))
    /\ @exponential Q (QFloat rnd) math QSign x64 (PyArray (key_of k0 k1))
         shp dt
       = (1%nat, Ok out)
    /\ dtype_of out = canonicalize_dtype x64 dt
    /\ shape out = shp
    /\ data out
       = map (fun w => (- @f_log Q (QFloat rnd) math
                            (canonicalize_dtype x64 dt) (arg w))%Q) raw
    /\ Forall (fun w =>
                 (arg w == 1 - unit_value (canonicalize_dtype x64 dt) w)%Q
                 /\ (0 < arg w)%Q /\ (arg w <= 1)%Q) raw.
Proof.
  intros Hr Hdt Hm. set (cdt := canonicalize_dtype x64 dt) in *.
  exists (raw_words k0 k1 cdt shp). eexists. eexists.
  split; [now apply raw_words_eval |].
  split; [exact (exponential_eval rnd math x64 k0 k1 shp dt Hdt Hm) |].
  cbn [dtype_of shape data].
  split; [reflexivity |]. split; [reflexivity |]. split; [reflexivity |].
  pose proof (raw_words_range k0 k1 cdt shp Hdt) as Hrange.
  rewrite Forall_forall in Hrange. apply Forall_forall. intros w Hw.
  specialize (Hrange w Hw).
  pose proof (uniform_default_element rnd cdt w Hr Hdt Hrange) as Eu.
  pose proof (rnd_one rnd cdt Hr Hdt) as E1.
  destruct (unit_value_range cdt w Hdt Hrange) as [U0 U1].
  assert (Ea : (rnd cdt (rnd cdt (rnd float64 1%Q)
                         - @uniform_element Q (QFloat rnd) cdt
                             (bits_dtype (dtype_bits cdt))
                             (rnd float64 0%Q) (rnd float64 1%Q) w)
                == 1 - unit_value cdt w)%Q).
  { apply rnd_of_representable; [exact Hr | |].
    - rewrite E1, Eu. reflexivity.
    - now apply one_minus_unit_representable. }
  assert (P : (0 < 1 - unit_value cdt w)%Q).
  { unfold Qminus. rewrite <- Qlt_minus_iff. exact U1. }
  assert (L : (1 - unit_value cdt w <= 1)%Q).
  { apply Qle_minus_iff.
    setoid_replace (1 + - (1 - unit_value cdt w))%Q
      with (unit_value cdt w) by ring.
    exact U0. }
  split; [exact Ea |]. split.
  - apply Qlt_le_trans with (1 - unit_value cdt w)%Q; [exact P |].
    apply Qle_lteq. right. symmetry. exact Ea.
  - apply Qle_trans with (1 - unit_value cdt w)%Q; [| exact L].
    apply Qle_lteq. right. exact Ea.
Qed.

Lemma exponential_log_argument_witness :
  rounds_exactly exact_rnd
  /\ (canonicalize_dtype true float32 = float32
      \/ canonicalize_dtype true float32 = float64)
  /\ max_count_of (dtype_bits (canonicalize_dtype true float32)) [2%N]
     < uint32_max
  /\ exists (arg : Z -> Q) (out : ndarray Q),
      @exponential Q (QFloat exact_rnd) RunFloatMath QSign true
        (PyArray (key_of 0 0)) [2%N] float32
      = (1%nat, Ok out)
      /\ exists raw,
          data out = map (fun w => (- @f_log Q (QFloat exact_rnd) RunFloatMath
                                       float32 (arg w))%Q) raw
          /\ Forall (fun w => (0 < arg w)%Q /\ (arg w <= 1)%Q) raw.
Proof.
  assert (Hd : canonicalize_dtype true float32 = float32
               \/ canonicalize_dtype true float32 = float64)
    by (left; reflexivity).
  assert (Hm : max_count_of (dtype_bits (canonicalize_dtype true float32))
                 [2%N] < uint32_max) by reflexivity.
  split; [exact exact_rnd_rounds_exactly |].
  split; [exact Hd |]. split; [exact Hm |].
  destruct (exponential_log_argument exact_rnd RunFloatMath true 0 0 [2%N]
              float32 exact_rnd_rounds_exactly Hd Hm)
    as (raw & arg & out & _ & Eo & _ & _ & Ed & Ha).
  exists arg, out. split; [exact Eo |]. exists raw. split; [exact Ed |].
  apply Forall_forall. intros w Hw. rewrite Forall_forall in Ha.
  destruct (Ha w Hw) as (_ & P & L). now split.
Defined.

Lemma gumbel_eval (rnd : dtype -> Q -> Q)
  (math : @FloatMath Q (QFloat rnd)) (x64 : bool) (k0 k1 : Z)
  (shp : list N) (dt : dtype) :
  canonicalize_dtype x64 dt = float32 \/ canonicalize_dtype x64 dt = float64 ->
  max_count_of (dtype_bits (canonicalize_dtype x64 dt)) shp < uint32_max ->
  @gumbel Q (QFloat rnd) math QSign x64 (PyArray (key_of k0 k1)) shp dt
  = (1%nat,
     Ok (mkarray (canonicalize_dtype x64 dt) shp
           (map (fun w =>
                   (- @f_log Q (QFloat rnd) math (canonicalize_dtype x64 dt)
                        (- @f_log Q (QFloat rnd) math
                             (canonicalize_dtype x64 dt)
                             (@uniform_element Q (QFloat rnd)
                                (canonicalize_dtype x64 dt)
                                (bits_dtype
                                   (dtype_bits (canonicalize_dtype x64 dt)))
                                (rnd float64 0%Q) (rnd float64 1%Q) w)))%Q)
              (raw_words k0 k1 (canonicalize_dtype x64 dt) shp)))).
Proof.
  intros float_dtype fits.
  unfold gumbel, _gumbel, _check_shape. rewrite bind_ret.
  change (@f_literal Q (QFloat rnd) 0%Q) with (rnd float64 0%Q).
  change (@f_literal Q (QFloat rnd) 1%Q) with (rnd float64 1%Q).
  rewrite (uniform_default_eval rnd x64 k0 k1 shp dt float_dtype fits).
  rewrite bind_ok. cbn [dtype_of shape data hashes outcome ret fst snd].
  rewrite map_map. reflexivity.
Qed.

(** X19: [gumbel] returns [- log(- log(u))] on the uniform draws [u]
    themselves, which lie in [0, 1): the inner logarithm is taken of 0
    exactly when the raw word is below [2 ^ (nbits - nmant)], that is
    when all the mantissa bits kept from it are zero. *)
Theorem gumbel_inner_log_argument (rnd : dtype -> Q -> Q)
  (math : @FloatMath Q (QFloat rnd)) (x64 : bool) (k0 k1 : Z)
  (shp : list N) (dt : dtype) :
  rounds_exactly rnd ->
  canonicalize_dtype x64 dt = float32 \/ canonicalize_dtype x64 dt = float64 ->
  max_count_of (dtype_bits (canonicalize_dtype x64 dt)) shp < uint32_max ->
  exists (raw : list Z) (arg : Z -> Q) (out : ndarray Q),
    _random_bits (PyArray (key_of k0 k1))
      (dtype_bits (canonicalize_dtype x64 dt)) shp
    = (1%nat, Ok (mkarray (bits_dtype (dtype_bits (canonicalize_dtype x64 dt)))
                    shp raw))
    /\ @gumbel Q (QFloat rnd) math QSign x64 (PyArray (key_of k0 k1)) shp dt
       = (1%nat, Ok out)
    /\ dtype_of out = canonicalize_dtype x64 dt
    /\ shape out = shp
    /\ data out
       = map (fun w =>
                (- @f_log Q (QFloat rnd) math (canonicalize_dtype x64 dt)
                     (- @f_log Q (QFloat rnd) math (canonicalize_dtype x64 dt)
                          (arg w)))%Q) raw
    /\ Forall (fun w =>
                 (arg w == unit_value (canonicalize_dtype x64 dt) w)%Q
                 /\ (0 <= arg w)%Q /\ (arg w < 1)%Q
                 /\ ((arg w == 0)%Q
                     <-> w < 2 ^ (dtype_bits (canonicalize_dtype x64 dt)
                                  - finfo_nmant (canonicalize_dtype x64 dt))))
         raw.
Proof.
  intros Hr Hdt Hm. set (cdt := canonicalize_dtype x64 dt) in *.
  exists (raw_words k0 k1 cdt shp). eexists. eexists.
  split; [now apply raw_words_eval |].
  split; [exact (gumbel_eval rnd math x64 k0 k1 shp dt Hdt Hm) |].
  cbn [dtype_of shape data].
  split; [reflexivity |]. split; [reflexivity |]. split; [reflexivity |].
  pose proof (raw_words_range k0 k1 cdt shp Hdt) as Hrange.
  rewrite Forall_forall in Hrange. apply Forall_forall. intros w Hw.
  specialize (Hrange w Hw).
  pose proof (uniform_default_element rnd cdt w Hr Hdt Hrange) as Eu.
  destruct (unit_value_range cdt w Hdt Hrange) as [U0 U1].
  pose proof (unit_value_zero_iff cdt w Hdt Hrange) as Z0.
  split; [exact Eu |]. split; [| split].
  - apply Qle_trans with (unit_value cdt w); [exact U0 |].
    apply Qle_lteq. right. symmetry. exact Eu.
  - apply Qle_lt_trans with (unit_value cdt w); [| exact U1].
    apply Qle_lteq. right. exact Eu.
  - rewrite <- Z0. split; intros E.
    + transitivity (@uniform_element Q (QFloat rnd) cdt
                      (bits_dtype (dtype_bits cdt))
                      (rnd float64 0%Q) (rnd float64 1%Q) w);
        [symmetry; exact Eu | exact E].
    + transitivity (unit_value cdt w); [exact Eu | exact E].
Qed.

Lemma gumbel_inner_log_argument_witness :
  rounds_exactly exact_rnd
  /\ (canonicalize_dtype false float64 = float32
      \/ canonicalize_dtype false float64 = float64)
  /\ max_count_of (dtype_bits (canonicalize_dtype false float64)) [2%N]
     < uint32_max
  /\ exists (arg : Z -> Q) (out : ndarray Q),
      @gumbel Q (QFloat exact_rnd) RunFloatMath QSign false
        (PyArray (key_of 0 0)) [2%N] float64
      = (1%nat, Ok out)
      /\ exists raw,
          data out
          = map (fun w =>
                   (- @f_log Q (QFloat exact_rnd) RunFloatMath float32
                        (- @f_log Q (QFloat exact_rnd) RunFloatMath float32
                             (arg w)))%Q) raw
          /\ Forall (fun w => (arg w == 0)%Q <-> w < 2 ^ 9) raw.
Proof.
  assert (Hd : canonicalize_dtype false float64 = float32
               \/ canonicalize_dtype false float64 = float64)
    by (left; reflexivity).
  assert (Hm : max_count_of (dtype_bits (canonicalize_dtype false float64))
                 [2%N] < uint32_max) by reflexivity.
  split; [exact exact_rnd_rounds_exactly |].
  split; [exact Hd |]. split; [exact Hm |].
  destruct (gumbel_inner_log_argument exact_rnd RunFloatMath false 0 0 [2%N]
              float64 exact_rnd_rounds_exactly Hd Hm)
    as (raw & arg & out & _ & Eo & _ & _ & Ed & Ha).
  exists arg, out. split; [exact Eo |]. exists raw. split; [exact Ed |].
  apply Forall_forall. intros w Hw. rewrite Forall_forall in Ha.
  destruct (Ha w Hw) as (_ & _ & _ & Z0). exact Z0.
Defined.

Lemma bernoulli_eval (rnd : dtype -> Q -> Q) (x64 : bool) (k0 k1 : Z)
  (p_dt : dtype) (p : Q) (shp : list N) :
  canonicalize_dtype x64 p_dt = float32
  \/ canonicalize_dtype x64 p_dt = float64 ->
  max_count_of (dtype_bits (canonicalize_dtype x64 p_dt)) shp < uint32_max ->
  @bernoulli Q (QFloat rnd) QSign x64 (PyArray (key_of k0 k1)) p_dt p shp
  = (1%nat,
     Ok (shp,
         map (fun w =>
                negb (Qle_bool (rnd (canonicalize_dtype x64 p_dt) p)
                        (@uniform_element Q (QFloat rnd)
                           (canonicalize_dtype x64 p_dt)
                           (bits_dtype
                              (dtype_bits (canonicalize_dtype x64 p_dt)))
                           (rnd float64 0%Q) (rnd float64 1%Q) w)))
           (raw_words k0 k1 (canonicalize_dtype x64 p_dt) shp))).
Proof.
  intros float_dtype fits. unfold bernoulli. cbv zeta.
  assert (Hf : is_floating (canonicalize_dtype x64 p_dt) = true)
    by (destruct float_dtype as [-> | ->]; reflexivity).
  rewrite Hf. cbn [negb].
  unfold _bernoulli, _check_shape. rewrite bind_ret.
  change (@f_literal Q (QFloat rnd) 0%Q) with (rnd float64 0%Q).
  change (@f_literal Q (QFloat rnd) 1%Q) with (rnd float64 1%Q).
  rewrite (uniform_default_eval rnd x64 k0 k1 shp p_dt float_dtype fits).
  rewrite bind_ok. cbn [dtype_of shape data hashes outcome ret fst snd].
  rewrite map_map. reflexivity.
Qed.

(** X17: [bernoulli] with a scalar mean [p] of a 32- or 64-bit float
    dtype draws one uniform value in [0, 1) per element and returns
    [u < p]: an element is true exactly when its draw is below [p]
    converted to the dtype, so a mean of 0 or less gives only false and
    a mean of 1 or more only true. *)
Theorem bernoulli_compares_draws (rnd : dtype -> Q -> Q) (x64 : bool)
  (k0 k1 : Z) (p_dt : dtype) (p : Q) (shp : list N) :
  rounds_exactly rnd ->
  canonicalize_dtype x64 p_dt = float32
  \/ canonicalize_dtype x64 p_dt = float64 ->
  max_count_of (dtype_bits (canonicalize_dtype x64 p_dt)) shp < uint32_max ->
  exists (raw : list Z) (out : list bool),
    _random_bits (PyArray (key_of k0 k1))
      (dtype_bits (canonicalize_dtype x64 p_dt)) shp
    = (1%nat,
       Ok (mkarray (bits_dtype (dtype_bits (canonicalize_dtype x64 p_dt)))
             shp raw))
    /\ @bernoulli Q (QFloat rnd) QSign x64 (PyArray (key_of k0 k1)) p_dt p shp
       = (1%nat, Ok (shp, out))
    /\ N.of_nat (length out) = shape_size shp
    /\ Forall2 (fun w b =>
                  b = true
                  <-> (unit_value (canonicalize_dtype x64 p_dt) w
                       < rnd (canonicalize_dtype x64 p_dt) p)%Q) raw out
    /\ ((rnd (canonicalize_dtype x64 p_dt) p <= 0)%Q ->
        Forall (fun b => b = false) out)
    /\ ((1 <= rnd (canonicalize_dtype x64 p_dt) p)%Q ->
        Forall (fun b => b = true) out).
Proof.
  intros Hr Hdt Hm. set (cdt := canonicalize_dtype x64 p_dt) in *.
  exists (raw_words k0 k1 cdt shp). eexists.
  split; [now apply raw_words_eval |].
  split; [exact (bernoulli_eval rnd x64 k0 k1 p_dt p shp Hdt Hm) |].
  pose proof (raw_words_range k0 k1 cdt shp Hdt) as Hrange.
  rewrite Forall_forall in Hrange.
  assert (Hb : dtype_bits cdt = 32 \/ dtype_bits cdt = 64)
    by (destruct Hdt as [-> | ->]; auto).
  assert (Hel : forall w, In w (raw_words k0 k1 cdt shp) ->
            negb (Qle_bool (rnd cdt p)
                    (@uniform_element Q (QFloat rnd) cdt
                       (bits_dtype (dtype_bits cdt))
                       (rnd float64 0%Q) (rnd float64 1%Q) w)) = true
            <-> (unit_value cdt w < rnd cdt p)%Q).
  { intros w Hw. rewrite Qlt_bool_spec.
    pose proof (uniform_default_element rnd cdt w Hr Hdt (Hrange w Hw)) as Eu.
    split; intros H.
    - apply Qle_lt_trans with (2 := H). apply Qle_lteq. right. symmetry.
      exact Eu.
    - apply Qle_lt_trans with (2 := H). apply Qle_lteq. right. exact Eu. }
  split.
  { rewrite length_map. unfold raw_words. apply bits_of_words_size. exact Hb. }
  split.
  { apply Forall2_map_of. apply Forall_forall. intros w Hw.
    now apply Hel. }
  split.
  - intros Hp. apply Forall_forall. intros b Hin.
    apply in_map_iff in Hin. destruct Hin as (w & <- & Hw).
    apply not_true_is_false. intros T. apply (Hel w Hw) in T.
    destruct (unit_value_range cdt w Hdt (Hrange w Hw)) as [U0 _].
    apply (Qlt_not_le _ _ T). now apply Qle_trans with 0%Q.
  - intros Hp. apply Forall_forall. intros b Hin.
    apply in_map_iff in Hin. destruct Hin as (w & <- & Hw).
    apply (Hel w Hw).
    destruct (unit_value_range cdt w Hdt (Hrange w Hw)) as [_ U1].
    now apply Qlt_le_trans with 1%Q.
Qed.

Lemma bernoulli_compares_draws_witness :
  rounds_exactly exact_rnd
  /\ (canonicalize_dtype true float32 = float32
      \/ canonicalize_dtype true float32 = float64)
  /\ max_count_of (dtype_bits (canonicalize_dtype true float32)) [3%N]
     < uint32_max
  /\ exists out : list bool,
      @bernoulli Q (QFloat exact_rnd) QSign true (PyArray (key_of 0 0))
        float32 (1 # 2)%Q [3%N]
      = (1%nat, Ok ([3%N], out))
      /\ N.of_nat (length out) = shape_size [3%N].
Proof.
  assert (Hd : canonicalize_dtype true float32 = float32
               \/ canonicalize_dtype true float32 = float64)
    by (left; reflexivity).
  assert (Hm : max_count_of (dtype_bits (canonicalize_dtype true float32))
                 [3%N] < uint32_max) by reflexivity.
  split; [exact exact_rnd_rounds_exactly |].
  split; [exact Hd |]. split; [exact Hm |].
  destruct (bernoulli_compares_draws exact_rnd true 0 0 float32 (1 # 2)%Q
              [3%N] exact_rnd_rounds_exactly Hd Hm)
    as (raw & out & _ & Eo & L & _).
  exists out. split; [exact Eo | exact L].
Defined.

Lemma rnd_compat (rnd : dtype -> Q -> Q) (dt : dtype) (x y : Q) :
  rounds_monotonically rnd -> (x == y)%Q -> (rnd dt x == rnd dt y)%Q.
Proof.
  intros Hm E. apply Qle_antisym; apply Hm; apply Qle_lteq; right;
    [exact E | symmetry; exact E].
Qed.

Lemma rnd_below (rnd : dtype -> Q -> Q) (dt : dtype) (x b : Q) :
  rounds_exactly rnd -> rounds_monotonically rnd ->
  representable dt b -> (x <= b)%Q -> (rnd dt x <= b)%Q.
Proof.
  intros Hr Hm Rb L. apply Qle_trans with (rnd dt b); [now apply Hm |].
  apply Qle_lteq. right. now apply Hr.
Qed.

Lemma rnd_above (rnd : dtype -> Q -> Q) (dt : dtype) (x b : Q) :
  rounds_exactly rnd -> rounds_monotonically rnd ->
  representable dt b -> (b <= x)%Q -> (b <= rnd dt x)%Q.
Proof.
  intros Hr Hm Rb L. apply Qle_trans with (rnd dt b); [| now apply Hm].
  apply Qle_lteq. right. symmetry. now apply Hr.
Qed.

Lemma unit_le (p : positive) (m : Z) :
  m <= Z.pos p - 1 ->
  (inject_Z m / inject_Z (Z.pos p) <= 1 - (1 # p))%Q.
Proof.
  intros H. unfold Qdiv, Qinv, Qminus, Qopp, inject_Z. cbn [Qnum Qden].
  unfold Qle, Qmult, Qplus. cbn [Qnum Qden].
  rewrite !Pos.mul_1_l, !Z.mul_1_r, !Z.mul_1_l. nia.
Qed.

Lemma unit_value_le (dt : dtype) (raw : Z) :
  dt = float32 \/ dt = float64 -> 0 <= raw < 2 ^ dtype_bits dt ->
  (unit_value dt raw <= below_one dt)%Q.
Proof.
  intros Hdt Hr. pose proof (mantissa_bound dt raw Hdt Hr) as Hm.
  unfold unit_value, below_one. set (m := mantissa_of dt raw) in *.
  destruct Hdt as [-> | ->].
  - change (finfo_nmant float32) with 23 in *.
    change (Qpower 2 (- 23)) with (1 # 8388608)%Q.
    change (2 ^ 23) with (Z.pos 8388608) in *. apply unit_le. lia.
  - change (finfo_nmant float64) with 52 in *.
    change (Qpower 2 (- 52)) with (1 # 4503599627370496)%Q.
    change (2 ^ 52) with (Z.pos 4503599627370496) in *. apply unit_le. lia.
Qed.

Lemma representable_of (dt : dtype) (m e : Z) (x : Q) :
  Z.abs m < 2 ^ (finfo_nmant dt + 1) ->
  1 - float_bias dt - finfo_nmant dt <= e <= float_bias dt - finfo_nmant dt ->
  (x == inject_Z m * Qpower 2 e)%Q -> representable dt x.
Proof. intros H1 H2 H3. now exists m, e. Qed.

(** The numbers the bound on the draws of [normal] goes through. *)
Lemma normal_constants (dt : dtype) :
  dt = float32 \/ dt = float64 ->
  representable dt (above_minus_one dt)
  /\ representable dt (2 - Qpower 2 (- finfo_nmant dt))
  /\ representable dt 2
  /\ representable dt (2 * below_one dt)
  /\ representable dt (below_one dt)
  /\ (-1 < above_minus_one dt)%Q
  /\ (above_minus_one dt <= below_one dt)%Q
  /\ (below_one dt < 1)%Q
  /\ (0 <= below_one dt)%Q
  /\ (2 - Qpower 2 (- finfo_nmant dt) <= 1 - above_minus_one dt)%Q
  /\ (1 - above_minus_one dt <= 2)%Q
  /\ (0 <= 2 - Qpower 2 (- finfo_nmant dt))%Q
  /\ (2 * below_one dt + above_minus_one dt <= below_one dt)%Q.
Proof.
  intros [-> | ->]; unfold above_minus_one, below_one.
  - change (finfo_nmant float32) with 23.
    split; [apply (representable_of float32 (- 16777215) (- 24));
            [reflexivity | split; discriminate | reflexivity] |].
    split; [apply (representable_of float32 16777215 (- 23));
            [reflexivity | split; discriminate | reflexivity] |].
    split; [apply (representable_of float32 1 1);
            [reflexivity | split; discriminate | reflexivity] |].
    split; [apply (representable_of float32 8388607 (- 22));
            [reflexivity | split; discriminate | reflexivity] |].
    split; [apply (representable_of float32 8388607 (- 23));
            [reflexivity | split; discriminate | reflexivity] |].
    repeat split; try reflexivity; discriminate.
  - change (finfo_nmant float64) with 52.
    split; [apply (representable_of float64 (- 9007199254740991) (- 53));
            [reflexivity | split; discriminate | reflexivity] |].
    split; [apply (representable_of float64 9007199254740991 (- 52));
            [reflexivity | split; discriminate | reflexivity] |].
    split; [apply (representable_of float64 1 1);
            [reflexivity | split; discriminate | reflexivity] |].
    split; [apply (representable_of float64 4503599627370495 (- 51));
            [reflexivity | split; discriminate | reflexivity] |].
    split; [apply (representable_of float64 4503599627370495 (- 52));
            [reflexivity | split; discriminate | reflexivity] |].
    repeat split; try reflexivity; discriminate.
Qed.

(** The scaled draw of [normal] stays between the two limits. *)
Lemma normal_argument_bounds (rnd : dtype -> Q -> Q) (dt : dtype) (u : Q) :
  rounds_exactly rnd -> rounds_monotonically rnd ->
  dt = float32 \/ dt = float64 ->
  (0 <= u)%Q -> (u <= below_one dt)%Q ->
  (2 - Qpower 2 (- finfo_nmant dt) <= rnd dt (1 - above_minus_one dt))%Q
  /\ (rnd dt (1 - above_minus_one dt) <= 2)%Q
  /\ (above_minus_one dt
      <= Qmax (above_minus_one dt)
           (rnd dt (rnd dt (u * rnd dt (1 - above_minus_one dt))
                    + above_minus_one dt)))%Q
  /\ (Qmax (above_minus_one dt)
        (rnd dt (rnd dt (u * rnd dt (1 - above_minus_one dt))
                 + above_minus_one dt))
      <= below_one dt)%Q.
Proof.
  intros Hr Hm Hdt U0 U1.
  destruct (normal_constants dt Hdt)
    as (Rlo & Rb0 & R2 & Rb1 & Rb2 & Llo & Lb & Lb1 & Pb & S0 & S2 & P0 & Sum).
  set (lo := above_minus_one dt) in *.
  set (s := rnd dt (1 - lo)%Q).
  assert (Hs0 : (2 - Qpower 2 (- finfo_nmant dt) <= s)%Q)
    by (apply rnd_above; assumption).
  assert (Hs2 : (s <= 2)%Q) by (apply rnd_below; assumption).
  split; [exact Hs0 |]. split; [exact Hs2 |].
  split; [apply Q.le_max_l |].
  apply Q.max_lub; [exact Lb |].
  apply rnd_below; try assumption.
  apply Qle_trans with (2 * below_one dt + lo)%Q; [| exact Sum].
  apply Qplus_le_l. apply rnd_below; try assumption.
  rewrite (Qmult_comm 2). apply Qmult_le_compat_nonneg.
  - now split.
  - split; [| exact Hs2]. now apply Qle_trans with (2 := Hs0).
Qed.

Lemma exact_rnd_monotone : rounds_monotonically exact_rnd.
Proof.
  intros dt x y L. unfold exact_rnd. now rewrite !Qred_correct.
Qed.

(** X16: [normal] returns [sqrt(2) * erf_inv(u)] where [u] is the draw
    of [uniform] between [lo = nextafter(-1, 0) = -(1 - 2^-(nmant+1))]
    and 1: [u = max(lo, v * (1 - lo) + lo)] for the value [v] in [0, 1)
    built from the raw word, each operation rounded.  The width
    [1 - lo] rounds to a number between [2 - 2^-nmant] and 2, and every
    argument of [erf_inv] lies between [lo] and [1 - 2^-nmant], hence
    strictly between -1 and 1.  Floats are the finite rationals they
    denote; rounding keeps the numbers of the format and the order. *)
Theorem normal_erf_inv_argument (rnd : dtype -> Q -> Q)
  (math : @FloatMath Q (QFloat rnd)) (x64 : bool) (k0 k1 : Z)
  (shp : list N) (dt : dtype) :
  rounds_exactly rnd -> rounds_monotonically rnd ->
  canonicalize_dtype x64 dt = float32 \/ canonicalize_dtype x64 dt = float64 ->
  (@f_above_minus_one Q (QFloat rnd) math (canonicalize_dtype x64 dt)
   == above_minus_one (canonicalize_dtype x64 dt))%Q ->
  max_count_of (dtype_bits (canonicalize_dtype x64 dt)) shp < uint32_max ->
  exists (raw : list Z) (arg : Z -> Q) (out : ndarray Q),
    _random_bits (PyArray (key_of k0 k1))
      (dtype_bits (canonicalize_dtype x64 dt)) shp
    = (1%nat, Ok (mkarray (bits_dtype (dtype_bits (canonicalize_dtype x64 dt)))
                    shp raw))
    /\ @normal Q (QFloat rnd) math x64 (PyArray (key_of k0 k1)) shp dt
       = (1%nat, Ok out)
    /\ dtype_of out = canonicalize_dtype x64 dt
    /\ shape out = shp
    /\ data out
       = map (fun w =>
                rnd (canonicalize_dtype x64 dt)
                  (@f_sqrt2 Q (QFloat rnd) math (canonicalize_dtype x64 dt)
                   * @f_erf_inv Q (QFloat rnd) math
                       (canonicalize_dtype x64 dt) (arg w))%Q) raw
    /\ (2 - Qpower 2 (- finfo_nmant (canonicalize_dtype x64 dt))
        <= rnd (canonicalize_dtype x64 dt)
             (1 - above_minus_one (canonicalize_dtype x64 dt)))%Q
    /\ (rnd (canonicalize_dtype x64 dt)
          (1 - above_minus_one (canonicalize_dtype x64 dt)) <= 2)%Q
    /\ Forall (fun w =>
                 (arg w
                  == Qmax (above_minus_one (canonicalize_dtype x64 dt))
                       (rnd (canonicalize_dtype x64 dt)
                          (rnd (canonicalize_dtype x64 dt)
                             (unit_value (canonicalize_dtype x64 dt) w
                              * rnd (canonicalize_dtype x64 dt)
                                  (1 - above_minus_one
                                         (canonicalize_dtype x64 dt)))
                           + above_minus_one (canonicalize_dtype x64 dt))))%Q
                 /\ (-1 < above_minus_one (canonicalize_dtype x64 dt))%Q
                 /\ (above_minus_one (canonicalize_dtype x64 dt) <= arg w)%Q
                 /\ (arg w <= below_one (canonicalize_dtype x64 dt))%Q
                 /\ (below_one (canonicalize_dtype x64 dt) < 1)%Q) raw.
Proof.
  intros Hr Hmono Hdt Hlo Hm. set (cdt := canonicalize_dtype x64 dt) in *.
  set (raw := bits_of_words (dtype_bits cdt)
                (hash_words k0 k1
                   (counter_words (max_count_of (dtype_bits cdt) shp)))).
  assert (Hb : dtype_bits cdt = 32 \/ dtype_bits cdt = 64)
    by (destruct Hdt as [-> | ->]; auto).
  exists raw.
  exists (@uniform_element Q (QFloat rnd) cdt (bits_dtype (dtype_bits cdt))
            (@f_above_minus_one Q (QFloat rnd) math cdt)
            (rnd cdt (rnd float64 1%Q))).
  eexists.
  split; [apply random_bits_eval; assumption |].
  split.
  { unfold normal, _normal, _check_shape. rewrite bind_ret.
    unfold uniform. fold cdt.
    replace (canonicalize_dtype x64 cdt) with cdt
      by (symmetry; apply canonicalize_idem).
    rewrite (@uniform_eval Q (QFloat rnd) k0 k1 shp cdt _ _ Hdt Hm).
    rewrite bind_ok. cbn [dtype_of shape data hashes outcome ret fst snd].
    rewrite map_map. fold raw. reflexivity. }
  cbn [dtype_of shape data].
  split; [reflexivity |]. split; [reflexivity |]. split; [reflexivity |].
  destruct (normal_constants cdt Hdt)
    as (Rlo & _ & _ & _ & _ & Llo & _ & Lb1 & _).
  destruct (normal_argument_bounds rnd cdt 0 Hr Hmono Hdt (Qle_refl 0)
              ltac:(destruct (normal_constants cdt Hdt)
                      as (_ & _ & _ & _ & _ & _ & _ & _ & P & _); exact P))
    as (S0 & S2 & _).
  split; [exact S0 |]. split; [exact S2 |].
  pose proof (bits_of_words_range (dtype_bits cdt) k0 k1
                (counter_words (max_count_of (dtype_bits cdt) shp)) Hb)
    as Hrange.
  fold raw in Hrange. rewrite Forall_forall in Hrange.
  apply Forall_forall. intros w Hw. specialize (Hrange w Hw).
  destruct (unit_value_range cdt w Hdt Hrange) as [U0 _].
  pose proof (unit_value_le cdt w Hdt Hrange) as U1.
  pose proof (uniform_unit_value rnd cdt w Hr Hdt Hrange) as Ev.
  pose proof (rnd_one rnd cdt Hr Hdt) as E1.
  assert (Emn : (rnd cdt (@f_above_minus_one Q (QFloat rnd) math cdt)
                 == above_minus_one cdt)%Q)
    by (apply rnd_of_representable; assumption).
  assert (Emx : (rnd cdt (rnd cdt (rnd float64 1%Q)) == 1)%Q).
  { apply rnd_of_representable; [exact Hr | exact E1 |].
    apply (representable_small_int cdt 1 Hdt). lia. }
  assert (Ea : (@uniform_element Q (QFloat rnd) cdt
                  (bits_dtype (dtype_bits cdt))
                  (@f_above_minus_one Q (QFloat rnd) math cdt)
                  (rnd cdt (rnd float64 1%Q)) w
                == Qmax (above_minus_one cdt)
                     (rnd cdt
                        (rnd cdt (unit_value cdt w
                                  * rnd cdt (1 - above_minus_one cdt))
                         + above_minus_one cdt)))%Q).
  { unfold uniform_element. cbv zeta. cbn [f_max f_convert f_add f_sub f_mul
                                           f_bitcast f_literal QFloat].
    apply Q.max_compat; [exact Emn |].
    apply rnd_compat; [exact Hmono |].
    apply Qplus_comp; [| exact Emn].
    apply rnd_compat; [exact Hmono |].
    apply Qmult_comp; [exact Ev |].
    apply rnd_compat; [exact Hmono |].
    unfold Qminus. apply Qplus_comp; [exact Emx |].
    apply Qopp_comp. exact Emn. }
  destruct (normal_argument_bounds rnd cdt (unit_value cdt w) Hr Hmono Hdt
              U0 U1) as (_ & _ & B0 & B1).
  split; [exact Ea |]. split; [exact Llo |]. split; [| split].
  - apply Qle_trans with (1 := B0). apply Qle_lteq. right. symmetry. exact Ea.
  - apply Qle_trans with (2 := B1). apply Qle_lteq. right. exact Ea.
  - exact Lb1.
Qed.

Lemma normal_erf_inv_argument_witness :
  rounds_exactly exact_rnd /\ rounds_monotonically exact_rnd
  /\ (canonicalize_dtype true float32 = float32
      \/ canonicalize_dtype true float32 = float64)
  /\ (@f_above_minus_one Q (QFloat exact_rnd) RunFloatMath
        (canonicalize_dtype true float32)
      == above_minus_one (canonicalize_dtype true float32))%Q
  /\ max_count_of (dtype_bits (canonicalize_dtype true float32)) [2%N]
     < uint32_max
  /\ exists (raw : list Z) (arg : Z -> Q) (out : ndarray Q),
      @normal Q (QFloat exact_rnd) RunFloatMath true (PyArray (key_of 0 0))
        [2%N] float32
      = (1%nat, Ok out)
      /\ Forall (fun w => (-1 < arg w)%Q /\ (arg w < 1)%Q) raw.
Proof.
  assert (Hd : canonicalize_dtype true float32 = float32
               \/ canonicalize_dtype true float32 = float64)
    by (left; reflexivity).
  assert (Hl : (@f_above_minus_one Q (QFloat exact_rnd) RunFloatMath
                  (canonicalize_dtype true float32)
                == above_minus_one (canonicalize_dtype true float32))%Q)
    by reflexivity.
  assert (Hm : max_count_of (dtype_bits (canonicalize_dtype true float32))
                 [2%N] < uint32_max) by reflexivity.
  split; [exact exact_rnd_rounds_exactly |].
  split; [exact exact_rnd_monotone |].
  split; [exact Hd |]. split; [exact Hl |]. split; [exact Hm |].
  destruct (normal_erf_inv_argument exact_rnd RunFloatMath true 0 0 [2%N]
              float32 exact_rnd_rounds_exactly exact_rnd_monotone Hd Hl Hm)
    as (raw & arg & out & _ & Eo & _ & _ & _ & _ & _ & Ha).
  exists raw, arg, out. split; [exact Eo |].
  apply Forall_forall. intros w Hw. rewrite Forall_forall in Ha.
  destruct (Ha w Hw) as (_ & L0 & L1 & L2 & L3). split.
  - now apply Qlt_le_trans with (2 := L1).
  - now apply Qle_lt_trans with (1 := L2).
Defined.

(** ** Requests beyond one call of the hash *)

(** X8: a request for at least [2^32 - 1] and fewer than [2^63] words
    (for a 64-bit float, two words per element) makes [_random_bits],
    and with it [_uniform], fail with a TypeError before the hash is
    run; below [2^63] the int64 product of the code is the count. *)
Theorem uniform_over_capacity {F : Type} {ops : FloatOps F} (k0 k1 : Z)
  (shp : list N) (dt : dtype) (minval maxval : F) :
  dt = float32 \/ dt = float64 ->
  uint32_max <= max_count_of (dtype_bits dt) shp < 2 ^ 63 ->
  _random_bits (PyArray (key_of k0 k1)) (dtype_bits dt) shp
  = (0%nat, Raise TypeError)
  /\ _uniform (PyArray (key_of k0 k1)) shp dt minval maxval
     = (0%nat, Raise TypeError).
Proof.
  intros Hdt [Hlo Hhi].
  assert (Hb : dtype_bits dt = 32 \/ dtype_bits dt = 64)
    by (destruct Hdt as [-> | ->]; auto).
  pose proof (random_bits_over_capacity k0 k1 (dtype_bits dt) shp Hb Hhi Hlo)
    as E.
  split; [exact E |].
  unfold _uniform, _check_shape. rewrite bind_ret.
  assert (Hf : is_floating dt = true)
    by (destruct Hdt as [-> | ->]; reflexivity).
  rewrite Hf. cbn [negb].
  assert (Hw : (dtype_bits dt =? 32) || (dtype_bits dt =? 64) = true)
    by (destruct Hdt as [-> | ->]; reflexivity).
  rewrite Hw. cbn [negb]. rewrite E. reflexivity.
Qed.

Lemma uniform_over_capacity_witness :
  (float64 = float32 \/ float64 = float64)
  /\ uint32_max <= max_count_of (dtype_bits float64) [2147483648%N] < 2 ^ 63
  /\ max_count_of (dtype_bits float32) [2147483648%N] < uint32_max
  /\ @_uniform Q RunFloat (PyArray (key_of 0 0)) [2147483648%N] float64
       0%Q 1%Q
     = (0%nat, Raise TypeError).
Proof.
  assert (Hd : float64 = float32 \/ float64 = float64) by now right.
  assert (Hc : uint32_max <= max_count_of (dtype_bits float64) [2147483648%N]
               < 2 ^ 63) by (split; [discriminate | reflexivity]).
  split; [exact Hd |]. split; [exact Hc |]. split; [reflexivity |].
  exact (proj2 (@uniform_over_capacity Q RunFloat 0 0 [2147483648%N] float64
                  0%Q 1%Q Hd Hc)).
Defined.

(** X12: [_randint] splits the key before it draws, so a request for
    at least [2^32 - 1] and fewer than [2^63] words fails with a
    TypeError after one run of the hash. *)
Theorem randint_over_capacity (k0 k1 : Z) (shp : list N) (minval maxval : Z)
  (dt : dtype) :
  is_integer dt = true ->
  dtype_bits dt = 32 \/ dtype_bits dt = 64 ->
  uint32_max <= max_count_of (dtype_bits dt) shp < 2 ^ 63 ->
  _randint (key_of k0 k1) shp minval maxval dt = (1%nat, Raise TypeError).
Proof.
  intros Hi Hb [Hlo Hhi].
  unfold _randint, _check_shape. rewrite bind_ret, Hi. cbn [negb].
  assert (Hw : (dtype_bits dt =? 32) || (dtype_bits dt =? 64) = true)
    by (destruct Hb as [-> | ->]; reflexivity).
  rewrite Hw. cbn [negb]. cbv zeta.
  destruct (split_pair_eval k0 k1) as (a & b & c & d & Es).
  rewrite Es, bind_ok. cbn [fst snd].
  rewrite (random_bits_over_capacity a b (dtype_bits dt) shp Hb Hhi Hlo).
  reflexivity.
Qed.

Lemma randint_over_capacity_witness :
  is_integer int64 = true
  /\ (dtype_bits int64 = 32 \/ dtype_bits int64 = 64)
  /\ uint32_max <= max_count_of (dtype_bits int64) [2147483648%N] < 2 ^ 63
  /\ _randint (key_of 0 0) [2147483648%N] 0 10 int64
     = (1%nat, Raise TypeError).
Proof.
  assert (Hb : dtype_bits int64 = 32 \/ dtype_bits int64 = 64) by now right.
  assert (Hc : uint32_max <= max_count_of (dtype_bits int64) [2147483648%N]
               < 2 ^ 63) by (split; [discriminate | reflexivity]).
  split; [reflexivity |]. split; [exact Hb |]. split; [exact Hc |].
  exact (randint_over_capacity 0 0 [2147483648%N] 0 10 int64 eq_refl Hb Hc).
Defined.
